(** * RetroVerse video library: normalisation, query language, filters, sampler

    A shallow embedding of the library core of the application:

    - [tierMapping.ts]      : [tierFromPlaycount]
    - [videoPath.ts]        : [normalizeVideoPath]
    - [videoIndex.ts]       : [clampToInt], [asString], [normalizeCanonicalTier],
                              [toRetentionBreakdown], [parseVideoIndexRows],
                              [rowSearchText]
    - [VideoLibrary.tsx]    : [parseSearch], [matchesDecade], [filteredVideos]
    - [SetBuilder.tsx]      : [weightedPick] and the history-weights effect

    and, in the part "Further functions of the cited files",

    - [thumbnail.ts]        : [swapExtension], [getThumbnailUrl]
    - [videoPath.ts]        : [toThumbnailPath]
    - [videoIndex.ts]       : [getRelativeVideoPath], [hashPath],
                              [stableVideoHash], [formatDuration],
                              [buildMediaUrl] and the exceptions of
                              [parseVideoIndexRows]
    - [VideoLibrary.tsx]    : the chip stages of [filteredVideos],
                              [normalizeTierFilter], [sampleRandom], the
                              fallback rows, [onRandomizerSpinComplete], the
                              persisted filter state
    - [RetroVerseRandomizer.tsx] : [formatYear] and the result of a spin
    - [setBuilderUtils.ts]  : [clampYear], [computeSpanWindow],
                              [intersectYearRanges], [getEraDefinition],
                              [tierSelectionToIds]
    - [useConcentricRings.ts] : the effective range
    - [SetBuilder.tsx]      : the filtered pool and the preview, the
                              weights object with the properties it inherits

    Conventions of the embedding.

    - A JavaScript number is a [number]: an exact rational, or one of the
      three non-finite values.  Comparisons, [Math.max], [Math.min] and
      [Math.trunc] are exact on doubles and are defined here; the rounding
      operations ([+], [*], [/]) are a parameter ([Float64]).
    - A JavaScript string is a [jsstring], the list of its UTF-16 code
      units (as [N]).  String literals are read through the coercion [js].
      Case conversion and Unicode normalisation are defined here on ASCII
      strings, where they are character-wise; on any other string they are
      the runtime's ([JsRuntime]).
    - A JSON value is a [JsValue]; an object is an association list read
      with [getField] (a missing property reads [JUndefined]).  A [Map],
      and a plain object filled as a dictionary, is a [gmap].
      [historyWeightsOf] reads the weights object as such a dictionary,
      which it is as long as no key names a property a plain object
      inherits ([constructor], [toString], [__proto__], ...);
      [weightsObjectOf] is the same object with these names.
    - [parseRow] is what the callback of [parseVideoIndexRows] returns;
      what makes it throw ([String.prototype.repeat] and
      [encodeURIComponent]) is in [tryParseVideoIndexRows].  Every other
      string is taken to stay within the length the engine allows.
    - The parts of the JavaScript runtime that leave this model (number
      formatting, string-to-number parsing, the Unicode tables) are the
      fields of the class [JsRuntime]: every statement below holds for
      every runtime.
    - An index [Math.floor(Math.random() * n)] is a position below [n]
      ([Math.random] returns a number of [0, 1)); the years, spans and
      counts of the set builder's rings are integers. *)

From Stdlib Require Import ZArith QArith Ascii.
From stdpp Require Import gmap strings list pretty.

Local Open Scope Z_scope.

(* ================================================================== *)
(** ** Numbers *)

Inductive number : Type :=
  | Fin (q : Q)
  | NaN
  | PosInf
  | NegInf.

(** [Number.isFinite] on a value that is already a number. *)
Definition isFinite (n : number) : bool :=
  match n with Fin _ => true | _ => false end.

(** The relational operator [a <= b]. *)
Definition num_le (a b : number) : bool :=
  match a, b with
  | NaN, _ | _, NaN => false
  | Fin p, Fin q => Qle_bool p q
  | NegInf, _ => true
  | _, PosInf => true
  | _, _ => false
  end.

(** [Math.max] and [Math.min] of two arguments. *)
Definition Math_max (a b : number) : number :=
  match a, b with
  | NaN, _ | _, NaN => NaN
  | _, _ => if num_le a b then b else a
  end.

Definition Math_min (a b : number) : number :=
  match a, b with
  | NaN, _ | _, NaN => NaN
  | _, _ => if num_le a b then a else b
  end.

(** [Math.trunc] of a finite number: the integer part, towards zero. *)
Definition Math_trunc (q : Q) : Z := Z.quot (Qnum q) (Z.pos (Qden q)).

Definition ofZ (z : Z) : number := Fin (inject_Z z).

(* ================================================================== *)
(** ** Strings *)

Abbreviation jsstring := (list N).

Definition js (s : string) : jsstring :=
  map N_of_ascii (String.list_ascii_of_string s).
Coercion js : string >-> list.

(** [String(n)] and template interpolation of a non-negative integer. *)
Definition natToString (n : nat) : jsstring := js (pretty n).

(** The characters matched by [\s] and removed by [trim]: TAB, LF, VT, FF,
    CR, SP, NBSP, U+1680, U+2000..U+200A, LS, PS, U+202F, U+205F, U+3000
    and the byte-order mark. *)
Definition isWhiteSpace (c : N) : bool :=
  ((9 <=? c) && (c <=? 13) || (c =? 32) || (c =? 160) || (c =? 5760)
   || (8192 <=? c) && (c <=? 8202) || (c =? 8232) || (c =? 8233)
   || (c =? 8239) || (c =? 8287) || (c =? 12288) || (c =? 65279))%N.

Definition isDigit (c : N) : bool := ((48 <=? c) && (c <=? 57))%N.
Definition isLowerAZ (c : N) : bool := ((97 <=? c) && (c <=? 122))%N.
Definition isUpperAZ (c : N) : bool := ((65 <=? c) && (c <=? 90))%N.
Definition isAscii (c : N) : bool := (c <? 128)%N.

Definition chr_slash : N := 47%N.
Definition chr_backslash : N := 92%N.
Definition chr_hyphen : N := 45%N.
Definition chr_underscore : N := 95%N.
Definition chr_dot : N := 46%N.
Definition chr_space : N := 32%N.
Definition chr_hash : N := 35%N.

(** A string in a boolean position: the empty string is the falsy one. *)
Definition nonEmpty (s : jsstring) : bool :=
  match s with [] => false | _ => true end.

(** [a || b] on strings. *)
Definition orElse (a b : jsstring) : jsstring := if nonEmpty a then a else b.

Fixpoint trimStart (s : jsstring) : jsstring :=
  match s with
  | c :: s' => if isWhiteSpace c then trimStart s' else s
  | [] => []
  end.

Definition trimEnd (s : jsstring) : jsstring := rev (trimStart (rev s)).

Definition trim (s : jsstring) : jsstring := trimEnd (trimStart s).

Fixpoint startsWith (s p : jsstring) {struct p} : bool :=
  match p, s with
  | [], _ => true
  | a :: p', b :: s' => (a =? b)%N && startsWith s' p'
  | _ :: _, [] => false
  end.

(** First position at which [needle] occurs in [hay]. *)
Fixpoint findSub (needle hay : jsstring) : option nat :=
  if startsWith hay needle then Some 0%nat
  else match hay with
       | [] => None
       | _ :: hay' => S <$> findSub needle hay'
       end.

(** [hay.indexOf(needle)]: the position, or -1. *)
Definition indexOf (hay needle : jsstring) : Z :=
  match findSub needle hay with
  | Some i => Z.of_nat i
  | None => -1
  end.

Definition includes (hay needle : jsstring) : bool :=
  negb (indexOf hay needle =? -1).

(** [s.slice(start)]: a negative start counts from the end. *)
Definition slice (s : jsstring) (start : Z) : jsstring :=
  if start <? 0 then drop (Z.to_nat (Z.max (Z.of_nat (length s) + start) 0)) s
  else drop (Z.to_nat start) s.

(** [s.replace(/\\/g, '/')]. *)
Definition replaceBackslashes (s : jsstring) : jsstring :=
  map (fun c => if (c =? chr_backslash)%N then chr_slash else c) s.

(** [s.replace(/_/g, ' ')]. *)
Definition replaceUnderscores (s : jsstring) : jsstring :=
  map (fun c => if (c =? chr_underscore)%N then chr_space else c) s.

(** [s.replace(/C+/g, r)] for a character class [C]: every maximal run of
    characters of the class becomes the single character [r]. *)
Fixpoint collapseRuns (inClass : N -> bool) (r : N) (inRun : bool) (s : jsstring)
  : jsstring :=
  match s with
  | [] => []
  | c :: s' =>
      if inClass c
      then (if inRun then collapseRuns inClass r true s'
            else r :: collapseRuns inClass r true s')
      else c :: collapseRuns inClass r false s'
  end.

(** [s.split(/C/)] for a character class [C]: cut at every character of the
    class ([cur] is the piece being read). *)
Fixpoint splitAtClass (inClass : N -> bool) (cur s : jsstring) : list jsstring :=
  match s with
  | [] => [cur]
  | c :: s' =>
      if inClass c then cur :: splitAtClass inClass [] s'
      else splitAtClass inClass (cur ++ [c]) s'
  end.

(** [s.split(/C+/)] for a character class [C]: cut at every maximal run. *)
Fixpoint splitAtRuns (inClass : N -> bool) (cur : jsstring) (inRun : bool)
  (s : jsstring) : list jsstring :=
  match s with
  | [] => [cur]
  | c :: s' =>
      if inClass c
      then (if inRun then splitAtRuns inClass cur true s'
            else cur :: splitAtRuns inClass [] true s')
      else splitAtRuns inClass (cur ++ [c]) false s'
  end.

(** [s.split(sep)] for a non-empty separator string; [skip] counts the
    characters of a separator still to be passed over. *)
Fixpoint splitOnGo (sep cur : jsstring) (skip : nat) (s : jsstring) : list jsstring :=
  match s with
  | [] => [cur]
  | c :: s' =>
      match skip with
      | S k => splitOnGo sep cur k s'
      | O =>
          if startsWith s sep then cur :: splitOnGo sep [] (length sep - 1) s'
          else splitOnGo sep (cur ++ [c]) 0 s'
      end
  end.

Definition splitOn (sep s : jsstring) : list jsstring := splitOnGo sep [] 0 s.

(** [parts.join(sep)]. *)
Fixpoint join (sep : jsstring) (parts : list jsstring) : jsstring :=
  match parts with
  | [] => []
  | [p] => p
  | p :: rest => p ++ sep ++ join sep rest
  end.

(** [parts.pop() ?? ''] on the result of a split. *)
Definition pop (parts : list jsstring) : jsstring := List.last parts [].

(* ================================================================== *)
(** ** JSON values and the runtime *)

#[local] Set Warnings "-register-all,-automation".
Inductive JsValue : Type :=
  | JUndefined
  | JNull
  | JBool (b : bool)
  | JNum (n : number)
  | JStr (s : jsstring)
  | JArr (elems : list JsValue)
  | JObj (fields : list (jsstring * JsValue)).

Abbreviation JsObject := (list (jsstring * JsValue)).

(** [o[k]] and [o.k] on a plain object. *)
Fixpoint getField (o : JsObject) (k : jsstring) : JsValue :=
  match o with
  | [] => JUndefined
  | (k', v) :: o' => if bool_decide (k' = k) then v else getField o' k
  end.

(** [a ?? b]. *)
Definition nullish (a b : JsValue) : JsValue :=
  match a with
  | JUndefined | JNull => b
  | _ => a
  end.
Infix "??" := nullish (at level 61, left associativity).

(** [bucket?.k], where [bucket] is undefined or an object. *)
Definition optField (bucket : JsValue) (k : jsstring) : JsValue :=
  match bucket with
  | JObj o => getField o k
  | _ => JUndefined
  end.

Class JsRuntime : Type := {
  (** [String(x)] for a finite number [x]. *)
  numberToString : Q -> jsstring;
  (** [Number(s)] for a string [s]. *)
  stringToNumber : jsstring -> number;
  (** [String(a)] for an array [a]. *)
  arrayToString : list JsValue -> jsstring;
  (** [toLowerCase], [toUpperCase] and [normalize('NFD')] on a string with
      a character outside ASCII. *)
  unicodeLower : jsstring -> jsstring;
  unicodeUpper : jsstring -> jsstring;
  unicodeNFD : jsstring -> jsstring;
}.

Section Runtime.
Context {rt : JsRuntime}.

Definition toLowerCase (s : jsstring) : jsstring :=
  if forallb isAscii s
  then map (fun c => if isUpperAZ c then (c + 32)%N else c) s
  else unicodeLower s.

Definition toUpperCase (s : jsstring) : jsstring :=
  if forallb isAscii s
  then map (fun c => if isLowerAZ c then (c - 32)%N else c) s
  else unicodeUpper s.

Definition normalizeNFD (s : jsstring) : jsstring :=
  if forallb isAscii s then s else unicodeNFD s.

(** [Number(v)]. *)
Definition Number_ (v : JsValue) : number :=
  match v with
  | JUndefined => NaN
  | JNull => ofZ 0
  | JBool true => ofZ 1
  | JBool false => ofZ 0
  | JNum n => n
  | JStr s => stringToNumber s
  | JArr a => stringToNumber (arrayToString a)
  | JObj _ => NaN
  end.

End Runtime.

(* ================================================================== *)
(** ** tierMapping.ts *)

Inductive CanonicalTier : Type := Promo | Light | Medium | Heavy | Power.

Global Instance CanonicalTier_eq_dec : EqDecision CanonicalTier.
Proof. solve_decision. Defined.

Definition tierFromPlaycount (playcount : number) : option CanonicalTier :=
  if negb (isFinite playcount) then None
  else if num_le playcount (ofZ 1) then Some Promo
  else if num_le playcount (ofZ 7) then Some Light
  else if num_le playcount (ofZ 15) then Some Medium
  else if num_le playcount (ofZ 29) then Some Heavy
  else Some Power.

(* ================================================================== *)
(** ** videoPath.ts *)

Definition CANONICAL_VIDEO_ROOT : jsstring :=
  "/Users/bobhopp/Library/CloudStorage/Dropbox/VIDEO".

Record NormalizedPath : Type := {
  relativePath : option jsstring;
  absolutePath : option jsstring;
}.

(** [s.replace(/^VIDEO\//, '')]. *)
Definition stripVideoPrefix (s : jsstring) : jsstring :=
  if startsWith s "VIDEO/" then drop 6 s else s.

Definition normalizeVideoPath (inputPath : jsstring) : NormalizedPath :=
  if negb (nonEmpty inputPath) then {| relativePath := None; absolutePath := None |}
  else
    let marker : jsstring := "/VIDEO/" in
    let idx := indexOf inputPath marker in
    if idx =? -1 then {| relativePath := None; absolutePath := None |}
    else
      let tail := slice inputPath (idx + 1) in
      let relativePath := replaceBackslashes tail in
      let absolutePath :=
        CANONICAL_VIDEO_ROOT ++ "/" ++ stripVideoPrefix relativePath in
      {| relativePath := Some relativePath; absolutePath := Some absolutePath |}.

(* ================================================================== *)
(** ** videoIndex.ts *)

Inductive RetentionGrade : Type := GradeS | GradeA | GradeB | GradeC.

(** The object built by [toRetentionBreakdown]: its keys and their numbers. *)
Abbreviation RetentionBreakdown := (gmap jsstring number) (only parsing).

(** The fields of the source's [VideoRecord] that the identity, path, tier,
    retention and search rules read or write.  The remaining fields of the
    source type ([label], [bpm], [key], [comments], [durationSec],
    [firstSeenMs], [addedAt], the media URLs, [tags], [infos], [scan],
    [pois], [rotationTier], [retentionStars], [retentionStrength],
    [retentionIndicator], [raw], [filename]) are computed from the item
    alone and feed none of the embedded functions. *)
Module VideoRecord.
Record t : Type := mk {
  id : jsstring;
  videoId : option jsstring;
  filePath : jsstring;
  absolutePath : option jsstring;
  title : jsstring;
  artist : jsstring;
  album : jsstring;
  genre : jsstring;
  year : option Z;
  playcount : Z;
  tier : option CanonicalTier;
  retentionScore : Z;
  retentionGrade : RetentionGrade;
  retentionBreakdown : option RetentionBreakdown;
}.
End VideoRecord.
Abbreviation VideoRecord := VideoRecord.t.

Definition tierName (t : CanonicalTier) : jsstring :=
  match t with
  | Promo => "Promo" | Light => "Light" | Medium => "Medium"
  | Heavy => "Heavy" | Power => "Power"
  end.

Definition gradeName (g : RetentionGrade) : jsstring :=
  match g with
  | GradeS => "S" | GradeA => "A" | GradeB => "B" | GradeC => "C"
  end.

(** [a ?? b] on a nullable number. *)
Definition orNull {A} (a b : option A) : option A :=
  match a with Some _ => a | None => b end.

(** The em dash placeholder. *)
Definition EM_DASH : jsstring := [8212%N].

Definition RETENTION_KEYS : list jsstring :=
  [ js "xmlLifetimePlaycount"; js "historicalPlays"; js "eventDiversity";
    js "bpmTransitionUtility"; js "genreCoverageUniqueness";
    js "artistPresenceNetwork"; js "eraRelevance"; js "metadataCompleteness";
    js "freshnessCurve" ].

Definition cleanMusicText (value : jsstring) : jsstring :=
  if negb (nonEmpty value) then []
  else trim (collapseRuns isWhiteSpace chr_space false (replaceUnderscores value)).

Definition isPathSep (c : N) : bool := ((c =? chr_slash) || (c =? chr_backslash))%N.

Definition isAlnumI (c : N) : bool := isDigit c || isLowerAZ c || isUpperAZ c.

(** [name.replace(/\.[a-z0-9]+$/i, '')]: cut at the first position where a
    dot is followed by letters and digits up to the end. *)
Fixpoint stripExtension (name : jsstring) : jsstring :=
  match name with
  | [] => []
  | c :: rest =>
      if (c =? chr_dot)%N && nonEmpty rest && forallb isAlnumI rest then []
      else c :: stripExtension rest
  end.

Definition deriveTitle (filePath : jsstring) : jsstring :=
  let name := pop (splitAtClass isPathSep [] filePath) in
  let withoutExt := stripExtension name in
  let split := splitOn " - " withoutExt in
  if (1 <? length split)%nat
  then orElse (cleanMusicText (join " - " (drop 1 split)))
         (orElse (cleanMusicText withoutExt) "Untitled")
  else orElse (cleanMusicText withoutExt) "Untitled".

Definition deriveArtist (filePath : jsstring) : jsstring :=
  let name := pop (splitAtClass isPathSep [] filePath) in
  let withoutExt := stripExtension name in
  if includes withoutExt " - "
  then orElse (cleanMusicText (List.hd [] (splitOn " - " withoutExt))) "Unknown"
  else "Unknown".

Section Normalizer.
Context {rt : JsRuntime}.

Definition clampToInt (value : JsValue) : option Z :=
  match value with
  | JNum (Fin q) => Some (Math_trunc q)
  | JStr s =>
      if nonEmpty (trim s)
      then match Number_ (JStr s) with
           | Fin q => Some (Math_trunc q)
           | _ => None
           end
      else None
  | _ => None
  end.

Definition asString (value : JsValue) : jsstring :=
  match value with
  | JStr s => trim s
  | JNum (Fin q) => numberToString q
  | _ => []
  end.

Definition normalizeCanonicalTier (value : JsValue) : option CanonicalTier :=
  match value with
  | JStr s =>
      let normalized := toLowerCase (trim s) in
      if bool_decide (normalized = "promo") then Some Promo
      else if bool_decide (normalized = "light") then Some Light
      else if bool_decide (normalized = "medium") then Some Medium
      else if bool_decide (normalized = "heavy") then Some Heavy
      else if bool_decide (normalized = "power") then Some Power
      else None
  | _ => None
  end.

Definition normalizeRetentionGrade (value : JsValue) : RetentionGrade :=
  match value with
  | JStr s =>
      let normalized := toUpperCase (trim s) in
      if bool_decide (normalized = "S") then GradeS
      else if bool_decide (normalized = "A") then GradeA
      else if bool_decide (normalized = "B") then GradeB
      else GradeC
  | _ => GradeC
  end.

(** [typeof raw === 'number' && Number.isFinite(raw) ? raw : Number(raw)]. *)
Definition coerceScore (raw : JsValue) : number :=
  match raw with
  | JNum (Fin q) => Fin q
  | _ => Number_ raw
  end.

(** The loop of [toRetentionBreakdown] over the keys still to be read. *)
Fixpoint breakdownLoop (row : JsObject) (keys : list jsstring)
  (output : gmap jsstring number) : option RetentionBreakdown :=
  match keys with
  | [] => Some output
  | key :: rest =>
      let raw := getField row key in
      let parsed := coerceScore raw in
      if negb (isFinite parsed) then None
      else breakdownLoop row rest (<[key := parsed]> output)
  end.

Definition toRetentionBreakdown (value : JsValue) : option RetentionBreakdown :=
  match value with
  | JObj row => breakdownLoop row RETENTION_KEYS ∅
  | _ => None
  end.

(** [item.tags && typeof item.tags === 'object' ? item.tags : undefined]. *)
Definition objectBucket (v : JsValue) : JsValue :=
  match v with
  | JObj _ | JArr _ => v
  | _ => JUndefined
  end.

(** The body of the [map] callback of [parseVideoIndexRows]: the row, or
    null, and the [ids] map after the call, when the callback returns
    ([callbackThrows] tells when it throws instead). *)
Definition parseRow (ids : gmap jsstring nat) (idx : nat) (item : JsObject)
  : option VideoRecord * gmap jsstring nat :=
  let rawPath := asString (getField item "filePath" ?? getField item "filepath") in
  if negb (nonEmpty rawPath) then (None, ids)
  else
    let normalized := normalizeVideoPath rawPath in
    match relativePath normalized with
    | None => (None, ids)
    | Some rel =>
      if negb (nonEmpty rel) then (None, ids)
      else
        let year := clampToInt (getField item "year") in
        let playcount :=
          default 0 (orNull (clampToInt (getField item "playcount"))
                       (orNull (clampToInt (getField item "playCount"))
                               (clampToInt (getField item "play_count")))) in
        let tags := objectBucket (getField item "tags") in
        let retentionScore :=
          default 0 (clampToInt (getField item "retentionScore"
                                 ?? getField item "retention_score")) in
        let retentionGrade :=
          normalizeRetentionGrade (getField item "retentionGrade"
                                   ?? getField item "retention_grade") in
        let retentionBreakdown :=
          toRetentionBreakdown (getField item "retentionBreakdown"
                                ?? getField item "retention_breakdown") in
        let fallbackTitle := deriveTitle rel in
        let title := orElse (cleanMusicText (asString (getField item "title")))
                            fallbackTitle in
        let artist :=
          orElse (cleanMusicText (asString (getField item "artist"
                                            ?? getField item "author")))
                 (deriveArtist rel) in
        let album :=
          orElse (cleanMusicText (asString (getField item "album"
                                            ?? optField tags "album")))
                 EM_DASH in
        let genre :=
          orElse (cleanMusicText (asString (getField item "genre"
                                            ?? optField tags "genre")))
                 EM_DASH in
        let idBase :=
          orElse (asString (getField item "videoId" ?? getField item "video_id"))
                 (orElse rel ("video-" ++ natToString idx)) in
        let duplicate := default 0%nat (ids !! idBase) in
        let ids' := <[idBase := (duplicate + 1)%nat]> ids in
        let videoId := asString (getField item "videoId" ?? getField item "video_id") in
        let inferredTier := tierFromPlaycount (ofZ playcount) in
        let normalizedTier := normalizeCanonicalTier (getField item "tier") in
        let tier := orNull inferredTier normalizedTier in
        (Some {|
           VideoRecord.id :=
             if (duplicate =? 0)%nat then idBase
             else idBase ++ "#" ++ natToString duplicate;
           VideoRecord.videoId := if nonEmpty videoId then Some videoId else None;
           VideoRecord.filePath := rel;
           VideoRecord.absolutePath := absolutePath normalized;
           VideoRecord.title := title;
           VideoRecord.artist := artist;
           VideoRecord.album := album;
           VideoRecord.genre := genre;
           VideoRecord.year := year;
           VideoRecord.playcount := playcount;
           VideoRecord.tier := tier;
           VideoRecord.retentionScore := retentionScore;
           VideoRecord.retentionGrade := retentionGrade;
           VideoRecord.retentionBreakdown := retentionBreakdown;
         |}, ids')
    end.

(** [items.map((item, idx) => ...)] with the [ids] map it closes over. *)
Fixpoint mapRows (ids : gmap jsstring nat) (idx : nat) (items : list JsObject)
  : list (option VideoRecord) :=
  match items with
  | [] => []
  | item :: rest =>
      let '(row, ids') := parseRow ids idx item in
      row :: mapRows ids' (S idx) rest
  end.

(** [.filter((row) => Boolean(row))] keeps the rows that are not null. *)
Definition parseVideoIndexRows (items : list JsObject) : list VideoRecord :=
  omap (fun row => row) (mapRows ∅ 0 items).

Definition rowSearchText (row : VideoRecord) : jsstring :=
  toLowerCase
    (join " "
       [ VideoRecord.title row;
         VideoRecord.artist row;
         match VideoRecord.year row with
         | Some y => if y =? 0 then [] else numberToString (inject_Z y)
         | None => []
         end;
         VideoRecord.filePath row;
         VideoRecord.album row;
         VideoRecord.genre row;
         gradeName (VideoRecord.retentionGrade row);
         match VideoRecord.tier row with Some t => tierName t | None => [] end ]).

End Normalizer.

(* ================================================================== *)
(** ** VideoLibrary.tsx: the query language *)

Inductive DecadePill : Type := P60s | P70s | P80s | P90s | P00s | P10s.

Record YearRange : Type := { range_start : Z; range_end : Z }.

Record Query : Type := {
  textTokens : list jsstring;
  yearValues : list Z;
  yearRanges : list YearRange;
}.

(** The combining marks U+0300..U+036F. *)
Definition isCombiningMark (c : N) : bool := ((768 <=? c) && (c <=? 879))%N.

Definition isAlnumLower (c : N) : bool := isLowerAZ c || isDigit c.

(** [/^\d{2,4}$/.test(value)]. *)
Definition isYearDigits (value : jsstring) : bool :=
  forallb isDigit value && (2 <=? length value)%nat && (length value <=? 4)%nat.

(** [Number(value)] for a string of decimal digits. *)
Definition decimalValue (value : jsstring) : Z :=
  fold_left (fun acc c => 10 * acc + (Z.of_N c - 48)) value 0.

Definition parseYearToken (value : jsstring) : option Z :=
  if negb (isYearDigits value) then None
  else
    let num := decimalValue value in
    if (length value =? 2)%nat then Some (1900 + num) else Some num.

(** The text before and after the first hyphen. *)
Fixpoint cutAtHyphen (s : jsstring) : option (jsstring * jsstring) :=
  match s with
  | [] => None
  | c :: s' =>
      if (c =? chr_hyphen)%N then Some ([], s')
      else match cutAtHyphen s' with
           | Some (l, r) => Some (c :: l, r)
           | None => None
           end
  end.

(** [value.match(/^(\d{2,4})-(\d{2,4})$/)]: the two groups. *)
Definition matchYearRange (value : jsstring) : option (jsstring * jsstring) :=
  match cutAtHyphen value with
  | Some (m1, m2) => if isYearDigits m1 && isYearDigits m2 then Some (m1, m2) else None
  | None => None
  end.

Definition parseYearRangeToken (value : jsstring) : option YearRange :=
  match matchYearRange value with
  | None => None
  | Some (m1, m2) =>
      match parseYearToken m1 with
      | None => None
      | Some left_ =>
          match parseYearToken m2 with
          | None => None
          | Some right0 =>
              let right_ :=
                if (length m1 =? 4)%nat && (length m2 =? 2)%nat
                then (let century := (left_ / 100) * 100 in century + decimalValue m2)
                else right0 in
              Some {| range_start := Z.min left_ right_;
                      range_end := Z.max left_ right_ |}
          end
      end
  end.

(** [query.replace(/[\u2013\u2014]/g, '-')]: en and em dash to hyphen. *)
Definition normalizeDashes (query : jsstring) : jsstring :=
  map (fun c => if ((c =? 8211) || (c =? 8212))%N then chr_hyphen else c) query.

(** [token.replace(/[^0-9a-z-]/g, '')]. *)
Definition cleanToken (token : jsstring) : jsstring :=
  filter (fun c => isDigit c || isLowerAZ c || (c =? chr_hyphen)%N) token.

Definition matchesDecade (year : option Z) (pill : DecadePill) : bool :=
  match year with
  | None => false
  | Some year =>
      match pill with
      | P60s => (1960 <=? year) && (year <=? 1969)
      | P70s => (1970 <=? year) && (year <=? 1979)
      | P80s => (1980 <=? year) && (year <=? 1989)
      | P90s => (1990 <=? year) && (year <=? 1999)
      | P00s => (2000 <=? year) && (year <=? 2009)
      | P10s => 2010 <=? year
      end
  end.

Section Library.
Context {rt : JsRuntime}.

Definition normalizeSearchText (value : jsstring) : jsstring :=
  trim
    (collapseRuns (fun c => negb (isAlnumLower c)) chr_space false
       (filter (fun c => negb (isCombiningMark c))
          (normalizeNFD (toLowerCase value)))).

Definition tokenize (value : jsstring) : list jsstring :=
  let normalized := normalizeSearchText value in
  if nonEmpty normalized then splitAtRuns isWhiteSpace [] false normalized else [].

(** The [for] loop of [parseSearch] over the raw tokens still to be read. *)
Fixpoint parseLoop (rawTokens : list jsstring) (textParts : list jsstring)
  (yearValues : list Z) (yearRanges : list YearRange)
  : list jsstring * list Z * list YearRange :=
  match rawTokens with
  | [] => (textParts, yearValues, yearRanges)
  | token :: rest =>
      let cleaned := cleanToken token in
      if negb (nonEmpty cleaned) then parseLoop rest textParts yearValues yearRanges
      else
        match parseYearRangeToken cleaned with
        | Some yearRange =>
            parseLoop rest textParts yearValues (yearRanges ++ [yearRange])
        | None =>
            match parseYearToken cleaned with
            | Some yearValue =>
                if (length cleaned =? 4)%nat
                then parseLoop rest textParts (yearValues ++ [yearValue]) yearRanges
                else parseLoop rest (textParts ++ [cleaned]) yearValues yearRanges
            | None => parseLoop rest (textParts ++ [cleaned]) yearValues yearRanges
            end
        end
  end.

Definition rawTokensOf (query : jsstring) : list jsstring :=
  let normalizedQuery := normalizeDashes query in
  filter (fun token => nonEmpty token)
    (map trim (splitAtRuns isWhiteSpace [] false (toLowerCase normalizedQuery))).

Definition parseSearch (query : jsstring) : Query :=
  let '(textParts, yearValues, yearRanges) := parseLoop (rawTokensOf query) [] [] [] in
  {| textTokens := tokenize (join " " textParts);
     yearValues := yearValues;
     yearRanges := yearRanges |}.

(** The first [filter] callback of [filteredVideos]: text, exact years and
    year ranges. *)
Definition textYearStage (query : Query) (row : VideoRecord) : bool :=
  let rowText := rowSearchText row in
  if (0 <? length (textTokens query))%nat
     && negb (let textTokens' := tokenize rowText in
              forallb (fun token => existsb (fun word => startsWith word token) textTokens')
                      (textTokens query))
  then false
  else if (0 <? length (yearValues query))%nat
          && match VideoRecord.year row with
             | None => true
             | Some y => negb (forallb (fun year => y =? year) (yearValues query))
             end
  then false
  else if (0 <? length (yearRanges query))%nat
          && match VideoRecord.year row with
             | None => true
             | Some y =>
                 negb (forallb (fun range => (range_start range <=? y) && (y <=? range_end range))
                               (yearRanges query))
             end
  then false
  else true.

(** The third [filter] callback of [filteredVideos]: the decade pills. *)
Definition decadeStage (activeDecades : list DecadePill) (row : VideoRecord) : bool :=
  if (length activeDecades =? 0)%nat then true
  else existsb (fun pill => matchesDecade (VideoRecord.year row) pill) activeDecades.

End Library.

(* ================================================================== *)
(** ** SetBuilder.tsx: the history weights and the weighted sampler *)

Section History.
Context {rt : JsRuntime}.

(** The key the history effect derives from [songKey] when it holds the
    marker: [`/VIDEO/${normalized.slice(videoMarker + 7)}`]. *)
Definition markerRelativeKey (songKey : jsstring) : option jsstring :=
  let normalized := replaceBackslashes songKey in
  let videoMarker := indexOf (toUpperCase normalized) "/VIDEO/" in
  if 0 <=? videoMarker
  then Some (replaceBackslashes
               ("/VIDEO/" ++ slice normalized (videoMarker + Z.of_nat (length (js "/VIDEO/")))))
  else None.

(** [typeof stats?.totalPlays === 'number' ? stats.totalPlays : 0]. *)
Definition totalPlaysOf (stats : JsValue) : number :=
  match stats with
  | JObj o => match getField o "totalPlays" with JNum n => n | _ => ofZ 0 end
  | _ => ofZ 0
  end.

(** One iteration of the loop over [Object.entries(history.perSong)], the
    object [weights] read as a dictionary ([weightsStep] is the iteration
    on an object that inherits from [Object.prototype]). *)
Definition historyStep (weights : gmap jsstring number) (entry : jsstring * JsValue)
  : gmap jsstring number :=
  let '(songKey, stats) := entry in
  let plays := totalPlaysOf stats in
  let weights1 :=
    match markerRelativeKey songKey with
    | Some rel => <[rel := Math_max (default (ofZ 0) (weights !! rel)) plays]> weights
    | None => weights
    end in
  <[songKey := Math_max (default (ofZ 0) (weights1 !! songKey)) plays]> weights1.

(** [Object.entries] of the [perSong] value (an array lists its indices). *)
Definition entriesOf (perSong : JsValue) : option JsObject :=
  match perSong with
  | JObj o => Some o
  | JArr a => Some (imap (fun i v => (natToString i, v)) a)
  | _ => None
  end.

(** The state [historyWeights] after the effect ran on the fetched document
    (it stays the initial [{}] when the guard returns early). *)
Definition historyWeightsOf (history : JsValue) : gmap jsstring number :=
  match history with
  | JObj h =>
      match entriesOf (getField h "perSong") with
      | Some entries => fold_left historyStep entries ∅
      | None => ∅
      end
  | _ => ∅
  end.

End History.

(** The rounding arithmetic of doubles. *)
Class Float64 : Type := {
  fadd : number -> number -> number;
  fsub : number -> number -> number;
  fmul : number -> number -> number;
  fdiv : number -> number -> number;
  (** the double a decimal literal denotes *)
  fliteral : Q -> number;
}.

Section Sampler.
Context {fp : Float64}.

(** The successive results of [Math.random()]. *)
Variable draws : nat -> number.

Variable count : Z.
Variable intensity : number.
Variable historyWeights : gmap jsstring number.

Definition clamp (value min max : number) : number :=
  Math_min max (Math_max min value).

(** The weight of one candidate, [rnd] being its own [Math.random()]; the
    state [historyWeights] is read as a dictionary. *)
Definition itemWeight (item : VideoRecord) (rnd : number) : number :=
  let libraryPlays := Math_max (ofZ 0) (ofZ (VideoRecord.playcount item)) in
  let historyPlays :=
    Math_max (ofZ 0)
      (default (ofZ 0)
         (orNull (historyWeights !! VideoRecord.filePath item)
                 (historyWeights !! VideoRecord.id item))) in
  let combinedPlays := fadd libraryPlays historyPlays in
  let novelty := fdiv (ofZ 1) (fadd (ofZ 1) combinedPlays) in
  let retention :=
    clamp (fdiv (ofZ (VideoRecord.retentionScore item)) (ofZ 100)) (ofZ 0) (ofZ 1) in
  let retentionBias := fadd (fliteral 0.65) (fmul retention (fliteral 1.1)) in
  fmul retentionBias
    (fadd (fadd (ofZ 1) (fmul intensity rnd)) (fmul novelty (fdiv intensity (ofZ 2)))).

(** [available.map(...)]: the weights, and the number of draws used so far. *)
Fixpoint weightsOf (available : list VideoRecord) (k : nat) : list number * nat :=
  match available with
  | [] => ([], k)
  | item :: rest =>
      let w := itemWeight item (draws k) in
      let '(ws, k') := weightsOf rest (S k) in
      (w :: ws, k')
  end.

(** The inner [for] loop: [selected] is 0 unless the cursor ran out. *)
Fixpoint selectLoop (weights : list number) (index : nat) (cursor : number) : nat :=
  match weights with
  | [] => 0%nat
  | w :: rest =>
      let cursor' := fsub cursor w in
      if num_le cursor' (ofZ 0) then index
      else selectLoop rest (S index) cursor'
  end.

(** The [while] loop; one unit of [fuel] per iteration. *)
Fixpoint pickLoop (fuel : nat) (available picks : list VideoRecord) (k : nat)
  : list VideoRecord :=
  match fuel with
  | O => picks
  | S fuel' =>
      if (0 <? length available)%nat && (Z.of_nat (length picks) <? count)
      then
        let '(weights, k1) := weightsOf available k in
        let total := fold_left fadd weights (ofZ 0) in
        let cursor := fmul (draws k1) total in
        let selected := selectLoop weights 0 cursor in
        match available !! selected with
        | Some item =>
            pickLoop fuel' (delete selected available) (picks ++ [item]) (S k1)
        | None => picks
        end
      else picks
  end.

(** Every iteration removes one element of [available], so the loop ends
    within [items.length] iterations. *)
Definition weightedPick (items : list VideoRecord) : list VideoRecord :=
  pickLoop (length items) items [] 0.

End Sampler.

(* ================================================================== *)
(** * The vocabulary of the properties *)

(** [needle] occurs in [hay] as a contiguous substring. *)
Definition occursIn (needle hay : jsstring) : Prop :=
  exists pre post, hay = pre ++ needle ++ post.

(** The spec's band of a pill: the first year of its fixed ten-year band
    ("80s" is 1980 to 1989). *)
Definition spec_bandStart (pill : DecadePill) : Z :=
  match pill with
  | P60s => 1960 | P70s => 1970 | P80s => 1980
  | P90s => 1990 | P00s => 2000 | P10s => 2010
  end.

(** A string of two to four decimal digits, [\d{2,4}]. *)
Definition YearDigits (s : jsstring) : Prop :=
  (forall c, c ∈ s -> isDigit c = true) /\ (2 <= length s <= 4)%nat.

(** The spec's reading of a year written with two to four digits: two
    digits stand for a year of the 1900s. *)
Definition spec_year (digits : jsstring) : Z :=
  if (length digits =? 2)%nat then 1900 + decimalValue digits else decimalValue digits.

(** The spec's reading of the second part of a range: two digits after a
    four-digit first part stand for a year of the first part's century. *)
Definition spec_rangeEnd (first second : jsstring) : Z :=
  if (length first =? 4)%nat && (length second =? 2)%nat
  then spec_year first / 100 * 100 + decimalValue second
  else spec_year second.

(** A bare four-digit token. *)
Definition isFourDigits (token : jsstring) : bool :=
  forallb isDigit token && (length token =? 4)%nat.

(** What the spec makes of one cleaned token. *)
Inductive TokenKind : Type :=
  | KRange (range : YearRange)
  | KYear (year : Z)
  | KText (text : jsstring).

(** A token of the range shape is a range, a bare four-digit token is a
    year, and every other token is free text. *)
Definition spec_classify (token : jsstring) : TokenKind :=
  match parseYearRangeToken token with
  | Some range => KRange range
  | None => if isFourDigits token then KYear (decimalValue token) else KText token
  end.

(** The ranges, the years and the texts among a list of kinds. *)
Definition rangeOf (k : TokenKind) : option YearRange :=
  match k with KRange r => Some r | _ => None end.
Definition yearOf (k : TokenKind) : option Z :=
  match k with KYear y => Some y | _ => None end.
Definition textOf (k : TokenKind) : option jsstring :=
  match k with KText t => Some t | _ => None end.

(** The shape [\d{2,4}-\d{2,4}]. *)
Definition RangeShape (token : jsstring) : Prop :=
  exists m1 m2, token = m1 ++ chr_hyphen :: m2 /\ YearDigits m1 /\ YearDigits m2.

(** The kinds of the cleaned tokens of a list of raw tokens. *)
Definition kindsOf (rawTokens : list jsstring) : list TokenKind :=
  map spec_classify
    (filter (fun cleaned => nonEmpty cleaned) (map cleanToken rawTokens)).

Section Vocabulary.
Context {rt : JsRuntime}.

(** The tokens the loop classifies: split at whitespace, stripped of the
    characters outside [0-9a-z-], the empty ones skipped. *)
Definition cleanedTokens (query : jsstring) : list jsstring :=
  filter (fun cleaned => nonEmpty cleaned) (map cleanToken (rawTokensOf query)).


End Vocabulary.

(** Step 1 of the spec's parser: an en dash or an em dash stands for the
    ASCII hyphen. *)
Definition spec_hyphenate (c : N) : N :=
  match c with
  | 8211%N | 8212%N => 45%N
  | _ => c
  end.

(** Step 2 of the spec's parser: the characters a token keeps, [0-9a-z-];
    every other character is punctuation. *)
Definition spec_tokenAlphabet : jsstring := "0123456789abcdefghijklmnopqrstuvwxyz-".

Definition spec_isPunctuation (c : N) : bool :=
  negb (existsb (N.eqb c) spec_tokenAlphabet).

Definition spec_stripPunctuation (word : jsstring) : jsstring :=
  filter (fun c => negb (spec_isPunctuation c)) word.

(** The words of a string: its maximal runs of characters that are not
    whitespace, from left to right; [word] is the run being read. *)
Fixpoint spec_wordsFrom (word : jsstring) (s : jsstring) : list jsstring :=
  match s with
  | [] => if nonEmpty word then [word] else []
  | c :: s' =>
      if isWhiteSpace c
      then (if nonEmpty word then word :: spec_wordsFrom [] s' else spec_wordsFrom [] s')
      else spec_wordsFrom (word ++ [c]) s'
  end.

Section SpecTokens.
Context {rt : JsRuntime}.

(** The spec's tokens of a search string: the whitespace-separated words of
    the case-folded string, dashes read as hyphens, each stripped of its
    punctuation; a word of punctuation only leaves no token. *)
Definition spec_tokens (query : jsstring) : list jsstring :=
  filter (fun token => nonEmpty token)
    (map spec_stripPunctuation
       (spec_wordsFrom [] (toLowerCase (map spec_hyphenate query)))).

End SpecTokens.

(** The id the callback gives to the [duplicate]-th record of an id base. *)
Definition mkId (idBase : jsstring) (duplicate : nat) : jsstring :=
  if (duplicate =? 0)%nat then idBase else idBase ++ js "#" ++ natToString duplicate.

(** The id base of a kept record: its upstream id, else its path. *)
Definition rowIdBase (row : VideoRecord) : jsstring :=
  default (VideoRecord.filePath row) (VideoRecord.videoId row).

(* ================================================================== *)
(** * Sample inputs *)

(** A runtime to evaluate the definitions on concrete inputs: it prints the
    integer part of a number in decimal, reads strings of decimal digits,
    and leaves strings outside ASCII as they are. *)
Definition exampleRuntime : JsRuntime := {|
  numberToString q := js (pretty (Math_trunc q));
  stringToNumber s :=
    if nonEmpty s && forallb isDigit s then ofZ (decimalValue s) else NaN;
  arrayToString _ := [];
  unicodeLower s := s;
  unicodeUpper s := s;
  unicodeNFD s := s;
|}.

(** An arithmetic without rounding, to run the sampler. *)
Definition exactArithmetic : Float64 := {|
  fadd a b := match a, b with Fin p, Fin q => Fin (Qred (p + q)) | _, _ => NaN end;
  fsub a b := match a, b with Fin p, Fin q => Fin (Qred (p - q)) | _, _ => NaN end;
  fmul a b := match a, b with Fin p, Fin q => Fin (Qred (p * q)) | _, _ => NaN end;
  fdiv a b :=
    match a, b with
    | Fin p, Fin q => if Qeq_bool q 0 then NaN else Fin (Qred (p / q))
    | _, _ => NaN
    end;
  fliteral q := Fin q;
|}.

(** An item whose upstream tier disagrees with its playcount. *)
Definition tierExampleItem : JsObject :=
  [ (js "filePath", JStr (js "/media/VIDEO/80s/Queen - Radio Ga Ga.mp4"));
    (js "playcount", JNum (ofZ 9));
    (js "tier", JStr (js "power")) ].


(** A Windows path, and a path with the forward-slash marker. *)
Definition backslashItem : JsObject :=
  [ (js "filePath", JStr (js "C:\Media\VIDEO\clip.mp4")); (js "videoId", JStr (js "clip")) ].

Definition slashItem : JsObject :=
  [ (js "filePath", JStr (js "D:\Media/VIDEO/80s\clip.mp4")) ].

(** A history document with one raw key that holds the marker. *)
Definition historyExample : JsValue :=
  JObj [ (js "perSong",
          JObj [ (js "D:\Music/VIDEO/80s\clip.mp4",
                  JObj [ (js "totalPlays", JNum (ofZ 4)) ]) ]) ].

(** Three items: an upstream id used twice, then the id ["abc#1"]. *)
Definition collidingBatch : list JsObject :=
  [ [ (js "filePath", JStr (js "/media/VIDEO/80s/a.mp4")); (js "videoId", JStr (js "abc")) ];
    [ (js "filePath", JStr (js "/media/VIDEO/80s/b.mp4")); (js "videoId", JStr (js "abc")) ];
    [ (js "filePath", JStr (js "/media/VIDEO/80s/c.mp4")); (js "videoId", JStr (js "abc#1")) ] ].

(** Records to run the filter and the sampler on. *)
Definition exampleRow (id title artist : string) (year playcount : Z) : VideoRecord :=
  {| VideoRecord.id := js id;
     VideoRecord.videoId := None;
     VideoRecord.filePath := js "VIDEO/80s/" ++ js id ++ js ".mp4";
     VideoRecord.absolutePath := None;
     VideoRecord.title := js title;
     VideoRecord.artist := js artist;
     VideoRecord.album := EM_DASH;
     VideoRecord.genre := js "Rock";
     VideoRecord.year := Some year;
     VideoRecord.playcount := playcount;
     VideoRecord.tier := tierFromPlaycount (ofZ playcount);
     VideoRecord.retentionScore := 60;
     VideoRecord.retentionGrade := GradeB;
     VideoRecord.retentionBreakdown := None |}.

Definition asciiRow : VideoRecord :=
  {| VideoRecord.id := js "q1";
     VideoRecord.videoId := None;
     VideoRecord.filePath := js "VIDEO/70s/Queen - Bohemian Rhapsody.mp4";
     VideoRecord.absolutePath := None;
     VideoRecord.title := js "Bohemian Rhapsody";
     VideoRecord.artist := js "Queen";
     VideoRecord.album := js "A Night at the Opera";
     VideoRecord.genre := js "Rock";
     VideoRecord.year := Some 1975;
     VideoRecord.playcount := 12;
     VideoRecord.tier := Some Medium;
     VideoRecord.retentionScore := 80;
     VideoRecord.retentionGrade := GradeA;
     VideoRecord.retentionBreakdown := None |}.

Definition examplePool : list VideoRecord :=
  [ exampleRow "a" "Alpha" "One" 1981 0;
    exampleRow "b" "Beta" "Two" 1982 5;
    exampleRow "c" "Gamma" "Three" 1983 40 ].

(** The draws 0.8, 0.5, 0.2, 0.9, 0.6, 0.3, 0, ... *)
Definition exampleDraws (k : nat) : number :=
  Fin (Qred (inject_Z (Z.of_nat ((k * 7 + 8) mod 10)) / 10)).

(* ================================================================== *)
(** * Further functions of the cited files *)

(** ** thumbnail.ts and videoPath.ts: extensions *)

(** [s.lastIndexOf(c)] for a one-character [c], scanning from position [i]
    with [found] the last position seen so far. *)
Fixpoint lastIndexFrom (c : N) (s : jsstring) (i : nat) (found : option nat)
  : option nat :=
  match s with
  | [] => found
  | x :: s' => lastIndexFrom c s' (S i) (if (x =? c)%N then Some i else found)
  end.

Definition lastIndexOf (s : jsstring) (c : N) : Z :=
  match lastIndexFrom c s 0 None with
  | Some i => Z.of_nat i
  | None => -1
  end.

(** [s.slice(0, stop)] for a [stop] that is not negative. *)
Definition sliceTo (s : jsstring) (stop : Z) : jsstring := take (Z.to_nat stop) s.

Definition swapExtension (filePath newExt : jsstring) : jsstring :=
  let lastDot := lastIndexOf filePath chr_dot in
  if lastDot =? -1 then filePath ++ newExt
  else sliceTo filePath lastDot ++ newExt.

(** The synchronous [getThumbnailUrl] of thumbnail.ts. *)
Definition getThumbnailUrl (video_url : jsstring) : jsstring :=
  swapExtension video_url ".jpg".

(** [s.replace(/\.[^.]+$/, ext)]: the first position where a dot is
    followed by one or more characters other than a dot, up to the end. *)
Fixpoint replaceExtension (ext s : jsstring) : jsstring :=
  match s with
  | [] => []
  | c :: rest =>
      if (c =? chr_dot)%N && nonEmpty rest
         && forallb (fun x => negb (x =? chr_dot)%N) rest
      then ext
      else c :: replaceExtension ext rest
  end.

Definition toThumbnailPath (relativePath : option jsstring) : option jsstring :=
  match relativePath with
  | None => None
  | Some p => if negb (nonEmpty p) then None else Some (replaceExtension ".jpg" p)
  end.

(** ** videoIndex.ts: paths and hashes *)

Definition getRelativeVideoPath (filePath : jsstring) : jsstring :=
  let marker : jsstring := "/VIDEO/" in
  let idx := indexOf filePath marker in
  if idx =? -1 then filePath
  else js "/VIDEO/" ++ slice filePath (idx + Z.of_nat (length marker)).

(** [ToInt32] and [ToUint32] of an integer. *)
Definition toInt32 (z : Z) : Z := (z + 2 ^ 31) mod 2 ^ 32 - 2 ^ 31.
Definition toUint32 (z : Z) : Z := z mod 2 ^ 32.

(** The loop of [hashPath]: [hash = (hash * 33) ^ value.charCodeAt(i)]. *)
Definition hashStep (hash : Z) (c : N) : Z :=
  Z.lxor (toInt32 (hash * 33)) (Z.of_N c).

Definition hashPath (value : jsstring) : jsstring :=
  let hash := fold_left hashStep value 5381 in
  js "v" ++ js (pretty (toUint32 hash)).

(** [row.videoId || row.id || hashPath(row.filePath)]. *)
Definition stableVideoHash (row : VideoRecord) : jsstring :=
  orElse (default [] (VideoRecord.videoId row))
         (orElse (VideoRecord.id row) (hashPath (VideoRecord.filePath row))).

(** ** setBuilderUtils.ts and useConcentricRings.ts: year windows *)

Definition YEAR_DOMAIN_MIN : Z := 1950.
Definition YEAR_DOMAIN_MAX : Z := 2025.

Inductive SpanValue : Type := Span (years : Z) | SpanFull.

Inductive EraId : Type :=
  | EraNone | EraDisco | EraNewWave | EraClassicRock | EraHairMetal | EraGrunge | EraEdm.

Global Instance EraId_eq_dec : EqDecision EraId.
Proof. solve_decision. Defined.

Record EraDefinition : Type := {
  era_id : EraId;
  era_start : Z;
  era_end : Z;
}.

Definition ERA_DEFINITIONS : list EraDefinition :=
  [ {| era_id := EraNone; era_start := YEAR_DOMAIN_MIN; era_end := YEAR_DOMAIN_MAX |};
    {| era_id := EraDisco; era_start := 1974; era_end := 1982 |};
    {| era_id := EraNewWave; era_start := 1978; era_end := 1986 |};
    {| era_id := EraClassicRock; era_start := 1965; era_end := 1980 |};
    {| era_id := EraHairMetal; era_start := 1983; era_end := 1991 |};
    {| era_id := EraGrunge; era_start := 1989; era_end := 1995 |};
    {| era_id := EraEdm; era_start := 2005; era_end := 2020 |} ].

(** [clamp] of setBuilderUtils.ts on integers. *)
Definition clampZ (value min max : Z) : Z := Z.min max (Z.max min value).

(** [clampYear] on a year that is an integer ([Math.round] leaves it). *)
Definition clampYear (year : Z) : Z := clampZ year YEAR_DOMAIN_MIN YEAR_DOMAIN_MAX.

Definition computeSpanWindow (year : Z) (span : SpanValue) : YearRange :=
  match span with
  | SpanFull => {| range_start := YEAR_DOMAIN_MIN; range_end := YEAR_DOMAIN_MAX |}
  | Span n =>
      let start := clampYear (year - n) in
      let end_ := clampYear (year + n) in
      {| range_start := Z.min start end_; range_end := Z.max start end_ |}
  end.

Definition intersectYearRanges (left_ right_ : YearRange) : option YearRange :=
  let start := Z.max (range_start left_) (range_start right_) in
  let end_ := Z.min (range_end left_) (range_end right_) in
  if end_ <? start then None
  else Some {| range_start := start; range_end := end_ |}.

(** [ERA_DEFINITIONS.find((era) => era.id === eraId) ?? ERA_DEFINITIONS[0]]. *)
Definition getEraDefinition (eraId : EraId) : EraDefinition :=
  default {| era_id := EraNone; era_start := YEAR_DOMAIN_MIN; era_end := YEAR_DOMAIN_MAX |}
    (List.find (fun era => bool_decide (era_id era = eraId)) ERA_DEFINITIONS).

(** The [effectiveRange] of [useConcentricRings]. *)
Definition effectiveRange (selectedYear : Z) (selectedSpan : SpanValue)
  (selectedEraId : EraId) : option YearRange :=
  let spanWindow := computeSpanWindow selectedYear selectedSpan in
  let selectedEra := getEraDefinition selectedEraId in
  let eraRange := {| range_start := era_start selectedEra;
                     range_end := era_end selectedEra |} in
  let overlapRange :=
    if bool_decide (selectedEraId = EraNone) then Some spanWindow
    else intersectYearRanges spanWindow eraRange in
  let hasEraOverlap :=
    bool_decide (selectedEraId = EraNone)
    || match overlapRange with Some _ => true | None => false end in
  if hasEraOverlap && match overlapRange with Some _ => true | None => false end
  then overlapRange else None.

(** The path the info modal shows:
    [getRelativeVideoPath(video.absolutePath || video.filePath)]. *)
Definition modalRelativePath (video : VideoRecord) : jsstring :=
  getRelativeVideoPath
    (orElse (default [] (VideoRecord.absolutePath video)) (VideoRecord.filePath video)).

(** ** VideoLibrary.tsx: the chip stages, the spin and the fallback *)

Definition DECADE_PILLS : list DecadePill := [P60s; P70s; P80s; P90s; P00s; P10s].

Definition TIER_FILTERS : list jsstring :=
  [js "promo"; js "light"; js "medium"; js "heavy"; js "power"].

(** ['all'], or a pill. *)
Inductive SpinFallback : Type := FallbackAll | FallbackPill (pill : DecadePill).

(** The filter state of the page that the chip stages read. *)
Record ChipState : Type := {
  activeSpinYear : option Z;
  activeDecades : list DecadePill;
  activeYearDigits : list Z;
  activeTiers : list jsstring;
  retentionFilter : option RetentionGrade;   (* null stands for 'all' *)
  spinFallbackDecade : option SpinFallback;
}.

(** The fields of a [SpinResult] that the page reads. *)
Record SpinResult : Type := {
  spin_decade : DecadePill;
  spin_year : option Z;
  spin_tier : CanonicalTier;
}.

Module Randomizer.

(** [formatYear] of RetroVerseRandomizer.tsx: the prefix of the decade and
    the digit. *)
Definition formatYear (decade : DecadePill) (digit : nat) : jsstring :=
  let prefix : jsstring :=
    match decade with
    | P60s => "196" | P70s => "197" | P80s => "198"
    | P90s => "199" | P00s => "200" | P10s => "201"
    end in
  prefix ++ natToString digit.

(** The result of a spin that stopped on [decade], [anchorDigit] and
    [tier]; [Number] reads the four digits. *)
Definition spinResult (decade : DecadePill) (anchorDigit : nat) (tier : CanonicalTier)
  : SpinResult :=
  {| spin_decade := decade;
     spin_year := Some (decimalValue (formatYear decade anchorDigit));
     spin_tier := tier |}.

End Randomizer.

Global Instance RetentionGrade_eq_dec : EqDecision RetentionGrade.
Proof. solve_decision. Defined.

Section Chips.
Context {rt : JsRuntime}.

Definition normalizeTierFilter (value : option CanonicalTier) : option jsstring :=
  match value with
  | None => None
  | Some t =>
      let normalized := toLowerCase (tierName t) in
      if bool_decide (normalized ∈ TIER_FILTERS) then Some normalized else None
  end.

Definition spinYearStage (s : ChipState) (row : VideoRecord) : bool :=
  match activeSpinYear s with
  | None => true
  | Some y => bool_decide (VideoRecord.year row = Some y)
  end.

Definition yearDigitStage (s : ChipState) (row : VideoRecord) : bool :=
  if (length (activeYearDigits s) =? 0)%nat then true
  else match VideoRecord.year row with
       | None => false
       | Some y => let digit := Z.abs y mod 10 in bool_decide (digit ∈ activeYearDigits s)
       end.

Definition retentionStage (s : ChipState) (row : VideoRecord) : bool :=
  match retentionFilter s with
  | None => true
  | Some g => bool_decide (VideoRecord.retentionGrade row = g)
  end.

Definition tierStage (s : ChipState) (row : VideoRecord) : bool :=
  if (length (activeTiers s) =? 0)%nat then true
  else match normalizeTierFilter (VideoRecord.tier row) with
       | None => false
       | Some tier => bool_decide (tier ∈ activeTiers s)
       end.

(** The five [filter] calls between the text stage and the recency stage. *)
Definition chipFiltered (s : ChipState) (rows : list VideoRecord) : list VideoRecord :=
  filter (fun row => tierStage s row)
    (filter (fun row => retentionStage s row)
       (filter (fun row => yearDigitStage s row)
          (filter (fun row => decadeStage (activeDecades s) row)
             (filter (fun row => spinYearStage s row) rows)))).

Definition onRandomizerSpinComplete (result : SpinResult) (s : ChipState) : ChipState :=
  {| activeSpinYear := spin_year result;
     activeDecades := [spin_decade result];
     activeYearDigits := [];
     activeTiers := [toLowerCase (tierName (spin_tier result))];
     retentionFilter := retentionFilter s;
     spinFallbackDecade := Some (FallbackPill (spin_decade result)) |}.

(** The candidates of the fallback effect. *)
Definition fallbackCandidates (s : ChipState) (decade : SpinFallback)
  (rows : list VideoRecord) : list VideoRecord :=
  match activeSpinYear s with
  | Some y => filter (fun row => VideoRecord.year row = Some y) rows
  | None =>
      match decade with
      | FallbackAll => rows
      | FallbackPill pill =>
          filter (fun row => matchesDecade (VideoRecord.year row) pill) rows
      end
  end.

End Chips.

Section Shuffle.
Context {A : Type}.

(** [randomIndex k i] is [Math.floor(Math.random() * (i + 1))] at the
    [k]-th call of [Math.random], whose results lie in [0, 1): one of the
    positions 0 to [i]. *)
Variable randomIndex : nat -> forall i : nat, fin (S i).

(** [[copy[i], copy[j]] = [copy[j], copy[i]]] on two positions of the
    array (in the loop [j <= i < copy.length], so both are). *)
Definition swap (copy : list A) (i j : nat) : list A :=
  match copy !! i, copy !! j with
  | Some x, Some y => <[j := x]> (<[i := y]> copy)
  | _, _ => copy
  end.

(** The [for] loop of [sampleRandom] from position [i] down to 1, [k]
    draws made so far. *)
Fixpoint shuffleLoop (i k : nat) (copy : list A) : list A :=
  match i with
  | O => copy
  | S i' => shuffleLoop i' (S k) (swap copy i (fin_to_nat (randomIndex k i)))
  end.

(** [a.slice(0, count)]. *)
Definition sliceFirst (a : list A) (count : Z) : list A :=
  if count <? 0 then take (Z.to_nat (Z.max (Z.of_nat (length a) + count) 0)) a
  else take (Z.to_nat count) a.

Definition sampleRandom (items : list A) (count : Z) : list A :=
  let copy := items in
  sliceFirst (shuffleLoop (length copy - 1) 0 copy) count.

End Shuffle.

(** The fallback rows the effect sets ([None] for [null]). *)
Definition fallbackRowsOf (randomIndex : nat -> forall i : nat, fin (S i)) (s : ChipState)
  (filteredVideos rows : list VideoRecord) : option (list VideoRecord) :=
  match spinFallbackDecade s with
  | None => None
  | Some decade =>
      if (0 <? length filteredVideos)%nat then None
      else Some (sampleRandom randomIndex (fallbackCandidates s decade rows) 5)
  end.

(** Draws that are all 0, to run the shuffle. *)
Definition zeroIndex (k i : nat) : fin (S i) := 0%fin.

(** ** SetBuilder.tsx: the filtered pool and the preview *)

(** [PLAY_TIERS.map((tier) => tier.id)]. *)
Definition PLAY_TIER_IDS : list jsstring :=
  [js "promo"; js "light"; js "medium"; js "heavy"; js "power"].

(** ['mixed'], or the id of a play tier. *)
Inductive TierSelection : Type := TierMixed | TierOnly (id : jsstring).

Definition tierSelectionToIds (selection : TierSelection) : list jsstring :=
  match selection with
  | TierMixed => PLAY_TIER_IDS
  | TierOnly id => [id]
  end.

Section SetBuilderPool.
Context {rt : JsRuntime} {fp : Float64}.

(** The recency block of the filter callback, which reads the clock and
    the time stamps of the row: false when the block returns false. *)
Variable recencyOk : VideoRecord -> bool.

(** The callback of [rows.filter] in the [filtered] memo. *)
Definition poolRow (effectiveRange : YearRange) (activeTierIds : list jsstring)
  (selectedGenre : jsstring) (row : VideoRecord) : bool :=
  let rowTier :=
    match VideoRecord.tier row with
    | Some t => toLowerCase (tierName t)
    | None => []
    end in
  if negb (bool_decide (rowTier ∈ activeTierIds)) then false
  else match VideoRecord.year row with
       | None => false
       | Some year =>
           if (year <? range_start effectiveRange) || (range_end effectiveRange <? year)
           then false
           else if negb (recencyOk row) then false
           else if negb (bool_decide (selectedGenre = js "all"))
                   && negb (bool_decide (VideoRecord.genre row = selectedGenre))
           then false
           else true
       end.

Definition filteredPool (effectiveRange : option YearRange) (activeTierIds : list jsstring)
  (selectedGenre : jsstring) (rows : list VideoRecord) : list VideoRecord :=
  match effectiveRange with
  | None => []
  | Some range => filter (fun row => poolRow range activeTierIds selectedGenre row) rows
  end.

(** The preview the effect sets: [weightedPick(filtered,
    clamp(rings.selectedCount, 1, 50), 5, historyWeights)]. *)
Definition previewOf (draws : nat -> number) (historyWeights : gmap jsstring number)
  (selectedYear : Z) (selectedSpan : SpanValue) (selectedEraId : EraId)
  (selectedTier : TierSelection) (selectedCount : Z) (selectedGenre : jsstring)
  (rows : list VideoRecord) : list VideoRecord :=
  let filtered :=
    filteredPool (effectiveRange selectedYear selectedSpan selectedEraId)
      (tierSelectionToIds selectedTier) selectedGenre rows in
  weightedPick draws (clampZ selectedCount 1 50) (ofZ 5) historyWeights filtered.

End SetBuilderPool.

(** ** videoIndex.ts: durations *)

(** [Math.floor] of a finite number. *)
Definition Math_floor (q : Q) : Z := Qnum q / Z.pos (Qden q).

(** [Math.round] of a finite number: the nearest integer, a half going up. *)
Definition Math_round (q : Q) : Z := Math_floor (q + (1 # 2)).

(** [s.padStart(2, '0')]. *)
Definition padStart2 (s : jsstring) : jsstring :=
  repeat 48%N (2 - length s) ++ s.

Section Duration.

(** [Math.floor(total / 60).toString()] for a [total] of 2^53 or more,
    where the quotient is the rounded one of the doubles.  Below 2^53 the
    rounded quotient has the integer part of the exact one, and prints in
    decimal. *)
Variable bigMinutes : Z -> jsstring.

Definition formatDuration (secs : option number) : jsstring :=
  match secs with
  | None | Some NaN => EM_DASH
  | Some PosInf => padStart2 "Infinity" ++ js ":" ++ padStart2 "NaN"
  | Some NegInf => padStart2 (js (pretty 0)) ++ js ":" ++ padStart2 (js (pretty 0))
  | Some (Fin q) =>
      let total := Z.max 0 (Math_round q) in
      let mm := total / 60 in
      let ss := total mod 60 in
      (if total <? 2 ^ 53 then padStart2 (js (pretty mm)) else padStart2 (bigMinutes total))
      ++ js ":" ++ padStart2 (js (pretty ss))
  end.

End Duration.

(** ** VideoLibrary.tsx: the persisted filter state *)

Inductive SortMode : Type := SortPlays | SortYear | SortTitle | SortArtist.
Inductive NewnessMode : Type := NewnessAll | Newness30d | Newness90d | Newness1y.

Definition SORT_CYCLE : list SortMode := [SortPlays; SortYear; SortTitle; SortArtist].
Definition NEWNESS_FILTERS : list NewnessMode :=
  [NewnessAll; Newness30d; Newness90d; Newness1y].
(** ['all'] is [None]. *)
Definition RETENTION_FILTERS : list (option RetentionGrade) :=
  [None; Some GradeS; Some GradeA; Some GradeB; Some GradeC].

Definition sortModeName (m : SortMode) : jsstring :=
  match m with
  | SortPlays => "plays" | SortYear => "year" | SortTitle => "title" | SortArtist => "artist"
  end.

Definition newnessModeName (m : NewnessMode) : jsstring :=
  match m with
  | NewnessAll => "all" | Newness30d => "30d" | Newness90d => "90d" | Newness1y => "1y"
  end.

Definition decadePillName (pill : DecadePill) : jsstring :=
  match pill with
  | P60s => "60s" | P70s => "70s" | P80s => "80s"
  | P90s => "90s" | P00s => "00s" | P10s => "10s"
  end.

Definition retentionFilterName (f : option RetentionGrade) : jsstring :=
  match f with
  | None => "all"
  | Some g => gradeName g
  end.

(** The eight states of the page that are written to local storage. *)
Record FilterState : Type := {
  f_search : jsstring;
  f_sortMode : SortMode;
  f_newnessMode : NewnessMode;
  f_activeDecades : list DecadePill;
  f_activeTiers : list jsstring;
  f_activeYearDigits : list Z;
  f_activeSpinYear : option Z;
  f_retentionFilter : option RetentionGrade;
}.

(** The states the page starts with. *)
Definition initialFilters : FilterState :=
  {| f_search := [];
     f_sortMode := SortPlays;
     f_newnessMode := NewnessAll;
     f_activeDecades := [];
     f_activeTiers := [];
     f_activeYearDigits := [];
     f_activeSpinYear := None;
     f_retentionFilter := None |}.

(** [list.includes(v)] for a list of constants that are strings: the
    constant whose name the value is. *)
Definition namedBy {A} (name : A -> jsstring) (constants : list A) (v : JsValue)
  : option A :=
  match v with
  | JStr s => List.find (fun c => bool_decide (name c = s)) constants
  | _ => None
  end.

(** [Number.isInteger(v)]: the integer, if the value is one. *)
Definition integerOf (v : JsValue) : option Z :=
  match v with
  | JNum (Fin q) => if Qeq_bool q (inject_Z (Math_trunc q)) then Some (Math_trunc q) else None
  | _ => None
  end.

(** The payload the page stores, as [JSON.parse] gives it back. *)
Definition filterPayload (s : FilterState) : JsValue :=
  JObj
    [ (js "search", JStr (f_search s));
      (js "sortMode", JStr (sortModeName (f_sortMode s)));
      (js "newnessMode", JStr (newnessModeName (f_newnessMode s)));
      (js "activeDecades", JArr (map (fun pill => JStr (decadePillName pill)) (f_activeDecades s)));
      (js "activeTiers", JArr (map JStr (f_activeTiers s)));
      (js "activeYearDigits", JArr (map (fun d => JNum (ofZ d)) (f_activeYearDigits s)));
      (js "activeSpinYear",
       match f_activeSpinYear s with Some y => JNum (ofZ y) | None => JNull end);
      (js "retentionFilter", JStr (retentionFilterName (f_retentionFilter s))) ].

(** The restoring effect on the parsed content [data] of the storage: each
    state is set only from a value that is valid for it.  Reading a
    property of [null] throws, and the effect ignores what is thrown. *)
Definition restoreFilters (data : JsValue) (s : FilterState) : FilterState :=
  match data with
  | JNull | JUndefined => s
  | _ =>
    let field k := match data with JObj o => getField o k | _ => JUndefined end in
    {| f_search :=
         match field (js "search") with JStr v => v | _ => f_search s end;
       f_sortMode :=
         default (f_sortMode s) (namedBy sortModeName SORT_CYCLE (field (js "sortMode")));
       f_newnessMode :=
         default (f_newnessMode s)
           (namedBy newnessModeName NEWNESS_FILTERS (field (js "newnessMode")));
       f_activeDecades :=
         match field (js "activeDecades") with
         | JArr l => omap (namedBy decadePillName DECADE_PILLS) l
         | _ => f_activeDecades s
         end;
       f_activeTiers :=
         match field (js "activeTiers") with
         | JArr l => omap (namedBy (fun tier : jsstring => tier) TIER_FILTERS) l
         | _ => f_activeTiers s
         end;
       f_activeYearDigits :=
         match field (js "activeYearDigits") with
         | JArr l =>
             omap (fun v => match integerOf v with
                            | Some d => if (0 <=? d) && (d <=? 9) then Some d else None
                            | None => None
                            end) l
         | _ => f_activeYearDigits s
         end;
       f_activeSpinYear :=
         match integerOf (field (js "activeSpinYear")) with
         | Some y => Some y
         | None => f_activeSpinYear s
         end;
       f_retentionFilter :=
         default (f_retentionFilter s)
           (namedBy retentionFilterName RETENTION_FILTERS (field (js "retentionFilter"))) |}
  end.

(** ** SetBuilder.tsx: the weights object and its prototype *)

(** The names a plain object inherits from [Object.prototype]. *)
Definition OBJECT_PROTOTYPE_NAMES : list jsstring :=
  [js "constructor"; js "hasOwnProperty"; js "isPrototypeOf";
   js "propertyIsEnumerable"; js "toLocaleString"; js "toString"; js "valueOf";
   js "__proto__"; js "__defineGetter__"; js "__defineSetter__";
   js "__lookupGetter__"; js "__lookupSetter__"].

Definition isInherited (k : jsstring) : bool :=
  bool_decide (k ∈ OBJECT_PROTOTYPE_NAMES).

(** [weights[k] ?? 0] as [Math.max] reads it, [weights] being the own
    properties of an object created by [{}]: an own property is its number;
    an inherited one is a function or an object, which is not nullish and
    which [Math.max] reads as NaN; any other name gives 0. *)
Definition readWeight (weights : gmap jsstring number) (k : jsstring) : number :=
  match weights !! k with
  | Some w => w
  | None => if isInherited k then NaN else ofZ 0
  end.

(** [weights[k] = w] for a number [w]: the inherited setter of [__proto__]
    ignores a number and creates no own property; every other name becomes
    or stays an own property. *)
Definition writeWeight (weights : gmap jsstring number) (k : jsstring) (w : number)
  : gmap jsstring number :=
  if bool_decide (k = js "__proto__") then weights else <[k := w]> weights.

Section WeightsObject.
Context {rt : JsRuntime}.

(** One iteration of the loop over [Object.entries(history.perSong)], on the
    own properties of [weights]. *)
Definition weightsStep (weights : gmap jsstring number) (entry : jsstring * JsValue)
  : gmap jsstring number :=
  let '(songKey, stats) := entry in
  let plays := totalPlaysOf stats in
  let weights1 :=
    match markerRelativeKey songKey with
    | Some rel => writeWeight weights rel (Math_max (readWeight weights rel) plays)
    | None => weights
    end in
  writeWeight weights1 songKey (Math_max (readWeight weights1 songKey) plays).

(** The own properties of the object the effect passes to
    [setHistoryWeights] (of the initial [{}] when the guard returns
    early). *)
Definition weightsObjectOf (history : JsValue) : gmap jsstring number :=
  match history with
  | JObj h =>
      match entriesOf (getField h "perSong") with
      | Some entries => fold_left weightsStep entries ∅
      | None => ∅
      end
  | _ => ∅
  end.

(** The play counts of the entries that write under [k]: those whose raw
    key or derived key is [k], in the order of the entries. *)
Definition playsUnder (entries : JsObject) (k : jsstring) : list number :=
  omap (fun entry : jsstring * JsValue =>
          if bool_decide (entry.1 = k)
             || bool_decide (markerRelativeKey entry.1 = Some k)
          then Some (totalPlaysOf entry.2) else None)
       entries.

End WeightsObject.

(** A history document with a raw key that names an inherited property, one
    that names the setter [__proto__], and two keys that derive the same
    marker-relative key. *)
Definition inheritedKeysHistory : JsValue :=
  JObj [ (js "perSong",
          JObj [ (js "constructor", JObj [ (js "totalPlays", JNum (ofZ 4)) ]);
                 (js "__proto__", JObj [ (js "totalPlays", JNum (ofZ 4)) ]);
                 (js "D:\Music/VIDEO/80s\clip.mp4",
                  JObj [ (js "totalPlays", JNum (ofZ 4)) ]);
                 (js "/VIDEO/80s/clip.mp4",
                  JObj [ (js "totalPlays", JNum (ofZ 7)) ]) ]) ].

(** ** videoIndex.ts: the exceptions of the normaliser *)





Section Exceptions.
Context {rt : JsRuntime} {fp : Float64}.

(** The longest string the engine builds; a longer one is a RangeError. *)
Variable maxStringLength : Z.

(** The base URL of config/media, and the percent-encoding of a string
    without a lone surrogate. *)
Variable MEDIA_BASE : jsstring.
Variable percentEncode : jsstring -> jsstring.










End Exceptions.



(** ** The vocabulary of the further properties *)

(** A string in which the characters of a class [inClass] only occur as
    single characters [r], never two in a row ([prev] tells whether the
    character before the string is of the class). *)
Fixpoint runsNormal (inClass : N -> bool) (r : N) (prev : bool) (s : jsstring) : bool :=
  match s with
  | [] => true
  | c :: s' =>
      if inClass c then (c =? r)%N && negb prev && runsNormal inClass r true s'
      else runsNormal inClass r false s'
  end.


(** A year lies in a range, bounds included. *)
Definition inRange (y : Z) (r : YearRange) : Prop := range_start r <= y <= range_end r.

(** A text in cleaned form that is not empty. *)
Definition cleanText (s : jsstring) : Prop := nonEmpty s = true /\ cleanMusicText s = s.


(* ================================================================== *)
(** * Properties *)

Lemma num_le_Fin (p q : Q) : num_le (Fin p) (Fin q) = true <-> (p <= q)%Q.
Proof. simpl. apply Qle_bool_iff. Qed.

Lemma num_le_Fin_false (p q : Q) : num_le (Fin p) (Fin q) = false <-> (q < p)%Q.
Proof.
  simpl. rewrite <- not_true_iff_false, Qle_bool_iff.
  split; [apply Qnot_le_lt | apply Qlt_not_le].
Qed.

Lemma tierFromPlaycount_Fin (q : Q) :
  tierFromPlaycount (Fin q) =
    Some (if Qle_bool q 1 then Promo
          else if Qle_bool q 7 then Light
          else if Qle_bool q 15 then Medium
          else if Qle_bool q 29 then Heavy
          else Power).
Proof.
  unfold tierFromPlaycount, ofZ, inject_Z; simpl.
  repeat (match goal with |- context [Qle_bool ?a ?b] => destruct (Qle_bool a b) end);
    reflexivity.
Qed.

(** C1.  [tierFromPlaycount] returns null exactly on the non-finite numbers;
    on a finite number it returns Promo up to 1, Light up to 7, Medium up to
    15, Heavy up to 29 and Power above; the eight boundary values 1, 2, 7, 8,
    15, 16, 29, 30 give Promo, Light, Light, Medium, Medium, Heavy, Heavy,
    Power; and the result depends on the numeric value of the input only
    (two calls on the same number agree). *)
Theorem tierFromPlaycount_bands :
  (forall n, isFinite n = false -> tierFromPlaycount n = None) /\
  (forall q : Q,
      ((q <= 1)%Q -> tierFromPlaycount (Fin q) = Some Promo) /\
      ((1 < q)%Q -> (q <= 7)%Q -> tierFromPlaycount (Fin q) = Some Light) /\
      ((7 < q)%Q -> (q <= 15)%Q -> tierFromPlaycount (Fin q) = Some Medium) /\
      ((15 < q)%Q -> (q <= 29)%Q -> tierFromPlaycount (Fin q) = Some Heavy) /\
      ((29 < q)%Q -> tierFromPlaycount (Fin q) = Some Power)) /\
  (tierFromPlaycount (ofZ 1) = Some Promo /\
   tierFromPlaycount (ofZ 2) = Some Light /\
   tierFromPlaycount (ofZ 7) = Some Light /\
   tierFromPlaycount (ofZ 8) = Some Medium /\
   tierFromPlaycount (ofZ 15) = Some Medium /\
   tierFromPlaycount (ofZ 16) = Some Heavy /\
   tierFromPlaycount (ofZ 29) = Some Heavy /\
   tierFromPlaycount (ofZ 30) = Some Power) /\
  (forall p q : Q, (p == q)%Q -> tierFromPlaycount (Fin p) = tierFromPlaycount (Fin q)) /\
  (forall m n : number, m = n -> tierFromPlaycount m = tierFromPlaycount n).
Proof.
  split; [| split; [| split; [| split]]].
  - intros [q| | |] H; simpl in H; try discriminate; reflexivity.
  - intros q. rewrite tierFromPlaycount_Fin.
    repeat split; intros;
      repeat (match goal with
              | |- context [Qle_bool ?a ?b] =>
                  let E := fresh "E" in
                  destruct (Qle_bool a b) eqn:E;
                  [apply Qle_bool_iff in E
                  | apply not_true_iff_false in E; rewrite Qle_bool_iff in E;
                    apply Qnot_le_lt in E]
              end);
      try reflexivity; exfalso;
      unfold Qlt, Qle in *; cbn [Qnum Qden] in *; lia.
  - repeat split; reflexivity.
  - intros p q Hpq. rewrite !tierFromPlaycount_Fin.
    assert (forall c, Qle_bool p c = Qle_bool q c) as E.
    { intros c. apply eq_true_iff_eq. rewrite !Qle_bool_iff, Hpq. reflexivity. }
    rewrite !E. reflexivity.
  - intros m n ->. reflexivity.
Qed.

(* ================================================================== *)
(** ** Strings: searching and trimming *)

Lemma startsWith_prefix (s p : jsstring) : startsWith s p = true <-> p `prefix_of` s.
Proof.
  revert s. induction p as [|a p IH]; intros s; simpl.
  - split; [intros _; apply prefix_nil | intros _; by destruct s].
  - destruct s as [|b s].
    + split; [discriminate | intros Hp; apply prefix_nil_inv in Hp; discriminate].
    + simpl. rewrite andb_true_iff, N.eqb_eq, IH. split.
      * intros [-> Hp]. by apply prefix_cons.
      * intros Hp. split; [by apply prefix_cons_inv_1 in Hp | by apply prefix_cons_inv_2 in Hp].
Qed.

Lemma startsWith_false (s p : jsstring) : startsWith s p = false <-> ~ p `prefix_of` s.
Proof. rewrite <- startsWith_prefix. by destruct (startsWith s p). Qed.

Lemma findSub_nil (needle : jsstring) :
  findSub needle [] = if startsWith [] needle then Some 0%nat else None.
Proof. reflexivity. Qed.

Lemma findSub_cons (needle : jsstring) (c : N) (hay : jsstring) :
  findSub needle (c :: hay) =
    if startsWith (c :: hay) needle then Some 0%nat else S <$> findSub needle hay.
Proof. reflexivity. Qed.

Lemma findSub_Some (needle hay : jsstring) (i : nat) :
  findSub needle hay = Some i -> needle `prefix_of` drop i hay.
Proof.
  revert i. induction hay as [|c hay IH]; intros i.
  - rewrite findSub_nil. destruct (startsWith [] needle) eqn:E; [|discriminate].
    intros [= <-]. by apply startsWith_prefix.
  - rewrite findSub_cons. destruct (startsWith (c :: hay) needle) eqn:E.
    + intros [= <-]. by apply startsWith_prefix.
    + destruct (findSub needle hay) as [j|] eqn:Ej; [|discriminate].
      intros [= <-]. simpl. by apply IH.
Qed.

Lemma findSub_occurs (needle hay : jsstring) (i : nat) :
  findSub needle hay = Some i -> occursIn needle hay.
Proof.
  intros [post Hpost]%findSub_Some. exists (take i hay), post.
  by rewrite <- Hpost, take_drop.
Qed.

Lemma findSub_None (needle hay : jsstring) :
  findSub needle hay = None <-> ~ occursIn needle hay.
Proof.
  split.
  - induction hay as [|c hay IH].
    + rewrite findSub_nil. destruct (startsWith [] needle) eqn:E; [discriminate|].
      intros _ (pre & post & Heq).
      symmetry in Heq. apply app_eq_nil in Heq as [-> Heq].
      apply app_eq_nil in Heq as [-> ->]. discriminate.
    + rewrite findSub_cons.
      destruct (startsWith (c :: hay) needle) eqn:E; [discriminate|].
      destruct (findSub needle hay) as [j|] eqn:Ej; [discriminate|].
      intros _ (pre & post & Heq).
      destruct pre as [|c' pre]; simpl in Heq.
      * apply startsWith_false in E. apply E. rewrite Heq. by exists post.
      * injection Heq as -> ->. apply IH; [done|]. by exists pre, post.
  - intros Hn. destruct (findSub needle hay) as [i|] eqn:E; [|done].
    exfalso. apply Hn. by eapply findSub_occurs.
Qed.

Lemma indexOf_absent (hay needle : jsstring) :
  indexOf hay needle = -1 <-> ~ occursIn needle hay.
Proof.
  unfold indexOf. rewrite <- findSub_None.
  destruct (findSub needle hay); split; try done; lia.
Qed.

Lemma indexOf_found (hay needle : jsstring) (i : Z) :
  indexOf hay needle = i -> i <> -1 ->
  0 <= i /\ needle `prefix_of` drop (Z.to_nat i) hay.
Proof.
  unfold indexOf. destruct (findSub needle hay) as [j|] eqn:E; [|lia].
  intros <- _. split; [lia|]. rewrite Nat2Z.id. by apply findSub_Some.
Qed.

Lemma occursIn_app (needle pre hay post : jsstring) :
  occursIn needle hay -> occursIn needle (pre ++ hay ++ post).
Proof.
  intros (a & b & ->). exists (pre ++ a), (b ++ post).
  by rewrite <- !app_assoc.
Qed.

Lemma trimStart_suffix (s : jsstring) : exists pre, s = pre ++ trimStart s.
Proof.
  induction s as [|c s [pre IH]]; simpl.
  - by exists [].
  - destruct (isWhiteSpace c).
    + exists (c :: pre). simpl. by f_equal.
    + by exists [].
Qed.

Lemma trimEnd_prefix (s : jsstring) : exists post, s = trimEnd s ++ post.
Proof.
  unfold trimEnd. destruct (trimStart_suffix (rev s)) as [pre Hpre].
  exists (rev pre). rewrite <- rev_app_distr, <- Hpre. by rewrite rev_involutive.
Qed.

Lemma trim_infix (s : jsstring) : exists pre post, s = pre ++ trim s ++ post.
Proof.
  unfold trim. destruct (trimStart_suffix s) as [pre Hpre].
  destruct (trimEnd_prefix (trimStart s)) as [post Hpost].
  exists pre, post. by rewrite <- Hpost.
Qed.

Lemma occursIn_trim (needle s : jsstring) :
  occursIn needle (trim s) -> occursIn needle s.
Proof.
  intros Hocc. destruct (trim_infix s) as (pre & post & Heq).
  rewrite Heq. by apply occursIn_app.
Qed.

(* ================================================================== *)
(** ** The path normaliser *)

Lemma replaceBackslashes_app (a b : jsstring) :
  replaceBackslashes (a ++ b) = replaceBackslashes a ++ replaceBackslashes b.
Proof. apply map_app. Qed.

Lemma replaceBackslashes_clean (s : jsstring) : chr_backslash ∉ replaceBackslashes s.
Proof.
  unfold replaceBackslashes. intros (c & Hc & _)%list_elem_of_fmap.
  destruct (c =? chr_backslash)%N eqn:E; [discriminate|].
  apply N.eqb_neq in E. congruence.
Qed.

Lemma normalizeVideoPath_absent (inputPath : jsstring) :
  ~ occursIn "/VIDEO/" inputPath ->
  normalizeVideoPath inputPath = {| relativePath := None; absolutePath := None |}.
Proof.
  intros Hno%indexOf_absent. unfold normalizeVideoPath.
  destruct (negb (nonEmpty inputPath)); [done|]. by rewrite Hno.
Qed.

Lemma normalizeVideoPath_found (inputPath : jsstring) :
  occursIn "/VIDEO/" inputPath ->
  exists i post,
    indexOf inputPath "/VIDEO/" = Z.of_nat i /\
    drop i inputPath = js "/VIDEO/" ++ post /\
    normalizeVideoPath inputPath =
      {| relativePath := Some (js "VIDEO/" ++ replaceBackslashes post);
         absolutePath :=
           Some (CANONICAL_VIDEO_ROOT ++ js "/" ++ replaceBackslashes post) |}.
Proof.
  intros Hocc.
  assert (Hidx : indexOf inputPath "/VIDEO/" <> -1) by (by rewrite indexOf_absent; tauto).
  destruct (indexOf_found _ _ _ eq_refl Hidx) as [Hpos [post Hpost]].
  exists (Z.to_nat (indexOf inputPath "/VIDEO/")), post.
  split; [lia|]. split; [done|].
  unfold normalizeVideoPath.
  assert (Hne : nonEmpty inputPath = true).
  { destruct inputPath; [|done]. destruct Hocc as (pre & post' & Heq). by destruct pre. }
  rewrite Hne. simpl negb. cbv iota.
  destruct (indexOf inputPath "/VIDEO/" =? -1) eqn:E; [lia|].
  unfold slice. destruct (indexOf inputPath "/VIDEO/" + 1 <? 0) eqn:E'; [lia|].
  replace (Z.to_nat (indexOf inputPath "/VIDEO/" + 1))
    with (Z.to_nat (indexOf inputPath "/VIDEO/") + 1)%nat by lia.
  rewrite <- drop_drop, Hpost. vm_compute. reflexivity.
Qed.

Lemma normalizeVideoPath_relative (inputPath rel : jsstring) :
  relativePath (normalizeVideoPath inputPath) = Some rel ->
  (js "VIDEO/" `prefix_of` rel) /\ (chr_backslash ∉ rel) /\ occursIn "/VIDEO/" inputPath.
Proof.
  intros Hrel.
  destruct (findSub "/VIDEO/" inputPath) as [i|] eqn:E.
  - pose proof (findSub_occurs _ _ _ E) as Hocc.
    destruct (normalizeVideoPath_found _ Hocc) as (j & post & _ & _ & Heq).
    assert (rel = js "VIDEO/" ++ replaceBackslashes post) as ->.
    { rewrite Heq in Hrel. cbn [relativePath] in Hrel. congruence. }
    split; [by eexists|]. split; [|done].
    apply not_elem_of_app. split; [compute_done | apply replaceBackslashes_clean].
  - apply findSub_None in E. rewrite (normalizeVideoPath_absent _ E) in Hrel. discriminate.
Qed.

(* ================================================================== *)
(** ** The record normaliser *)

Section NormalizerFacts.
Context {rt : JsRuntime}.

Lemma orElse_nonEmpty (a b : jsstring) : nonEmpty a = true -> orElse a b = a.
Proof. unfold orElse. by intros ->. Qed.

(** What a kept row was computed from. *)
Lemma parseRow_Some (ids : gmap jsstring nat) (idx : nat) (item : JsObject)
  (row : VideoRecord) (ids' : gmap jsstring nat) :
  parseRow ids idx item = (Some row, ids') ->
  let rawPath := asString (getField item "filePath" ?? getField item "filepath") in
  let idBase :=
    orElse (asString (getField item "videoId" ?? getField item "video_id"))
           (VideoRecord.filePath row) in
  let duplicate := default 0%nat (ids !! idBase) in
  relativePath (normalizeVideoPath rawPath) = Some (VideoRecord.filePath row) /\
  VideoRecord.id row =
    (if (duplicate =? 0)%nat then idBase else idBase ++ js "#" ++ natToString duplicate) /\
  ids' = <[idBase := (duplicate + 1)%nat]> ids /\
  VideoRecord.playcount row =
    default 0 (orNull (clampToInt (getField item "playcount"))
                 (orNull (clampToInt (getField item "playCount"))
                         (clampToInt (getField item "play_count")))) /\
  VideoRecord.tier row =
    orNull (tierFromPlaycount (ofZ (VideoRecord.playcount row)))
           (normalizeCanonicalTier (getField item "tier")) /\
  VideoRecord.retentionBreakdown row =
    toRetentionBreakdown (getField item "retentionBreakdown"
                          ?? getField item "retention_breakdown") /\
  idBase = default (VideoRecord.filePath row) (VideoRecord.videoId row).
Proof.
  unfold parseRow.
  destruct (negb (nonEmpty (asString _))); [discriminate|].
  destruct (relativePath _) as [rel|] eqn:Erel; [|discriminate].
  destruct (nonEmpty rel) eqn:Ene; simpl negb; cbv iota; [|discriminate].
  intros [= <- <-]. cbn [VideoRecord.filePath VideoRecord.id VideoRecord.playcount
                          VideoRecord.tier VideoRecord.retentionBreakdown
                          VideoRecord.videoId].
  rewrite (orElse_nonEmpty rel _ Ene). repeat (split; [done|]).
  unfold orElse. by destruct (nonEmpty (asString _)).
Qed.

(** A dropped item leaves the [ids] map as it was. *)
Lemma parseRow_None (ids : gmap jsstring nat) (idx : nat) (item : JsObject)
  (ids' : gmap jsstring nat) :
  parseRow ids idx item = (None, ids') -> ids' = ids.
Proof.
  unfold parseRow.
  destruct (negb (nonEmpty (asString _))); [congruence|].
  destruct (relativePath _) as [rel|]; [|congruence].
  destruct (negb (nonEmpty rel)); [congruence|discriminate].
Qed.

(** The position of an item in the batch is not read: the positional
    placeholder is behind a relative path that is never empty. *)
Lemma parseRow_idx (ids : gmap jsstring nat) (idx idx' : nat) (item : JsObject) :
  parseRow ids idx item = parseRow ids idx' item.
Proof.
  unfold parseRow.
  destruct (negb (nonEmpty (asString _))); [done|].
  destruct (relativePath _) as [rel|]; [|done].
  destruct (nonEmpty rel) eqn:Ene; simpl negb; cbv iota; [|done].
  by rewrite !(orElse_nonEmpty rel _ Ene).
Qed.

Lemma mapRows_elem (ids : gmap jsstring nat) (idx : nat) (items : list JsObject)
  (row : VideoRecord) :
  Some row ∈ mapRows ids idx items ->
  exists ids0 idx0 item ids1,
    item ∈ items /\ parseRow ids0 idx0 item = (Some row, ids1).
Proof.
  revert ids idx. induction items as [|item items IH]; intros ids idx; simpl.
  - intros Hin. by apply elem_of_nil in Hin.
  - destruct (parseRow ids idx item) as [r ids1] eqn:E.
    intros [Heq|Hin]%elem_of_cons.
    + subst r. exists ids, idx, item, ids1. split; [left|done].
    + destruct (IH _ _ Hin) as (ids0 & idx0 & item0 & ids2 & Hin0 & Hrow).
      exists ids0, idx0, item0, ids2. split; [by right|done].
Qed.

Lemma parseVideoIndexRows_elem (items : list JsObject) (row : VideoRecord) :
  row ∈ parseVideoIndexRows items ->
  exists ids0 idx0 item ids1,
    item ∈ items /\ parseRow ids0 idx0 item = (Some row, ids1).
Proof.
  unfold parseVideoIndexRows. intros (r & Hin & ->)%list_elem_of_omap.
  by eapply mapRows_elem.
Qed.

End NormalizerFacts.

(* ================================================================== *)
(** ** Tier of a record *)

Section TierFacts.
Context {rt : JsRuntime}.

Lemma toLowerCase_tierName (t : CanonicalTier) :
  toLowerCase (tierName t) =
    match t with
    | Promo => js "promo" | Light => js "light" | Medium => js "medium"
    | Heavy => js "heavy" | Power => js "power"
    end.
Proof. by destruct t. Qed.

Lemma normalizeCanonicalTier_Some (s : jsstring) (t : CanonicalTier) :
  normalizeCanonicalTier (JStr s) = Some t <->
  toLowerCase (trim s) = toLowerCase (tierName t).
Proof.
  rewrite toLowerCase_tierName. unfold normalizeCanonicalTier.
  generalize (toLowerCase (trim s)). intros n.
  repeat case_bool_decide; subst; split; intros Heq; try discriminate;
    try (by destruct t); try (injection Heq as <-; done).
  all: destruct t; first [done | discriminate | congruence].
Qed.

Lemma normalizeCanonicalTier_None (s : jsstring) :
  normalizeCanonicalTier (JStr s) = None <->
  forall t, toLowerCase (trim s) <> toLowerCase (tierName t).
Proof.
  split.
  - intros Hn t Ht%normalizeCanonicalTier_Some. congruence.
  - intros Hn. destruct (normalizeCanonicalTier (JStr s)) as [t|] eqn:E; [|done].
    apply normalizeCanonicalTier_Some in E. by destruct (Hn t).
Qed.

End TierFacts.

(** X1.  The playcount of a record is an integer, so its derived tier is
    never null: the upstream tier is never consulted. *)
Lemma record_tier_never_null {rt : JsRuntime} (items : list JsObject) (row : VideoRecord) :
  row ∈ parseVideoIndexRows items ->
  is_Some (VideoRecord.tier row) /\
  VideoRecord.tier row = tierFromPlaycount (ofZ (VideoRecord.playcount row)).
Proof.
  intros (ids0 & idx0 & item & ids1 & _ & Hp)%parseVideoIndexRows_elem.
  destruct (parseRow_Some _ _ _ _ _ Hp) as (_ & _ & _ & _ & Htier & _).
  rewrite Htier. unfold ofZ. rewrite tierFromPlaycount_Fin. by eauto.
Qed.

(** C2, as the spec states its last part: a tier string that is not one of
    the five canonical values up to case would normalise to null.  The
    string [" promo"] is none of the five up to case, whatever the runtime,
    and normalises to Promo: [normalizeCanonicalTier] trims first. *)
Lemma padded_tier_string_is_canonicalised :
  (forall (rt : JsRuntime) (t : CanonicalTier),
      toLowerCase (js " promo") <> toLowerCase (tierName t)) /\
  (forall rt : JsRuntime, normalizeCanonicalTier (JStr (js " promo")) = Some Promo).
Proof.
  split.
  - intros rt t. rewrite toLowerCase_tierName. by destruct t.
  - intros rt. reflexivity.
Qed.

(** C2 (amended).  The tier of a normalised record is the tier derived from
    its resolved playcount whenever that derivation is not null, and the
    canonicalised upstream tier only when it is null; a tier string
    canonicalises to a tier exactly when, once trimmed of surrounding
    whitespace and lower-cased, it is one of the five canonical names, and
    to null otherwise (never to a default tier); a value that is not a
    string canonicalises to null. *)
Theorem record_tier_prefers_playcount {rt : JsRuntime} :
  (forall (items : list JsObject) (row : VideoRecord),
      row ∈ parseVideoIndexRows items ->
      exists item, item ∈ items /\
        (forall t, tierFromPlaycount (ofZ (VideoRecord.playcount row)) = Some t ->
                   VideoRecord.tier row = Some t) /\
        (tierFromPlaycount (ofZ (VideoRecord.playcount row)) = None ->
         VideoRecord.tier row = normalizeCanonicalTier (getField item "tier"))) /\
  (forall (s : jsstring) (t : CanonicalTier),
      normalizeCanonicalTier (JStr s) = Some t <->
      toLowerCase (trim s) = toLowerCase (tierName t)) /\
  (forall s : jsstring,
      (forall t, toLowerCase (trim s) <> toLowerCase (tierName t)) ->
      normalizeCanonicalTier (JStr s) = None) /\
  (forall value : JsValue,
      (forall s, value <> JStr s) -> normalizeCanonicalTier value = None).
Proof.
  split; [|split; [|split]].
  - intros items row Hrow.
    destruct (parseVideoIndexRows_elem _ _ Hrow) as (ids0 & idx0 & item & ids1 & Hin & Hp).
    exists item. split; [done|].
    destruct (parseRow_Some _ _ _ _ _ Hp) as (_ & _ & _ & _ & Htier & _).
    rewrite Htier. split.
    + by intros t ->.
    + by intros ->.
  - apply normalizeCanonicalTier_Some.
  - intros s Hs. by apply normalizeCanonicalTier_None.
  - intros [] Hv; try done. by destruct (Hv s).
Qed.

(** The item [tierExampleItem] has playcount 9 and upstream tier "power":
    its record is Medium. *)
Lemma record_tier_prefers_playcount_witness :
  exists row,
    parseVideoIndexRows (rt := exampleRuntime) [tierExampleItem] = [row] /\
    VideoRecord.playcount row = 9 /\
    VideoRecord.tier row = Some Medium /\
    exists item, item ∈ [tierExampleItem] /\
      (forall t, tierFromPlaycount (ofZ (VideoRecord.playcount row)) = Some t ->
                 VideoRecord.tier row = Some t) /\
      (tierFromPlaycount (ofZ (VideoRecord.playcount row)) = None ->
       VideoRecord.tier row =
         normalizeCanonicalTier (rt := exampleRuntime) (getField item "tier")).
Proof.
  eexists. split; [vm_compute; reflexivity|].
  split; [reflexivity|]. split; [reflexivity|].
  apply (proj1 (@record_tier_prefers_playcount exampleRuntime) [tierExampleItem]).
  vm_compute. left.
Defined.

(* ================================================================== *)
(** ** The retention breakdown *)

Section BreakdownFacts.
Context {rt : JsRuntime}.






End BreakdownFacts.



(* ================================================================== *)
(** ** Items without the forward-slash marker *)

Section DroppedItems.
Context {rt : JsRuntime}.

Lemma mapRows_idx (ids : gmap jsstring nat) (idx idx' : nat) (items : list JsObject) :
  mapRows ids idx items = mapRows ids idx' items.
Proof.
  revert ids idx idx'. induction items as [|item items IH]; intros ids idx idx'; simpl.
  - done.
  - rewrite (parseRow_idx ids idx idx'). destruct (parseRow ids idx' item) as [r ids1].
    f_equal. apply IH.
Qed.

Lemma mapRows_app (ids : gmap jsstring nat) (idx : nat) (before : list JsObject) :
  exists ids', forall after,
    mapRows ids idx (before ++ after) = mapRows ids idx before ++ mapRows ids' idx after.
Proof.
  revert ids idx. induction before as [|item before IH]; intros ids idx.
  - by exists ids.
  - simpl. destruct (parseRow ids idx item) as [r ids1].
    destruct (IH ids1 (S idx)) as [ids' Hids']. exists ids'. intros after.
    rewrite Hids'. simpl. do 2 f_equal. apply mapRows_idx.
Qed.

Lemma parseRow_unresolvable (ids : gmap jsstring nat) (idx : nat) (item : JsObject)
  (inputPath : jsstring) :
  ~ occursIn "/VIDEO/" inputPath ->
  getField item "filePath" ?? getField item "filepath" = JStr inputPath ->
  parseRow ids idx item = (None, ids).
Proof.
  intros Hno Hpath. unfold parseRow. rewrite Hpath. simpl asString.
  destruct (negb (nonEmpty (trim inputPath))); [done|].
  rewrite normalizeVideoPath_absent; [done|].
  intros Hocc. by apply Hno, occursIn_trim.
Qed.

End DroppedItems.

Lemma occursIn_elem (needle hay : jsstring) (c : N) :
  c ∈ needle -> occursIn needle hay -> c ∈ hay.
Proof.
  intros Hc (pre & post & ->). apply elem_of_app. right. apply elem_of_app. by left.
Qed.

(** C10.  [normalizeVideoPath] looks for ["/VIDEO/"] in the path as it was
    given.  A path in which that forward-slash marker does not occur (so
    every path whose VIDEO segment is delimited by backslashes only, such as
    [C:\Media\VIDEO\clip.mp4], and every path without a forward slash) gets
    a null relative and a null absolute path, and the record normaliser
    drops the item: the batch normalises as it does without the item.  When
    the marker occurs, backslashes are replaced only in what follows its
    first occurrence. *)
Theorem backslash_marker_is_not_found {rt : JsRuntime} :
  (forall inputPath : jsstring,
      ~ occursIn "/VIDEO/" inputPath ->
      normalizeVideoPath inputPath = {| relativePath := None; absolutePath := None |}) /\
  (forall inputPath : jsstring, chr_slash ∉ inputPath -> ~ occursIn "/VIDEO/" inputPath) /\
  normalizeVideoPath "C:\Media\VIDEO\clip.mp4"
    = {| relativePath := None; absolutePath := None |} /\
  (forall (inputPath : jsstring) (item : JsObject) (ids : gmap jsstring nat) (idx : nat),
      ~ occursIn "/VIDEO/" inputPath ->
      getField item "filePath" ?? getField item "filepath" = JStr inputPath ->
      parseRow ids idx item = (None, ids)) /\
  (forall (inputPath : jsstring) (item : JsObject) (before after : list JsObject),
      ~ occursIn "/VIDEO/" inputPath ->
      getField item "filePath" ?? getField item "filepath" = JStr inputPath ->
      parseVideoIndexRows (before ++ item :: after) = parseVideoIndexRows (before ++ after)) /\
  (forall inputPath : jsstring,
      occursIn "/VIDEO/" inputPath ->
      exists (i : nat) (post : jsstring),
        indexOf inputPath "/VIDEO/" = Z.of_nat i /\
        inputPath = take i inputPath ++ js "/VIDEO/" ++ post /\
        relativePath (normalizeVideoPath inputPath)
          = Some (js "VIDEO/" ++ replaceBackslashes post)).
Proof.
  repeat apply conj.
  - apply normalizeVideoPath_absent.
  - intros inputPath Hno Hocc. apply Hno. eapply occursIn_elem; [|done]. compute_done.
  - reflexivity.
  - intros inputPath item ids idx Hno Hpath. by eapply parseRow_unresolvable.
  - intros inputPath item before after Hno Hpath. unfold parseVideoIndexRows.
    destruct (mapRows_app ∅ 0%nat before) as [ids' Happ].
    rewrite !Happ, !omap_app. f_equal. simpl.
    rewrite (parseRow_unresolvable _ _ _ _ Hno Hpath). simpl.
    f_equal. apply mapRows_idx.
  - intros inputPath Hocc.
    destruct (normalizeVideoPath_found _ Hocc) as (i & post & Hidx & Hdrop & Heq).
    exists i, post. split; [done|]. split.
    + by rewrite <- Hdrop, take_drop.
    + by rewrite Heq.
Qed.

(** The Windows path is dropped from a batch; the mixed path is kept and
    its backslash after the marker is converted. *)
Lemma backslash_marker_is_not_found_witness :
  parseRow (rt := exampleRuntime) ∅ 0 backslashItem = (None, ∅) /\
  parseVideoIndexRows (rt := exampleRuntime) ([slashItem] ++ backslashItem :: [slashItem])
    = parseVideoIndexRows (rt := exampleRuntime) ([slashItem] ++ [slashItem]) /\
  relativePath (normalizeVideoPath "D:\Media/VIDEO/80s\clip.mp4")
    = Some (js "VIDEO/80s/clip.mp4").
Proof.
  pose proof (@backslash_marker_is_not_found exampleRuntime)
    as (_ & Hslash & _ & Hrow & Hbatch & _).
  assert (Hno : ~ occursIn "/VIDEO/" (js "C:\Media\VIDEO\clip.mp4")).
  { apply Hslash. compute_done. }
  split; [|split].
  - by apply (Hrow (js "C:\Media\VIDEO\clip.mp4")).
  - by apply (Hbatch (js "C:\Media\VIDEO\clip.mp4")).
  - reflexivity.
Defined.

(* ================================================================== *)
(** ** History keys against record paths *)

Section HistoryFacts.
Context {rt : JsRuntime}.

Lemma markerRelativeKey_prefix (songKey rel : jsstring) :
  markerRelativeKey songKey = Some rel -> js "/VIDEO/" `prefix_of` rel.
Proof.
  unfold markerRelativeKey. case_match; [|discriminate].
  intros Heq. apply (inj Some) in Heq. subst rel.
  rewrite replaceBackslashes_app. by eexists.
Qed.

Lemma parseVideoIndexRows_filePath (items : list JsObject) (row : VideoRecord) :
  row ∈ parseVideoIndexRows items -> js "VIDEO/" `prefix_of` VideoRecord.filePath row.
Proof.
  intros (ids0 & idx0 & item & ids1 & _ & Hp)%parseVideoIndexRows_elem.
  destruct (parseRow_Some _ _ _ _ _ Hp) as (Hrel & _).
  by apply normalizeVideoPath_relative in Hrel as [Hpre _].
Qed.

Lemma marker_prefixes_disjoint (s : jsstring) :
  js "/VIDEO/" `prefix_of` s -> js "VIDEO/" `prefix_of` s -> False.
Proof. intros [k1 ->] [k2 Heq]. discriminate. Qed.

(** Where a key of the weights map comes from. *)
Lemma historyStep_lookup (weights : gmap jsstring number) (songKey : jsstring)
  (stats : JsValue) (k : jsstring) :
  is_Some (historyStep weights (songKey, stats) !! k) ->
  is_Some (weights !! k) \/ k = songKey \/ markerRelativeKey songKey = Some k.
Proof.
  unfold historyStep.
  destruct (decide (k = songKey)) as [->|Hne]; [auto|].
  rewrite lookup_insert_ne by done.
  destruct (markerRelativeKey songKey) as [rel|]; [|auto].
  destruct (decide (k = rel)) as [->|Hne']; [auto|].
  rewrite lookup_insert_ne by done. auto.
Qed.

Lemma historyFold_lookup (entries : JsObject) (weights : gmap jsstring number)
  (k : jsstring) :
  is_Some (fold_left historyStep entries weights !! k) ->
  is_Some (weights !! k)
  \/ (exists stats, (k, stats) ∈ entries)
  \/ (exists songKey stats, (songKey, stats) ∈ entries /\ markerRelativeKey songKey = Some k).
Proof.
  revert weights. induction entries as [|[songKey stats] entries IH]; intros weights; simpl.
  - auto.
  - intros [Hw|[(st & Hin)|(sk & st & Hin & Hk)]]%IH.
    + apply historyStep_lookup in Hw as [Hw|[->|Hk]]; [auto| |].
      * right. left. exists stats. left.
      * right. right. exists songKey, stats. split; [left|done].
    + right. left. exists st. by right.
    + right. right. exists sk, st. split; [by right|done].
Qed.

End HistoryFacts.

(** C9.  Every marker-relative key the history effect derives begins with
    ["/VIDEO/"], and the [filePath] of every normalised record begins with
    ["VIDEO/"]; so no derived key equals the [filePath] of a record, and a
    lookup of the history weights by a record's [filePath] finds an entry
    only when that [filePath] is itself, literally, one of the raw keys of
    the history document. *)
Theorem history_lookup_by_filePath {rt : JsRuntime} :
  (forall songKey rel : jsstring,
      markerRelativeKey songKey = Some rel -> js "/VIDEO/" `prefix_of` rel) /\
  (forall (items : list JsObject) (row : VideoRecord),
      row ∈ parseVideoIndexRows items ->
      js "VIDEO/" `prefix_of` VideoRecord.filePath row) /\
  (forall (items : list JsObject) (row : VideoRecord) (songKey rel : jsstring),
      row ∈ parseVideoIndexRows items ->
      markerRelativeKey songKey = Some rel ->
      rel <> VideoRecord.filePath row) /\
  (forall (history : JsValue) (items : list JsObject) (row : VideoRecord),
      row ∈ parseVideoIndexRows items ->
      is_Some (historyWeightsOf history !! VideoRecord.filePath row) ->
      exists h entries stats,
        history = JObj h /\
        entriesOf (getField h "perSong") = Some entries /\
        (VideoRecord.filePath row, stats) ∈ entries) /\
  (forall (h : JsObject) (entries : JsObject) (items : list JsObject) (row : VideoRecord),
      row ∈ parseVideoIndexRows items ->
      entriesOf (getField h "perSong") = Some entries ->
      (forall stats, (VideoRecord.filePath row, stats) ∉ entries) ->
      orNull (historyWeightsOf (JObj h) !! VideoRecord.filePath row)
             (historyWeightsOf (JObj h) !! VideoRecord.id row)
        = historyWeightsOf (JObj h) !! VideoRecord.id row).
Proof.
  assert (Hhit : forall (history : JsValue) (items : list JsObject) (row : VideoRecord),
      row ∈ parseVideoIndexRows items ->
      is_Some (historyWeightsOf history !! VideoRecord.filePath row) ->
      exists h entries stats,
        history = JObj h /\
        entriesOf (getField h "perSong") = Some entries /\
        (VideoRecord.filePath row, stats) ∈ entries); [|repeat apply conj].
  - intros history items row Hrow Hhit. unfold historyWeightsOf in Hhit.
    destruct history as [| | | | | |h];
      try (rewrite lookup_empty in Hhit; by destruct Hhit).
    destruct (entriesOf (getField h "perSong")) as [entries|] eqn:E;
      [|rewrite lookup_empty in Hhit; by destruct Hhit].
    apply historyFold_lookup in Hhit as [Hw|[(st & Hin)|(sk & st & Hin & Hk)]].
    + rewrite lookup_empty in Hw. by destruct Hw.
    + by exists h, entries, st.
    + exfalso. eapply marker_prefixes_disjoint.
      * by eapply markerRelativeKey_prefix.
      * by eapply parseVideoIndexRows_filePath.
  - apply markerRelativeKey_prefix.
  - apply parseVideoIndexRows_filePath.
  - intros items row songKey rel Hrow Hrel Heq. subst rel.
    eapply marker_prefixes_disjoint.
    + by eapply markerRelativeKey_prefix.
    + by eapply parseVideoIndexRows_filePath.
  - exact Hhit.
  - intros h entries items row Hrow Hent Hraw.
    destruct (historyWeightsOf (JObj h) !! VideoRecord.filePath row) as [w|] eqn:E; [|done].
    destruct (Hhit (JObj h) items row Hrow) as (h' & entries' & stats & [= <-] & He & Hin).
    { by rewrite E. }
    rewrite Hent in He. injection He as <-. by destruct (Hraw stats).
Qed.

(** The raw key of [historyExample] derives ["/VIDEO/80s/clip.mp4"], which
    the weights hold; the record's path ["VIDEO/80s/clip.mp4"] misses. *)
Lemma history_lookup_by_filePath_witness :
  exists row,
    parseVideoIndexRows (rt := exampleRuntime) [slashItem] = [row] /\
    VideoRecord.filePath row = js "VIDEO/80s/clip.mp4" /\
    markerRelativeKey (rt := exampleRuntime) "D:\Music/VIDEO/80s\clip.mp4"
      = Some (js "/VIDEO/80s/clip.mp4") /\
    js "/VIDEO/80s/clip.mp4" <> VideoRecord.filePath row /\
    historyWeightsOf (rt := exampleRuntime) historyExample !! js "/VIDEO/80s/clip.mp4"
      = Some (ofZ 4) /\
    historyWeightsOf (rt := exampleRuntime) historyExample !! VideoRecord.filePath row
      = None.
Proof.
  eexists. split; [vm_compute; reflexivity|].
  split; [reflexivity|]. split; [reflexivity|]. split; [|split].
  - apply (proj1 (proj2 (proj2 (@history_lookup_by_filePath exampleRuntime)))
             [slashItem] _ (js "D:\Music/VIDEO/80s\clip.mp4")).
    + vm_compute. left.
    + reflexivity.
  - vm_compute. reflexivity.
  - vm_compute. reflexivity.
Defined.

(* ================================================================== *)
(** ** Decade pills *)

(** C4, as the spec states it: a year outside the ten-year band of a pill
    would fail that pill.  The year 2020 lies outside 2010..2019 and passes
    the "10s" pill, alone and as the only active pill of the filter. *)
Lemma pill_10s_passes_2020 :
  matchesDecade (Some 2020) P10s = true /\
  ~ (spec_bandStart P10s <= 2020 <= spec_bandStart P10s + 9) /\
  (forall row : VideoRecord,
      VideoRecord.year row = Some 2020 -> decadeStage [P10s] row = true).
Proof.
  split; [reflexivity|]. split; [simpl; lia|].
  intros row Hy. unfold decadeStage. simpl. by rewrite Hy.
Qed.

(** C4 (amended).  The decade-pill predicate passes a record exactly when
    its year is a number that lies in the pill's ten-year band for the pills
    "60s" to "00s", and that is 2010 or later for the pill "10s"; a record
    with a null year fails every pill; and the decade stage of the library
    filter passes a record exactly when no pill is active or some active
    pill passes it. *)
Theorem matchesDecade_bands :
  (forall (year : option Z) (pill : DecadePill),
      matchesDecade year pill = true <->
      exists y, year = Some y /\
        spec_bandStart pill <= y /\ (pill <> P10s -> y <= spec_bandStart pill + 9)) /\
  (forall pill : DecadePill, matchesDecade None pill = false) /\
  (forall y : Z, matchesDecade (Some y) P80s = true <-> 1980 <= y <= 1989) /\
  (forall (activeDecades : list DecadePill) (row : VideoRecord),
      decadeStage activeDecades row = true <->
      activeDecades = [] \/
      exists pill, pill ∈ activeDecades /\ matchesDecade (VideoRecord.year row) pill = true).
Proof.
  repeat apply conj.
  - intros [y|] pill; simpl.
    + split.
      * intros Hm. exists y. split; [done|].
        destruct pill; simpl; try (apply andb_true_iff in Hm as [?%Z.leb_le ?%Z.leb_le]);
          try (apply Z.leb_le in Hm); split; try lia; done.
      * intros (y' & [= <-] & Hlo & Hhi).
        destruct pill; simpl in *;
          try (apply andb_true_iff; split; apply Z.leb_le; [lia | by apply Hhi]).
        by apply Z.leb_le.
    + split; [discriminate|]. by intros (y & ? & _).
  - done.
  - intros y. simpl. rewrite andb_true_iff, !Z.leb_le. done.
  - intros activeDecades row. unfold decadeStage.
    destruct activeDecades as [|pill pills]; simpl length; cbv iota beta.
    + split; [by left|done].
    + change (S (length pills) =? 0)%nat with false. cbv iota.
      rewrite existsb_exists. split.
      * intros (p & Hin & Hp). right. exists p. split; [by apply list_elem_of_In|done].
      * intros [?|(p & Hin & Hp)]; [done|]. exists p. split; [by apply list_elem_of_In|done].
Qed.

(* ================================================================== *)
(** ** The text and year stage of the library filter *)

Lemma forallb_elem {A} (P : A -> bool) (l : list A) :
  forallb P l = true <-> forall x, x ∈ l -> P x = true.
Proof.
  rewrite forallb_forall. split; intros Hall x Hin; apply Hall; by apply list_elem_of_In.
Qed.

Lemma existsb_elem {A} (P : A -> bool) (l : list A) :
  existsb P l = true <-> exists x, x ∈ l /\ P x = true.
Proof.
  rewrite existsb_exists. split; intros (x & Hin & Hx); exists x; split; try done;
    by apply list_elem_of_In.
Qed.

(** A guard [list.length > 0 && !list.every(P)] is off exactly when every
    element satisfies [P]. *)
Lemma every_guard {A} (P : A -> bool) (l : list A) :
  ((0 <? length l)%nat && negb (forallb P l)) = false <->
  forall x, x ∈ l -> P x = true.
Proof.
  rewrite <- forallb_elem. destruct l as [|a l]; [done|].
  change (0 <? length (a :: l))%nat with true.
  destruct (forallb P (a :: l)); simpl; split; congruence.
Qed.

(** The same guard when a null year fails before [every] is called. *)
Lemma year_guard {A} (P : Z -> A -> bool) (year : option Z) (l : list A) :
  ((0 <? length l)%nat
   && match year with None => true | Some y => negb (forallb (P y) l) end) = false <->
  forall x, x ∈ l -> exists y, year = Some y /\ P y x = true.
Proof.
  destruct l as [|a l].
  - split; [|done]. intros _ x Hin. by apply elem_of_nil in Hin.
  - change (0 <? length (a :: l))%nat with true. rewrite andb_true_l.
    destruct year as [y|].
    + rewrite negb_false_iff, forallb_elem. split.
      * intros Hall x Hin. exists y. auto.
      * intros Hall x Hin. destruct (Hall x Hin) as (y' & [= <-] & Hy). done.
    + split; [discriminate|]. intros Hall.
      destruct (Hall a) as (y & Hy & _); [left|discriminate].
Qed.

Lemma guard_chain (g1 g2 g3 : bool) :
  (if g1 then false else if g2 then false else if g3 then false else true) = true <->
  g1 = false /\ g2 = false /\ g3 = false.
Proof. destruct g1, g2, g3; simpl; split; (done || by intros (? & ? & ?)). Qed.

(** C6.  The text and year stage of the library filter passes a record
    exactly when every text token of the query is a prefix of some word of
    the record's searchable text, the record's year equals every exact year
    of the query, and the record's year lies, bounds included, in every
    year range of the query; so a record with a null year fails as soon as
    the query holds a year value or a year range. *)
Theorem textYearStage_passes_iff {rt : JsRuntime} :
  (forall (query : Query) (row : VideoRecord),
      textYearStage query row = true <->
      (forall token, token ∈ textTokens query ->
         exists word, word ∈ tokenize (rowSearchText row) /\ token `prefix_of` word) /\
      (forall year, year ∈ yearValues query -> VideoRecord.year row = Some year) /\
      (forall range, range ∈ yearRanges query ->
         exists y, VideoRecord.year row = Some y /\
                   range_start range <= y <= range_end range)) /\
  (forall (query : Query) (row : VideoRecord),
      VideoRecord.year row = None ->
      yearValues query <> [] \/ yearRanges query <> [] ->
      textYearStage query row = false).
Proof.
  assert (Hiff : forall (query : Query) (row : VideoRecord),
      textYearStage query row = true <->
      (forall token, token ∈ textTokens query ->
         exists word, word ∈ tokenize (rowSearchText row) /\ token `prefix_of` word) /\
      (forall year, year ∈ yearValues query -> VideoRecord.year row = Some year) /\
      (forall range, range ∈ yearRanges query ->
         exists y, VideoRecord.year row = Some y /\
                   range_start range <= y <= range_end range)).
  { intros query row. unfold textYearStage. cbv zeta.
    rewrite guard_chain.
    rewrite (every_guard
               (fun token => existsb (fun word => startsWith word token)
                                     (tokenize (rowSearchText row)))).
    rewrite (year_guard (fun y year => y =? year)).
    rewrite (year_guard
               (fun y range => (range_start range <=? y) && (y <=? range_end range))).
    split.
    - intros (Ht & Hy & Hr). split; [|split].
      + intros token Hin. apply Ht, existsb_elem in Hin as (word & Hw & Hpre).
        exists word. split; [done|]. by apply startsWith_prefix.
      + intros yv Hin. destruct (Hy yv Hin) as (y & Hy' & Heq).
        apply Z.eqb_eq in Heq. by subst.
      + intros range Hin. destruct (Hr range Hin) as (y & Hy' & Hb).
        apply andb_true_iff in Hb as [?%Z.leb_le ?%Z.leb_le]. by exists y.
    - intros (Ht & Hy & Hr). split; [|split].
      + intros token Hin. destruct (Ht token Hin) as (word & Hw & Hpre).
        apply existsb_elem. exists word. split; [done|]. by apply startsWith_prefix.
      + intros yv Hin. exists yv. split; [by apply Hy|]. apply Z.eqb_refl.
      + intros range Hin. destruct (Hr range Hin) as (y & Hy' & Hlo & Hhi).
        exists y. split; [done|]. apply andb_true_iff. split; by apply Z.leb_le. }
  split; [exact Hiff|].
  intros query row Hnull Hsome.
  apply not_true_iff_false. intros (_ & Hy & Hr)%Hiff.
  destruct Hsome as [Hne|Hne].
  - destruct (yearValues query) as [|yv ys]; [done|].
    specialize (Hy yv ltac:(left)). congruence.
  - destruct (yearRanges query) as [|r rs]; [done|].
    destruct (Hr r ltac:(left)) as (y & Hy' & _). congruence.
Qed.

(* ================================================================== *)
(** ** The query parser *)

Lemma isYearDigits_spec (s : jsstring) : isYearDigits s = true <-> YearDigits s.
Proof.
  unfold isYearDigits, YearDigits.
  rewrite !andb_true_iff, forallb_elem, !Nat.leb_le. tauto.
Qed.

Lemma parseYearToken_spec (value : jsstring) (y : Z) :
  parseYearToken value = Some y <-> YearDigits value /\ y = spec_year value.
Proof.
  unfold parseYearToken, spec_year. rewrite <- isYearDigits_spec.
  destruct (isYearDigits value); simpl.
  - destruct (length value =? 2)%nat; split.
    all: try (intros [= <-]; done); by intros [_ ->].
  - split; [discriminate|]. by intros [? _].
Qed.

Lemma cutAtHyphen_app (l r : jsstring) :
  chr_hyphen ∉ l -> cutAtHyphen (l ++ chr_hyphen :: r) = Some (l, r).
Proof.
  induction l as [|c l IH]; intros Hl; simpl.
  - done.
  - apply not_elem_of_cons in Hl as [Hc Hl].
    destruct (c =? chr_hyphen)%N eqn:E; [apply N.eqb_eq in E; congruence|].
    by rewrite (IH Hl).
Qed.

Lemma cutAtHyphen_Some (s l r : jsstring) :
  cutAtHyphen s = Some (l, r) -> s = l ++ chr_hyphen :: r.
Proof.
  revert l. induction s as [|c s IH]; intros l; simpl; [discriminate|].
  destruct (c =? chr_hyphen)%N eqn:E.
  - apply N.eqb_eq in E. intros [= <- <-]. by subst.
  - destruct (cutAtHyphen s) as [[l' r']|]; [|discriminate].
    intros [= <- <-]. simpl. f_equal. by apply IH.
Qed.

Lemma YearDigits_no_hyphen (s : jsstring) : YearDigits s -> chr_hyphen ∉ s.
Proof. intros [Hd _] Hin. by apply Hd in Hin. Qed.

Lemma matchYearRange_spec (value m1 m2 : jsstring) :
  matchYearRange value = Some (m1, m2) <->
  value = m1 ++ chr_hyphen :: m2 /\ YearDigits m1 /\ YearDigits m2.
Proof.
  unfold matchYearRange. split.
  - destruct (cutAtHyphen value) as [[l r]|] eqn:E; [|discriminate].
    destruct (isYearDigits l && isYearDigits r) eqn:Ed; [|discriminate].
    intros [= <- <-]. apply andb_true_iff in Ed as [?%isYearDigits_spec ?%isYearDigits_spec].
    split; [by apply cutAtHyphen_Some|done].
  - intros (-> & H1 & H2).
    rewrite cutAtHyphen_app by (by apply YearDigits_no_hyphen).
    apply isYearDigits_spec in H1, H2. by rewrite H1, H2.
Qed.

(** A token is read as a range exactly when it has the shape
    [\d{2,4}-\d{2,4}], and the range is then the ordered pair of the two
    years it spells. *)
Lemma parseYearRangeToken_spec (value : jsstring) (range : YearRange) :
  parseYearRangeToken value = Some range <->
  exists m1 m2,
    value = m1 ++ chr_hyphen :: m2 /\ YearDigits m1 /\ YearDigits m2 /\
    range = {| range_start := Z.min (spec_year m1) (spec_rangeEnd m1 m2);
               range_end := Z.max (spec_year m1) (spec_rangeEnd m1 m2) |}.
Proof.
  unfold parseYearRangeToken. split.
  - destruct (matchYearRange value) as [[m1 m2]|] eqn:E; [|discriminate].
    apply matchYearRange_spec in E as (-> & H1 & H2).
    rewrite (proj2 (parseYearToken_spec m1 _) (conj H1 eq_refl)).
    rewrite (proj2 (parseYearToken_spec m2 _) (conj H2 eq_refl)).
    intros [= <-]. exists m1, m2. done.
  - intros (m1 & m2 & Hv & H1 & H2 & ->).
    rewrite (proj2 (matchYearRange_spec value m1 m2)) by done.
    rewrite (proj2 (parseYearToken_spec m1 _) (conj H1 eq_refl)).
    rewrite (proj2 (parseYearToken_spec m2 _) (conj H2 eq_refl)).
    done.
Qed.

Lemma isFourDigits_parseYearToken (token : jsstring) :
  match parseYearToken token with
  | Some y => if (length token =? 4)%nat
              then isFourDigits token = true /\ y = decimalValue token
              else isFourDigits token = false
  | None => isFourDigits token = false
  end.
Proof.
  unfold parseYearToken, isYearDigits, isFourDigits.
  destruct (forallb isDigit token); simpl; [|done].
  destruct (length token) as [|[|[|[|[|n]]]]]; simpl; done.
Qed.

Lemma parseYearRangeToken_None (token : jsstring) :
  parseYearRangeToken token = None <-> ~ RangeShape token.
Proof.
  split.
  - intros Hn (m1 & m2 & Hv & H1 & H2).
    assert (is_Some (parseYearRangeToken token)) as [r Hr]; [|congruence].
    eexists. apply parseYearRangeToken_spec. by exists m1, m2.
  - intros Hn. destruct (parseYearRangeToken token) as [r|] eqn:E; [|done].
    apply parseYearRangeToken_spec in E as (m1 & m2 & Hv & H1 & H2 & _).
    exfalso. apply Hn. by exists m1, m2.
Qed.

Lemma isFourDigits_not_range (token : jsstring) :
  isFourDigits token = true -> parseYearRangeToken token = None.
Proof.
  intros [Hd _]%andb_true_iff. apply parseYearRangeToken_None.
  intros (m1 & m2 & -> & _). rewrite forallb_elem in Hd.
  assert (Hh : isDigit chr_hyphen = true); [|done].
  apply Hd, elem_of_app. right. left.
Qed.

Section ParserFacts.
Context {rt : JsRuntime}.

Lemma kindsOf_cons (token : jsstring) (rest : list jsstring) :
  kindsOf (token :: rest) =
    if nonEmpty (cleanToken token)
    then spec_classify (cleanToken token) :: kindsOf rest
    else kindsOf rest.
Proof.
  unfold kindsOf. cbn [map]. rewrite filter_cons.
  destruct (nonEmpty (cleanToken token)).
  - by rewrite decide_True.
  - by rewrite decide_False by (by intros ?).
Qed.

Lemma parseLoop_spec (rawTokens textParts : list jsstring) (yearValues : list Z)
  (yearRanges : list YearRange) :
  parseLoop rawTokens textParts yearValues yearRanges =
    (textParts ++ omap textOf (kindsOf rawTokens),
     yearValues ++ omap yearOf (kindsOf rawTokens),
     yearRanges ++ omap rangeOf (kindsOf rawTokens)).
Proof.
  revert textParts yearValues yearRanges.
  induction rawTokens as [|token rest IH]; intros textParts yearValues yearRanges.
  - simpl. by rewrite !app_nil_r.
  - cbn [parseLoop]. rewrite kindsOf_cons.
    destruct (nonEmpty (cleanToken token)) eqn:Ene; simpl negb; cbv iota; [|apply IH].
    unfold spec_classify.
    destruct (parseYearRangeToken (cleanToken token)) as [range|] eqn:Er.
    + rewrite IH. cbn [omap textOf yearOf rangeOf]. by rewrite <- app_assoc.
    + pose proof (isFourDigits_parseYearToken (cleanToken token)) as H4.
      destruct (parseYearToken (cleanToken token)) as [y|].
      * destruct (length (cleanToken token) =? 4)%nat.
        -- destruct H4 as [-> ->]. rewrite IH.
           cbn [omap textOf yearOf rangeOf]. by rewrite <- app_assoc.
        -- rewrite H4, IH. cbn [omap textOf yearOf rangeOf]. by rewrite <- app_assoc.
      * rewrite H4, IH. cbn [omap textOf yearOf rangeOf]. by rewrite <- app_assoc.
Qed.

End ParserFacts.

Lemma normalizeDashes_spec (query : jsstring) :
  normalizeDashes query = map spec_hyphenate query.
Proof.
  unfold normalizeDashes. apply map_ext. intros c. unfold spec_hyphenate.
  destruct (N.eqb_spec c 8211) as [->|H1]; [done|].
  destruct (N.eqb_spec c 8212) as [->|H2]; [done|].
  simpl. destruct c as [|p]; [done|].
  do 14 (destruct p as [p|p|]; try done).
Qed.

Lemma tokenChar_spec (c : N) :
  isDigit c || isLowerAZ c || (c =? chr_hyphen)%N = negb (spec_isPunctuation c).
Proof.
  destruct (N.ltb_spec c 123) as [Hlt|Hge].
  - assert (Hall : forallb (fun n => let c := N.of_nat n in
               Bool.eqb (isDigit c || isLowerAZ c || (c =? chr_hyphen)%N)
                        (negb (spec_isPunctuation c))) (seq 0 123) = true)
      by (vm_compute; reflexivity).
    rewrite forallb_forall in Hall.
    specialize (Hall (N.to_nat c)). rewrite N2Nat.id in Hall.
    apply Bool.eqb_prop, Hall, in_seq. lia.
  - unfold isDigit, isLowerAZ, chr_hyphen, spec_isPunctuation.
    rewrite negb_involutive.
    replace (c <=? 57)%N with false by (symmetry; apply N.leb_gt; lia).
    replace (c <=? 122)%N with false by (symmetry; apply N.leb_gt; lia).
    replace (c =? 45)%N with false by (symmetry; apply N.eqb_neq; lia).
    rewrite !andb_false_r. cbn [orb]. symmetry.
    apply not_true_is_false. intros (x & Hx & Heq%N.eqb_eq)%existsb_exists. subst x.
    assert (Hb : forallb (fun x => x <? 123)%N spec_tokenAlphabet = true)
      by (vm_compute; reflexivity).
    rewrite forallb_forall in Hb. apply Hb, N.ltb_lt in Hx. lia.
Qed.

Lemma cleanToken_spec (token : jsstring) :
  cleanToken token = spec_stripPunctuation token.
Proof.
  unfold cleanToken, spec_stripPunctuation.
  induction token as [|c token IH]; [done|].
  rewrite !filter_cons, IH, tokenChar_spec.
  by destruct (negb (spec_isPunctuation c)).
Qed.

Lemma trim_word (word : jsstring) :
  forallb (fun c => negb (isWhiteSpace c)) word = true -> trim word = word.
Proof.
  intros Hw.
  assert (Hs : forall s, forallb (fun c => negb (isWhiteSpace c)) s = true -> trimStart s = s).
  { intros [|c s]; simpl; [done|]. intros [Hc _]%andb_true_iff.
    by destruct (isWhiteSpace c). }
  unfold trim, trimEnd. rewrite (Hs word Hw), Hs, rev_involutive; [done|].
  rewrite forallb_forall in *. intros c Hc. apply Hw. by apply in_rev.
Qed.

Lemma rawWords_spec (word s : jsstring) (inRun : bool) :
  forallb (fun c => negb (isWhiteSpace c)) word = true ->
  (inRun = true -> word = []) ->
  filter (fun token => nonEmpty token) (map trim (splitAtRuns isWhiteSpace word inRun s))
  = spec_wordsFrom word s.
Proof.
  revert word inRun. induction s as [|c s IH]; intros word inRun Hw Hrun.
  - cbn [splitAtRuns map spec_wordsFrom]. rewrite (trim_word _ Hw).
    rewrite filter_cons, filter_nil. by destruct (nonEmpty word).
  - cbn [splitAtRuns spec_wordsFrom]. destruct (isWhiteSpace c) eqn:Ec.
    + destruct inRun.
      * rewrite (Hrun eq_refl). rewrite IH by done. done.
      * cbn [map]. rewrite filter_cons, (trim_word _ Hw), IH by done.
        by destruct (nonEmpty word).
    + apply IH.
      * rewrite forallb_app, Hw. simpl. by rewrite Ec.
      * discriminate.
Qed.

Section SpecTokenFacts.
Context {rt : JsRuntime}.

Lemma cleanedTokens_spec (query : jsstring) : cleanedTokens query = spec_tokens query.
Proof.
  unfold cleanedTokens, spec_tokens, rawTokensOf.
  rewrite rawWords_spec, normalizeDashes_spec by done.
  f_equal. apply map_ext, cleanToken_spec.
Qed.

End SpecTokenFacts.

(** C5.  [parseSearch] classifies, in order, the tokens of the search
    string: its whitespace-separated words, case-folded and with dashes read
    as hyphens, each stripped of the characters outside [0-9a-z-].  The year
    ranges of the query are the tokens of shape [\d{2,4}-\d{2,4}], each read
    as the ordered pair (start <= end) of the years it spells, a two-digit
    second part after a four-digit first part being read in the first part's
    century; the year values are the bare four-digit tokens; every other
    token is free text, which is then tokenised.  The three examples of the
    spec evaluate as it says, and punctuation around a year or a range does
    not change how it is read. *)
Theorem parseSearch_classifies_tokens {rt : JsRuntime} :
  (forall query : jsstring,
      let kinds := map spec_classify (spec_tokens query) in
      yearRanges (parseSearch query) = omap rangeOf kinds /\
      yearValues (parseSearch query) = omap yearOf kinds /\
      textTokens (parseSearch query) = tokenize (join " " (omap textOf kinds))) /\
  (forall (token : jsstring) (range : YearRange),
      spec_classify token = KRange range <->
      exists m1 m2,
        token = m1 ++ chr_hyphen :: m2 /\ YearDigits m1 /\ YearDigits m2 /\
        range = {| range_start := Z.min (spec_year m1) (spec_rangeEnd m1 m2);
                   range_end := Z.max (spec_year m1) (spec_rangeEnd m1 m2) |}) /\
  (forall (token : jsstring) (range : YearRange),
      spec_classify token = KRange range -> range_start range <= range_end range) /\
  (forall (token : jsstring) (year : Z),
      spec_classify token = KYear year <->
      isFourDigits token = true /\ year = decimalValue token) /\
  (forall token text : jsstring,
      spec_classify token = KText text <->
      text = token /\ ~ RangeShape token /\ isFourDigits token = false) /\
  parseSearch "queen 1980"
    = {| textTokens := [js "queen"]; yearValues := [1980]; yearRanges := [] |} /\
  parseSearch "75-83"
    = {| textTokens := []; yearValues := [];
         yearRanges := [ {| range_start := 1975; range_end := 1983 |} ] |} /\
  parseSearch "bohemian rhapsody"
    = {| textTokens := [js "bohemian"; js "rhapsody"]; yearValues := [];
         yearRanges := [] |} /\
  parseYearRangeToken "1975-83" = Some {| range_start := 1975; range_end := 1983 |} /\
  parseSearch "Queen, (1980)!"
    = {| textTokens := [js "queen"]; yearValues := [1980]; yearRanges := [] |} /\
  parseSearch [91; 55; 53; 8211; 56; 51; 93]%N
    = {| textTokens := []; yearValues := [];
         yearRanges := [ {| range_start := 1975; range_end := 1983 |} ] |} /\
  spec_tokens "Queen, (1980)!" = [js "queen"; js "1980"].
Proof.
  repeat apply conj.
  - intros query. rewrite <- cleanedTokens_spec. unfold parseSearch, cleanedTokens.
    rewrite parseLoop_spec. done.
  - intros token range. unfold spec_classify.
    rewrite <- parseYearRangeToken_spec.
    destruct (parseYearRangeToken token) as [r|].
    + split; congruence.
    + destruct (isFourDigits token); split; discriminate.
  - intros token range. unfold spec_classify.
    destruct (parseYearRangeToken token) as [r|] eqn:E.
    + intros [= <-]. apply parseYearRangeToken_spec in E as (m1 & m2 & _ & _ & _ & ->).
      simpl. lia.
    + destruct (isFourDigits token); discriminate.
  - intros token year. unfold spec_classify. split.
    + destruct (parseYearRangeToken token); [discriminate|].
      destruct (isFourDigits token); [|discriminate]. by intros [= <-].
    + intros [H4 ->]. by rewrite (isFourDigits_not_range _ H4), H4.
  - intros token text. unfold spec_classify. rewrite <- parseYearRangeToken_None.
    destruct (parseYearRangeToken token) as [r|].
    + split; [discriminate|]. by intros (_ & ? & _).
    + destruct (isFourDigits token); split.
      all: try discriminate; try (by intros (_ & _ & ?)).
      * by intros [= <-].
      * by intros (-> & _).
  - vm_compute. reflexivity.
  - vm_compute. reflexivity.
  - vm_compute. reflexivity.
  - vm_compute. reflexivity.
  - vm_compute. reflexivity.
  - vm_compute. reflexivity.
  - vm_compute. reflexivity.
Qed.

(* ================================================================== *)
(** ** The weighted sampler *)

Section SamplerFacts.
Context {fp : Float64}.
Variable draws : nat -> number.
Variable count : Z.
Variable intensity : number.
Variable historyWeights : gmap jsstring number.

Let weights_of := weightsOf draws intensity historyWeights.
Let loop := pickLoop draws count intensity historyWeights.

Lemma weightsOf_length (available : list VideoRecord) (k : nat) :
  length (weights_of available k).1 = length available.
Proof.
  unfold weights_of.
  revert k. induction available as [|item rest IH]; intros k; simpl; [done|].
  specialize (IH (S k)).
  destruct (weightsOf draws intensity historyWeights rest (S k)) as [ws k'].
  simpl in *. by rewrite IH.
Qed.

(** The inner loop selects a position of the weights array. *)
Lemma selectLoop_bound (weights : list number) (index : nat) (cursor : number) :
  selectLoop weights index cursor = 0%nat \/
  (index <= selectLoop weights index cursor < index + length weights)%nat.
Proof.
  revert index cursor. induction weights as [|w rest IH]; intros index cursor; simpl.
  - by left.
  - destruct (num_le (fsub cursor w) (ofZ 0)).
    + right. lia.
    + destruct (IH (S index) (fsub cursor w)) as [->|?]; [by left|right; lia].
Qed.

Lemma selectLoop_lt (weights : list number) (cursor : number) :
  (0 < length weights)%nat -> (selectLoop weights 0 cursor < length weights)%nat.
Proof. intros Hpos. destruct (selectLoop_bound weights 0 cursor); lia. Qed.

(** One iteration of the [while] loop, when its guard holds: the element at
    a position of [available] moves to the end of [picks]. *)
Lemma pickLoop_step (available picks : list VideoRecord) (k : nat) :
  (0 < length available)%nat -> Z.of_nat (length picks) < count ->
  exists selected item k',
    available !! selected = Some item /\
    forall fuel,
      loop (S fuel) available picks k
        = loop fuel (delete selected available) (picks ++ [item]) k'.
Proof.
  intros Hav Hcount. unfold loop. cbn [pickLoop].
  replace (0 <? length available)%nat with true by (symmetry; by apply Nat.ltb_lt).
  replace (Z.of_nat (length picks) <? count) with true by (symmetry; by apply Z.ltb_lt).
  cbn [andb]. pose proof (weightsOf_length available k) as Hlen. unfold weights_of in Hlen.
  destruct (weightsOf draws intensity historyWeights available k) as [weights k1].
  cbn [fst] in Hlen.
  set (selected := selectLoop weights 0 _).
  assert (Hsel : (selected < length available)%nat).
  { rewrite <- Hlen. apply selectLoop_lt. lia. }
  apply lookup_lt_is_Some_2 in Hsel as [item Hitem].
  exists selected, item, (S k1). split; [done|]. intros fuel. by rewrite Hitem.
Qed.

Lemma pickLoop_stop (fuel : nat) (available picks : list VideoRecord) (k : nat) :
  available = [] \/ count <= Z.of_nat (length picks) ->
  loop fuel available picks k = picks.
Proof.
  intros Hstop. unfold loop. destruct fuel as [|fuel]; [done|]. cbn [pickLoop].
  destruct Hstop as [->|Hc]; [done|].
  replace (Z.of_nat (length picks) <? count) with false by (symmetry; by apply Z.ltb_ge).
  by rewrite andb_false_r.
Qed.

(** With fuel for every element of [available], the loop is the source's:
    the picks extend [picks] by elements taken out of [available], as many
    as the count still asks for and the pool still holds. *)
Lemma pickLoop_spec (fuel : nat) (available picks : list VideoRecord) (k : nat) :
  (length available <= fuel)%nat ->
  exists taken rest,
    loop fuel available picks k = picks ++ taken /\
    taken ++ rest ≡ₚ available /\
    Z.of_nat (length taken)
      = Z.max 0 (Z.min (count - Z.of_nat (length picks)) (Z.of_nat (length available))).
Proof.
  revert available picks k.
  induction fuel as [|fuel IH]; intros available picks k Hfuel.
  - destruct available; [|simpl in Hfuel; lia].
    exists [], []. simpl. split; [by rewrite app_nil_r|]. split; [done|lia].
  - destruct (decide (available = [] \/ count <= Z.of_nat (length picks))) as [Hstop|Hgo].
    + rewrite pickLoop_stop by done. exists [], available.
      split; [by rewrite app_nil_r|]. split; [done|].
      destruct Hstop as [->|?]; simpl; lia.
    + assert (Hav : (0 < length available)%nat).
      { destruct available; [tauto|simpl; lia]. }
      assert (Hc : Z.of_nat (length picks) < count) by lia.
      destruct (pickLoop_step available picks k Hav Hc)
        as (selected & item & k' & Hitem & ->).
      pose proof (length_delete available selected (ltac:(eauto))) as Hdel.
      destruct (IH (delete selected available) (picks ++ [item]) k' ltac:(lia))
        as (taken & rest & -> & Hperm & Hlen).
      exists (item :: taken), rest. split; [by rewrite <- app_assoc|]. split.
      * simpl. rewrite Hperm. symmetry. by apply delete_Permutation.
      * rewrite length_app in Hlen. simpl in *. lia.
Qed.

(** More fuel than the pool has elements changes nothing. *)
Lemma pickLoop_fuel (fuel : nat) (available picks : list VideoRecord) (k : nat) :
  (length available <= fuel)%nat ->
  loop fuel available picks k = loop (length available) available picks k.
Proof.
  revert available picks k.
  induction fuel as [|fuel IH]; intros available picks k Hfuel.
  - by destruct available; [|simpl in Hfuel; lia].
  - destruct (decide (available = [] \/ count <= Z.of_nat (length picks))) as [Hstop|Hgo].
    + by rewrite !pickLoop_stop.
    + assert (Hav : (0 < length available)%nat).
      { destruct available; [tauto|simpl; lia]. }
      assert (Hc : Z.of_nat (length picks) < count) by lia.
      destruct (pickLoop_step available picks k Hav Hc)
        as (selected & item & k' & Hitem & Hstep).
      pose proof (length_delete available selected (ltac:(eauto))) as Hdel.
      destruct (length available) as [|n] eqn:En; [lia|].
      rewrite !Hstep, IH by lia.
      rewrite Hdel. simpl. by rewrite Nat.sub_0_r.
Qed.

End SamplerFacts.

(** The elements of a list [taken] out of a list [l] sit at pairwise
    distinct positions of [l]. *)
Lemma taken_positions {A} (taken rest l : list A) :
  taken ++ rest ≡ₚ l ->
  exists positions : list nat,
    NoDup positions /\ Forall2 (fun i x => l !! i = Some x) positions taken.
Proof.
  intros (_ & f & Hinj & Hf)%Permutation_inj.
  exists (f <$> seq 0 (length taken)). split.
  - apply NoDup_fmap_2; [done|apply NoDup_seq].
  - apply Forall2_fmap_l, Forall2_same_length_lookup. split.
    + by rewrite length_seq.
    + intros i j x [-> Hi]%lookup_seq Hx. simpl.
      by rewrite <- Hf, lookup_app_l.
Qed.

(** C8.  Whatever the pool, the count, the intensity, the history weights,
    the arithmetic and the random draws, the weighted sampler returns
    [min(count, pool.length)] records (none when [count <= 0] or the pool is
    empty), taken from the pool without replacement: the picks sit at
    pairwise distinct positions of the pool, and have no duplicate id when
    the pool has none.  The loop ends within [pool.length] iterations: more
    fuel gives the same picks. *)
Theorem weightedPick_without_replacement {fp : Float64}
  (draws : nat -> number) (count : Z) (intensity : number)
  (historyWeights : gmap jsstring number) (items : list VideoRecord) :
  let picks := weightedPick draws count intensity historyWeights items in
  Z.of_nat (length picks) = Z.max 0 (Z.min count (Z.of_nat (length items))) /\
  (0 <= count -> Z.of_nat (length picks) = Z.min count (Z.of_nat (length items))) /\
  (count <= 0 \/ items = [] -> picks = []) /\
  (exists rest, picks ++ rest ≡ₚ items) /\
  (exists positions : list nat,
      NoDup positions /\ Forall2 (fun i x => items !! i = Some x) positions picks) /\
  (NoDup (VideoRecord.id <$> items) -> NoDup (VideoRecord.id <$> picks)) /\
  (forall fuel, (length items <= fuel)%nat ->
      pickLoop draws count intensity historyWeights fuel items [] 0 = picks).
Proof.
  intros picks. subst picks. unfold weightedPick.
  destruct (pickLoop_spec draws count intensity historyWeights (length items) items [] 0)
    as (taken & rest & Heq & Hperm & Hlen); [done|].
  rewrite Heq. simpl app. simpl length in Hlen. rewrite Z.sub_0_r in Hlen.
  split; [done|]. split; [lia|]. split; [|split; [|split; [|split]]].
  - intros Hempty. apply length_zero_iff_nil.
    destruct Hempty as [?| ->]; simpl in *; lia.
  - by exists rest.
  - by eapply taken_positions.
  - intros Hnd. rewrite <- Hperm, fmap_app in Hnd. by apply NoDup_app in Hnd as [? _].
  - intros fuel Hfuel. rewrite pickLoop_fuel by done. by rewrite Heq.
Qed.

(* ================================================================== *)
(** ** Identifiers within a batch *)

Lemma N_of_ascii_inj (a b : ascii) : N_of_ascii a = N_of_ascii b -> a = b.
Proof.
  intros Heq. by rewrite <- (ascii_N_embedding a), <- (ascii_N_embedding b), Heq.
Qed.

Lemma js_inj (s1 s2 : string) : js s1 = js s2 -> s1 = s2.
Proof.
  unfold js. intros Heq.
  rewrite <- (String.string_of_list_ascii_of_string s1),
          <- (String.string_of_list_ascii_of_string s2).
  f_equal. revert Heq.
  generalize (String.list_ascii_of_string s1) (String.list_ascii_of_string s2).
  induction l as [|a l IH]; intros [|b k] Heq; try discriminate; [done|].
  injection Heq as Hab Hlk. f_equal; [by apply N_of_ascii_inj|by apply IH].
Qed.

Lemma natToString_inj (m n : nat) : natToString m = natToString n -> m = n.
Proof. intros Heq%js_inj. by apply (inj pretty). Qed.

(** Without a ['#'] in the id bases, an id tells its base and its rank. *)
Lemma mkId_inj (b1 b2 : jsstring) (d1 d2 : nat) :
  chr_hash ∉ b1 -> chr_hash ∉ b2 -> mkId b1 d1 = mkId b2 d2 -> b1 = b2 /\ d1 = d2.
Proof.
  intros H1 H2. unfold mkId.
  destruct (d1 =? 0)%nat eqn:E1, (d2 =? 0)%nat eqn:E2;
    try apply Nat.eqb_eq in E1; try apply Nat.eqb_eq in E2; subst.
  - by intros ->.
  - intros ->. exfalso. apply H1, elem_of_app. right. left.
  - intros <-. exfalso. apply H2, elem_of_app. right. left.
  - intros Heq.
    destruct (not_elem_of_app_cons_inv_l chr_hash chr_hash b1 (natToString d1)
                b2 (natToString d2)) as (-> & _ & Hd); [done..|].
    split; [done|]. by apply natToString_inj.
Qed.

Section IdFacts.
Context {rt : JsRuntime}.

Lemma parseRow_id (ids : gmap jsstring nat) (idx : nat) (item : JsObject)
  (row : VideoRecord) (ids' : gmap jsstring nat) :
  parseRow ids idx item = (Some row, ids') ->
  VideoRecord.id row = mkId (rowIdBase row) (default 0%nat (ids !! rowIdBase row)) /\
  ids' = <[rowIdBase row := (default 0%nat (ids !! rowIdBase row) + 1)%nat]> ids.
Proof.
  intros (_ & Hid & Hids & _ & _ & _ & Hbase)%parseRow_Some.
  unfold rowIdBase. rewrite <- Hbase. done.
Qed.

(** The ids given from a state [ids] of the map on: pairwise distinct, and
    each of a rank its base had not reached. *)
Lemma mapRows_ids (ids : gmap jsstring nat) (idx : nat) (items : list JsObject) :
  (forall row, Some row ∈ mapRows ids idx items -> chr_hash ∉ rowIdBase row) ->
  NoDup (VideoRecord.id <$> omap (fun row => row) (mapRows ids idx items)) /\
  (forall row, Some row ∈ mapRows ids idx items ->
     exists d, VideoRecord.id row = mkId (rowIdBase row) d /\
               (default 0 (ids !! rowIdBase row) <= d)%nat).
Proof.
  revert ids idx. induction items as [|item items IH]; intros ids idx Hhash.
  - simpl. split; [constructor|]. intros row Hin. by apply elem_of_nil in Hin.
  - simpl in *. destruct (parseRow ids idx item) as [[row|] ids1] eqn:Ep.
    + apply parseRow_id in Ep as [Hid Hids].
      destruct (IH ids1 (S idx)) as [Hnd Hrank].
      { intros r Hr. apply Hhash. by right. }
      simpl. split.
      * apply NoDup_cons. split; [|done].
        intros (r & Heq & Hr)%list_elem_of_fmap.
        apply list_elem_of_omap in Hr as (o & Ho & ->).
        destruct (Hrank r Ho) as (d & Hd & Hle).
        rewrite Hid, Hd in Heq.
        apply mkId_inj in Heq as [Hb Hdd];
          [|apply Hhash; by left|apply Hhash; by right].
        rewrite Hids, <- Hb, lookup_insert_eq in Hle. simpl in Hle. lia.
      * intros r [[= <-]|Hr]%elem_of_cons.
        -- eexists. split; [exact Hid|done].
        -- destruct (Hrank r Hr) as (d & Hd & Hle). exists d. split; [done|].
           rewrite Hids in Hle.
           destruct (decide (rowIdBase row = rowIdBase r)) as [Heq|Hne].
           ++ rewrite <- Heq, lookup_insert_eq in Hle. simpl in Hle. rewrite <- Heq. lia.
           ++ by rewrite lookup_insert_ne in Hle.
    + apply parseRow_None in Ep as ->.
      destruct (IH ids (S idx)) as [Hnd Hrank].
      { intros r Hr. apply Hhash. by right. }
      split; [done|]. intros r [[=]|Hr]%elem_of_cons. by apply Hrank.
Qed.

(** X2.  The ids of a pass are pairwise distinct when no id base of its
    records holds the character ['#']. *)
Lemma ids_distinct_without_hash (items : list JsObject) :
  (forall row, row ∈ parseVideoIndexRows items -> chr_hash ∉ rowIdBase row) ->
  NoDup (VideoRecord.id <$> parseVideoIndexRows items).
Proof.
  intros Hhash. apply (mapRows_ids ∅ 0%nat items).
  intros row Hrow. apply Hhash. unfold parseVideoIndexRows.
  apply list_elem_of_omap. by exists (Some row).
Qed.

End IdFacts.

(** C3.  The ids of one normalisation pass can collide.  In the batch
    [collidingBatch] the second item repeats the id base ["abc"] and gets
    the suffixed id ["abc#1"]; the third item has the id base ["abc#1"],
    which was never used as a base, and keeps it unsuffixed: two records of
    the pass carry the id ["abc#1"]. *)
Theorem suffixed_id_collides {rt : JsRuntime} :
  VideoRecord.id <$> parseVideoIndexRows collidingBatch
    = [js "abc"; js "abc#1"; js "abc#1"] /\
  ~ NoDup (VideoRecord.id <$> parseVideoIndexRows collidingBatch).
Proof.
  assert (Hids : VideoRecord.id <$> parseVideoIndexRows collidingBatch
                 = [js "abc"; js "abc#1"; js "abc#1"]).
  { vm_compute. reflexivity. }
  split; [done|]. rewrite Hids. intros Hnd.
  apply NoDup_cons in Hnd as [_ Hnd]. apply NoDup_cons in Hnd as [Hnin _].
  apply Hnin. left.
Qed.

(* ================================================================== *)
(** ** Runs on concrete inputs *)

(** A prefix of a word passes, a substring that is no prefix does not, and
    a range that holds the year passes. *)
Lemma textYearStage_passes_iff_witness :
  textYearStage (rt := exampleRuntime)
    (parseSearch (rt := exampleRuntime) "rhap que 1975 70-79") asciiRow = true /\
  textYearStage (rt := exampleRuntime)
    (parseSearch (rt := exampleRuntime) "hemian") asciiRow = false /\
  textYearStage (rt := exampleRuntime)
    (parseSearch (rt := exampleRuntime) "queen 1976") asciiRow = false /\
  (forall token,
      token ∈ textTokens (parseSearch (rt := exampleRuntime) "rhap que 1975 70-79") ->
      exists word,
        word ∈ tokenize (rt := exampleRuntime) (rowSearchText (rt := exampleRuntime) asciiRow)
        /\ token `prefix_of` word).
Proof.
  split; [vm_compute; reflexivity|]. split; [vm_compute; reflexivity|].
  split; [vm_compute; reflexivity|].
  apply (proj1 (proj1 (@textYearStage_passes_iff exampleRuntime) _ asciiRow)).
  vm_compute. reflexivity.
Defined.

(** Two picks out of three with exact arithmetic; none for a count of 0;
    the whole pool for a count of 7. *)
Lemma weightedPick_without_replacement_witness :
  VideoRecord.id <$>
    weightedPick (fp := exactArithmetic) exampleDraws 2 (ofZ 5) ∅ examplePool
    = [js "c"; js "a"] /\
  weightedPick (fp := exactArithmetic) exampleDraws 0 (ofZ 5) ∅ examplePool = [] /\
  Z.of_nat (length (weightedPick (fp := exactArithmetic) exampleDraws 7 (ofZ 5) ∅ examplePool))
    = Z.min 7 3.
Proof.
  split; [vm_compute; reflexivity|]. split; [vm_compute; reflexivity|].
  apply (proj1 (proj2 (@weightedPick_without_replacement exactArithmetic
                         exampleDraws 7 (ofZ 5) ∅ examplePool))).
  lia.
Defined.

(* ================================================================== *)
(** * Further properties *)

(* ================================================================== *)
(** ** Extensions *)

Lemma lastIndexFrom_absent (c : N) (s : jsstring) (i : nat) (found : option nat) :
  c ∉ s -> lastIndexFrom c s i found = found.
Proof.
  revert i found. induction s as [|x s IH]; intros i found Hc; [done|].
  apply not_elem_of_cons in Hc as [Hx Hs]. simpl.
  destruct (x =? c)%N eqn:E; [apply N.eqb_eq in E; congruence|]. by apply IH.
Qed.

Lemma lastIndexFrom_last (c : N) (pre post : jsstring) (i : nat) (found : option nat) :
  c ∉ post -> lastIndexFrom c (pre ++ c :: post) i found = Some (i + length pre)%nat.
Proof.
  intros Hc. revert i found. induction pre as [|x pre IH]; intros i found; simpl.
  - rewrite N.eqb_refl, lastIndexFrom_absent by done. f_equal. lia.
  - rewrite IH. f_equal. lia.
Qed.

(** Every string is free of [c] or splits at its last [c]. *)
Lemma last_occurrence (c : N) (s : jsstring) :
  c ∉ s \/ exists pre post, s = pre ++ c :: post /\ c ∉ post.
Proof.
  induction s as [|x s [IH|(pre & post & -> & Hpost)]].
  - left. apply not_elem_of_nil.
  - destruct (decide (x = c)) as [->|Hne].
    + right. by exists [], s.
    + left. by apply not_elem_of_cons.
  - right. by exists (x :: pre), post.
Qed.

Lemma swapExtension_no_dot (filePath newExt : jsstring) :
  chr_dot ∉ filePath -> swapExtension filePath newExt = filePath ++ newExt.
Proof.
  intros Hc. unfold swapExtension, lastIndexOf. by rewrite lastIndexFrom_absent.
Qed.

Lemma swapExtension_last_dot (pre post newExt : jsstring) :
  chr_dot ∉ post -> swapExtension (pre ++ chr_dot :: post) newExt = pre ++ newExt.
Proof.
  intros Hc. unfold swapExtension, lastIndexOf, sliceTo.
  rewrite lastIndexFrom_last by done. simpl.
  destruct (Z.of_nat (length pre) =? -1) eqn:E; [apply Z.eqb_eq in E; lia|].
  rewrite Nat2Z.id. by rewrite take_app_length.
Qed.

Lemma forallb_no_dot (s : jsstring) :
  forallb (fun x => negb (x =? chr_dot)%N) s = true <-> chr_dot ∉ s.
Proof.
  induction s as [|x s IH]; simpl.
  - split; [intros _; apply not_elem_of_nil|done].
  - rewrite andb_true_iff, IH, not_elem_of_cons, negb_true_iff, N.eqb_neq.
    split; intros [H1 H2]; split; congruence.
Qed.

Lemma replaceExtension_no_dot (ext s : jsstring) :
  chr_dot ∉ s -> replaceExtension ext s = s.
Proof.
  induction s as [|x s IH]; [done|]. intros [Hx Hs]%not_elem_of_cons. simpl.
  destruct (x =? chr_dot)%N eqn:E; [apply N.eqb_eq in E; congruence|].
  simpl. by rewrite IH.
Qed.

Lemma replaceExtension_last_dot (ext pre post : jsstring) :
  chr_dot ∉ post ->
  replaceExtension ext (pre ++ chr_dot :: post)
  = if nonEmpty post then pre ++ ext else pre ++ [chr_dot].
Proof.
  intros Hc. induction pre as [|x pre IH].
  - simpl. rewrite (proj2 (forallb_no_dot post) Hc), andb_true_r.
    destruct post; simpl; done.
  - simpl. rewrite IH.
    assert (forallb (fun x => negb (x =? chr_dot)%N) (pre ++ chr_dot :: post) = false) as ->.
    { apply not_true_is_false. rewrite forallb_no_dot. intros Hn. apply Hn.
      apply elem_of_app. right. left. }
    rewrite andb_false_r. by destruct (nonEmpty post).
Qed.

(** X10.  Swapping to an extension without a further dot is idempotent, and
    the result ends with the extension. *)
Theorem swapExtension_idempotent (filePath ext : jsstring) :
  chr_dot ∉ ext ->
  swapExtension (swapExtension filePath (chr_dot :: ext)) (chr_dot :: ext)
  = swapExtension filePath (chr_dot :: ext) /\
  (chr_dot :: ext) `suffix_of` swapExtension filePath (chr_dot :: ext).
Proof.
  intros Hext.
  assert (exists pre, swapExtension filePath (chr_dot :: ext) = pre ++ chr_dot :: ext)
    as [pre ->].
  { destruct (last_occurrence chr_dot filePath) as [Hno|(pre & post & -> & Hpost)].
    - exists filePath. by apply swapExtension_no_dot.
    - exists pre. by apply swapExtension_last_dot. }
  split; [by apply swapExtension_last_dot | by exists pre].
Qed.

Lemma swapExtension_idempotent_witness :
  (chr_dot ∉ js "jpg") /\
  swapExtension (swapExtension "VIDEO/80s/a.b.mp4" (chr_dot :: js "jpg")) (chr_dot :: js "jpg")
  = swapExtension "VIDEO/80s/a.b.mp4" (chr_dot :: js "jpg") /\
  (chr_dot :: js "jpg") `suffix_of` swapExtension "VIDEO/80s/a.b.mp4" (chr_dot :: js "jpg").
Proof.
  assert (H : chr_dot ∉ js "jpg") by compute_done.
  split; [exact H|]. exact (swapExtension_idempotent "VIDEO/80s/a.b.mp4" "jpg" H).
Defined.

(** X11.  The two thumbnail derivations agree exactly on the paths whose last
    dot is followed by at least one character. *)
Theorem thumbnail_derivations_agree (p : jsstring) :
  toThumbnailPath (Some p) = Some (getThumbnailUrl p)
  <-> exists pre post, p = pre ++ chr_dot :: post /\ (chr_dot ∉ post) /\ post <> [].
Proof.
  unfold toThumbnailPath, getThumbnailUrl. split.
  - destruct (nonEmpty p) eqn:Ene; simpl; [|discriminate].
    intros [= Heq].
    destruct (last_occurrence chr_dot p) as [Hno|(pre & post & -> & Hpost)].
    + rewrite replaceExtension_no_dot, swapExtension_no_dot in Heq by done.
      apply (f_equal length) in Heq. rewrite length_app in Heq. simpl in Heq. lia.
    + exists pre, post. split; [done|]. split; [done|]. intros ->.
      rewrite replaceExtension_last_dot, swapExtension_last_dot in Heq by done.
      simpl in Heq. apply app_inv_head in Heq. discriminate.
  - intros (pre & post & -> & Hpost & Hne).
    assert (nonEmpty (pre ++ chr_dot :: post) = true) as -> by (by destruct pre).
    simpl. rewrite replaceExtension_last_dot, swapExtension_last_dot by done.
    destruct post; [done|]. done.
Qed.

(* ================================================================== *)
(** ** Paths *)

Lemma replaceBackslashes_idempotent (s : jsstring) :
  replaceBackslashes (replaceBackslashes s) = replaceBackslashes s.
Proof.
  unfold replaceBackslashes. rewrite map_map. apply map_ext. intros c.
  destruct (c =? chr_backslash)%N eqn:E; [done|]. by rewrite E.
Qed.

Lemma normalizeVideoPath_root (x : jsstring) :
  normalizeVideoPath (CANONICAL_VIDEO_ROOT ++ js "/" ++ x)
  = {| relativePath := Some (js "VIDEO/" ++ replaceBackslashes x);
       absolutePath := Some (CANONICAL_VIDEO_ROOT ++ js "/" ++ replaceBackslashes x) |}.
Proof. vm_compute. reflexivity. Qed.

Lemma getRelativeVideoPath_root (x : jsstring) :
  getRelativeVideoPath (CANONICAL_VIDEO_ROOT ++ js "/" ++ x) = js "/VIDEO/" ++ x.
Proof. vm_compute. reflexivity. Qed.

Lemma getRelativeVideoPath_marker (x : jsstring) :
  getRelativeVideoPath (js "/VIDEO/" ++ x) = js "/VIDEO/" ++ x.
Proof. vm_compute. reflexivity. Qed.

Lemma getRelativeVideoPath_found (filePath : jsstring) :
  occursIn "/VIDEO/" filePath ->
  exists post,
    getRelativeVideoPath filePath = js "/VIDEO/" ++ post /\
    relativePath (normalizeVideoPath filePath) = Some (js "VIDEO/" ++ replaceBackslashes post).
Proof.
  intros Hocc. destruct (normalizeVideoPath_found _ Hocc) as (i & post & Hi & Hdrop & Hn).
  exists post. split; [|by rewrite Hn].
  unfold getRelativeVideoPath. cbv zeta. rewrite Hi.
  destruct (Z.of_nat i =? -1) eqn:E; [apply Z.eqb_eq in E; lia|].
  f_equal. unfold slice.
  destruct (Z.of_nat i + Z.of_nat (length (js "/VIDEO/")) <? 0) eqn:E';
    [apply Z.ltb_lt in E'; lia|].
  rewrite Z2Nat.inj_add, !Nat2Z.id by lia.
  rewrite <- drop_drop, Hdrop. reflexivity.
Qed.

Lemma getRelativeVideoPath_absent (filePath : jsstring) :
  ~ occursIn "/VIDEO/" filePath -> getRelativeVideoPath filePath = filePath.
Proof.
  intros Hno%indexOf_absent. unfold getRelativeVideoPath. cbv zeta. by rewrite Hno.
Qed.

Lemma occursIn_dec (needle hay : jsstring) :
  occursIn needle hay \/ ~ occursIn needle hay.
Proof.
  destruct (findSub needle hay) as [i|] eqn:E.
  - left. by eapply findSub_occurs.
  - right. by apply findSub_None.
Qed.

(** X5.  The absolute path of a normalised path normalises to the same pair. *)
Theorem normalizeVideoPath_absolute_roundtrip (inputPath abs : jsstring) :
  absolutePath (normalizeVideoPath inputPath) = Some abs ->
  normalizeVideoPath abs = normalizeVideoPath inputPath.
Proof.
  intros Habs. destruct (occursIn_dec "/VIDEO/" inputPath) as [Hocc|Hno].
  - destruct (normalizeVideoPath_found _ Hocc) as (i & post & _ & _ & Hn).
    rewrite Hn in Habs |- *. cbn [absolutePath] in Habs.
    assert (abs = CANONICAL_VIDEO_ROOT ++ js "/" ++ replaceBackslashes post) as ->
      by congruence.
    by rewrite normalizeVideoPath_root, replaceBackslashes_idempotent.
  - rewrite (normalizeVideoPath_absent _ Hno) in Habs. discriminate.
Qed.

Lemma normalizeVideoPath_absolute_roundtrip_witness :
  absolutePath (normalizeVideoPath "D:/media/VIDEO/80s\a.mp4")
    = Some (js "/Users/bobhopp/Library/CloudStorage/Dropbox/VIDEO/80s/a.mp4") /\
  normalizeVideoPath "/Users/bobhopp/Library/CloudStorage/Dropbox/VIDEO/80s/a.mp4"
    = normalizeVideoPath "D:/media/VIDEO/80s\a.mp4".
Proof.
  assert (H : absolutePath (normalizeVideoPath "D:/media/VIDEO/80s\a.mp4")
              = Some (js "/Users/bobhopp/Library/CloudStorage/Dropbox/VIDEO/80s/a.mp4"))
    by (vm_compute; reflexivity).
  split; [exact H|]. exact (normalizeVideoPath_absolute_roundtrip _ _ H).
Defined.

Lemma occursIn_length (needle hay : jsstring) :
  occursIn needle hay -> (length needle <= length hay)%nat.
Proof. intros (pre & post & ->). rewrite !length_app. lia. Qed.

Lemma occursIn_cons (needle : jsstring) (c : N) (hay : jsstring) :
  occursIn needle (c :: hay) -> needle `prefix_of` c :: hay \/ occursIn needle hay.
Proof.
  intros ([|c' pre] & post & Heq); simpl in Heq.
  - left. rewrite Heq. by exists post.
  - right. injection Heq as _ ->. by exists pre, post.
Qed.

(** The position [findSub] returns is that of the first occurrence: the
    needle does not occur in what ends just before the last character of
    the occurrence found. *)
Lemma findSub_before (init : jsstring) (l : N) (hay : jsstring) (i : nat) :
  findSub (init ++ [l]) hay = Some i ->
  ~ occursIn (init ++ [l]) (take i hay ++ init).
Proof.
  revert i. induction hay as [|c hay IH]; intros i.
  - rewrite findSub_nil. destruct (startsWith [] (init ++ [l])) eqn:E; [|discriminate].
    apply startsWith_prefix, prefix_nil_inv in E. by destruct init.
  - rewrite findSub_cons. destruct (startsWith (c :: hay) (init ++ [l])) eqn:E.
    + intros [= <-]. intros Hocc%occursIn_length.
      rewrite take_0, app_nil_l, length_app in Hocc. simpl in Hocc. lia.
    + destruct (findSub (init ++ [l]) hay) as [j|] eqn:Ej; [|discriminate].
      intros [= <-]. cbn [take app]. intros [Hpre|Hocc]%occursIn_cons.
      * apply startsWith_false in E. apply E.
        destruct (findSub_Some _ _ _ Ej) as [post Hpost].
        destruct Hpre as [rest Hrest]. exists (rest ++ [l] ++ post).
        rewrite <- (take_drop j hay) at 1. rewrite Hpost.
        rewrite (app_assoc (init ++ [l])), <- Hrest.
        cbn [app]. by rewrite <- !app_assoc.
      * by apply (IH j).
Qed.

Lemma findSub_first (init : jsstring) (l : N) (pre post : jsstring) :
  ~ occursIn (init ++ [l]) (pre ++ init) ->
  findSub (init ++ [l]) (pre ++ (init ++ [l]) ++ post) = Some (length pre).
Proof.
  induction pre as [|c pre IH]; intros Hno.
  - cbn [app length]. destruct (init ++ [l] ++ post) eqn:Eh.
    + by destruct init.
    + rewrite <- app_assoc, Eh, findSub_cons.
      replace (startsWith (n :: l0) (init ++ [l])) with true; [done|].
      symmetry. apply startsWith_prefix. rewrite <- Eh. exists post.
      by rewrite <- app_assoc.
  - cbn [app length]. rewrite findSub_cons.
    destruct (startsWith (c :: pre ++ (init ++ [l]) ++ post) (init ++ [l])) eqn:E.
    + exfalso. apply Hno. apply startsWith_prefix in E.
      assert (Hp : ((c :: pre) ++ init) `prefix_of` c :: pre ++ (init ++ [l]) ++ post).
      { exists ([l] ++ post). cbn [app]. by rewrite <- !app_assoc. }
      destruct (prefix_weak_total _ _ _ E Hp) as [[rest Hrest]|Hq].
      * exists [], rest. exact Hrest.
      * assert (Heq : (c :: pre) ++ init = init ++ [l]).
        { apply prefix_length_eq; [done|]. rewrite !length_app. simpl. lia. }
        rewrite Heq. exists [], []. by rewrite app_nil_r.
    + rewrite IH; [done|]. intros (p & q & Hpq). apply Hno.
      exists (c :: p), q. cbn [app]. by rewrite Hpq.
Qed.

(** X6.  [getRelativeVideoPath] leaves a path without the marker [/VIDEO/]
    as it is; a path with the marker becomes the marker and what follows
    its first occurrence; and the function is idempotent. *)
Theorem getRelativeVideoPath_idempotent (filePath : jsstring) :
  getRelativeVideoPath (getRelativeVideoPath filePath) = getRelativeVideoPath filePath /\
  (~ occursIn "/VIDEO/" filePath -> getRelativeVideoPath filePath = filePath) /\
  (forall pre post : jsstring,
      filePath = pre ++ js "/VIDEO/" ++ post ->
      ~ occursIn "/VIDEO/" (pre ++ js "/VIDEO") ->
      getRelativeVideoPath filePath = js "/VIDEO/" ++ post) /\
  (occursIn "/VIDEO/" filePath ->
   exists pre post : jsstring,
     filePath = pre ++ js "/VIDEO/" ++ post /\
     ~ occursIn "/VIDEO/" (pre ++ js "/VIDEO")) /\
  getRelativeVideoPath "D:/a/VIDEO/b/VIDEO/c.mp4" = js "/VIDEO/b/VIDEO/c.mp4" /\
  getRelativeVideoPath "D:\a\VIDEO\b.mp4" = js "D:\a\VIDEO\b.mp4".
Proof.
  repeat apply conj.
  - destruct (occursIn_dec "/VIDEO/" filePath) as [Hocc|Hno].
    + destruct (getRelativeVideoPath_found _ Hocc) as (post & -> & _).
      apply getRelativeVideoPath_marker.
    + by rewrite !(getRelativeVideoPath_absent _ Hno).
  - apply getRelativeVideoPath_absent.
  - intros pre post -> Hfirst.
    assert (Hi : indexOf (pre ++ js "/VIDEO/" ++ post) "/VIDEO/" = Z.of_nat (length pre)).
    { pose proof (findSub_first "/VIDEO" chr_slash pre post Hfirst) as Hf.
      unfold indexOf.
      change (findSub "/VIDEO/" (pre ++ js "/VIDEO/" ++ post))
        with (findSub (js "/VIDEO" ++ [chr_slash])
                (pre ++ (js "/VIDEO" ++ [chr_slash]) ++ post)).
      by rewrite Hf. }
    unfold getRelativeVideoPath. cbv zeta. rewrite Hi.
    destruct (Z.of_nat (length pre) =? -1) eqn:E; [apply Z.eqb_eq in E; lia|].
    f_equal. unfold slice.
    destruct (Z.of_nat (length pre) + Z.of_nat (length (js "/VIDEO/")) <? 0) eqn:E';
      [apply Z.ltb_lt in E'; lia|].
    rewrite Z2Nat.inj_add, !Nat2Z.id by lia.
    rewrite <- drop_drop, drop_app_length.
    reflexivity.
  - intros Hocc. destruct (findSub "/VIDEO/" filePath) as [i|] eqn:Ei;
      [|by apply findSub_None in Ei].
    destruct (findSub_Some _ _ _ Ei) as [post Hpost].
    exists (take i filePath), post. split.
    + by rewrite <- Hpost, take_drop.
    + exact (findSub_before "/VIDEO" chr_slash filePath i Ei).
  - vm_compute. reflexivity.
  - vm_compute. reflexivity.
Qed.

(** X7.  On a path that normalises, the display path is the relative path
    behind a slash, up to the backslashes the normaliser replaces. *)
Theorem getRelativeVideoPath_normalized (filePath rel : jsstring) :
  relativePath (normalizeVideoPath filePath) = Some rel ->
  replaceBackslashes (getRelativeVideoPath filePath) = js "/" ++ rel.
Proof.
  intros Hrel. destruct (occursIn_dec "/VIDEO/" filePath) as [Hocc|Hno].
  - destruct (getRelativeVideoPath_found _ Hocc) as (post & -> & Hn).
    rewrite Hn in Hrel. assert (rel = js "VIDEO/" ++ replaceBackslashes post) as ->
      by congruence.
    by rewrite replaceBackslashes_app.
  - rewrite (normalizeVideoPath_absent _ Hno) in Hrel. discriminate.
Qed.

Lemma getRelativeVideoPath_normalized_witness :
  relativePath (normalizeVideoPath "D:/media/VIDEO/80s\a.mp4") = Some (js "VIDEO/80s/a.mp4") /\
  replaceBackslashes (getRelativeVideoPath "D:/media/VIDEO/80s\a.mp4")
    = js "/" ++ js "VIDEO/80s/a.mp4".
Proof.
  assert (H : relativePath (normalizeVideoPath "D:/media/VIDEO/80s\a.mp4")
              = Some (js "VIDEO/80s/a.mp4")) by (vm_compute; reflexivity).
  split; [exact H|]. exact (getRelativeVideoPath_normalized _ _ H).
Defined.

(* ================================================================== *)
(** ** Collapsed runs and trimmed strings *)

Section Runs.
Variable inClass : N -> bool.
Variable r : N.
Hypothesis r_inClass : inClass r = true.

Lemma collapseRuns_normal (inRun : bool) (s : jsstring) :
  runsNormal inClass r inRun (collapseRuns inClass r inRun s) = true.
Proof.
  revert inRun. induction s as [|c s IH]; intros inRun; [done|]. simpl.
  destruct (inClass c) eqn:Ec.
  - destruct inRun; [apply IH|]. simpl. by rewrite r_inClass, N.eqb_refl, IH.
  - simpl. rewrite Ec. apply IH.
Qed.

Lemma collapseRuns_fixed (inRun : bool) (s : jsstring) :
  runsNormal inClass r inRun s = true -> collapseRuns inClass r inRun s = s.
Proof.
  revert inRun. induction s as [|c s IH]; intros inRun; [done|]. simpl.
  destruct (inClass c) eqn:Ec.
  - intros [[Hc Hrun%negb_true_iff]%andb_true_iff Hs]%andb_true_iff.
    apply N.eqb_eq in Hc. subst. by rewrite (IH _ Hs).
  - intros Hs. by rewrite (IH _ Hs).
Qed.

Lemma runsNormal_weaken (prev : bool) (s : jsstring) :
  runsNormal inClass r prev s = true -> runsNormal inClass r false s = true.
Proof.
  destruct s as [|c s]; [done|]. simpl. destruct (inClass c); [|done].
  intros [[-> _]%andb_true_iff ->]%andb_true_iff. done.
Qed.

Lemma runsNormal_suffix (prev : bool) (pre s : jsstring) :
  runsNormal inClass r prev (pre ++ s) = true -> runsNormal inClass r false s = true.
Proof.
  revert prev. induction pre as [|c pre IH]; intros prev; simpl.
  - apply runsNormal_weaken.
  - destruct (inClass c); [|apply IH].
    intros [_ Hs]%andb_true_iff. by apply IH in Hs.
Qed.

Lemma runsNormal_prefix (prev : bool) (s post : jsstring) :
  runsNormal inClass r prev (s ++ post) = true -> runsNormal inClass r prev s = true.
Proof.
  revert prev. induction s as [|c s IH]; intros prev; [done|]. simpl.
  destruct (inClass c); [|apply IH].
  intros [-> Hs]%andb_true_iff. by rewrite (IH _ Hs).
Qed.

Lemma collapseRuns_chars (inRun : bool) (s : jsstring) (c : N) :
  c ∈ collapseRuns inClass r inRun s -> c = r \/ (c ∈ s /\ inClass c = false).
Proof.
  revert inRun. induction s as [|x s IH]; intros inRun; simpl.
  - intros H. by apply elem_of_nil in H.
  - destruct (inClass x) eqn:Ex.
    + destruct inRun.
      * intros [->|[H1 H2]]%IH; [by left|]. right. split; [by right|done].
      * intros [->|[->|[H1 H2]]%IH]%elem_of_cons; [by left|by left|].
        right. split; [by right|done].
    + intros [->|[->|[H1 H2]]%IH]%elem_of_cons.
      * right. split; [by left|done].
      * by left.
      * right. split; [by right|done].
Qed.

(** The pieces of a split at runs hold no character of the class. *)
Lemma splitAtRuns_chars (cur : jsstring) (inRun : bool) (s piece : jsstring) (c : N) :
  piece ∈ splitAtRuns inClass cur inRun s -> c ∈ piece ->
  (c ∈ cur) \/ (c ∈ s /\ inClass c = false).
Proof.
  revert cur inRun. induction s as [|x s IH]; intros cur inRun; simpl.
  - intros ->%list_elem_of_singleton Hc. by left.
  - destruct (inClass x) eqn:Ex.
    + destruct inRun.
      * intros Hp Hc. destruct (IH _ _ Hp Hc) as [H|[H1 H2]]; [by left|].
        right. split; [by right|done].
      * intros [->|Hp]%elem_of_cons Hc; [by left|].
        destruct (IH _ _ Hp Hc) as [H|[H1 H2]]; [by apply elem_of_nil in H|].
        right. split; [by right|done].
    + intros Hp Hc. destruct (IH _ _ Hp Hc) as [[H| ->%list_elem_of_singleton]%elem_of_app|[H1 H2]].
      * by left.
      * right. split; [by left|done].
      * right. split; [by right|done].
Qed.

(** A string that neither starts nor ends with a character of the class
    splits into pieces none of which is empty. *)
Lemma splitAtRuns_nonEmpty (cur : jsstring) (inRun : bool) (s : jsstring) :
  (s = [] -> cur <> []) ->
  (forall c, last s = Some c -> inClass c = false) ->
  (cur = [] -> inRun = false -> forall c, head s = Some c -> inClass c = false) ->
  [] ∉ splitAtRuns inClass cur inRun s.
Proof.
  revert cur inRun. induction s as [|x s IH]; intros cur inRun Hnil Hlast Hhead; simpl.
  - intros H%list_elem_of_singleton. by apply Hnil.
  - assert (Hs : s <> [] \/ inClass x = false).
    { destruct s; [right; by apply Hlast|by left]. }
    assert (Hlast' : forall c, last s = Some c -> inClass c = false).
    { intros c Hc. apply Hlast. destruct s; [done|]. done. }
    destruct (inClass x) eqn:Ex.
    + destruct Hs as [Hs|]; [|done].
      destruct inRun.
      * apply IH; [done|done|]. intros _ [=].
      * intros [Hcur|Hin]%elem_of_cons.
        -- symmetry in Hcur. specialize (Hhead Hcur eq_refl x eq_refl). congruence.
        -- revert Hin. apply IH; [done|done|]. intros _ [=].
    + apply IH; [|done|].
      * intros _. by destruct cur.
      * intros Hcur. by destruct cur.
Qed.

End Runs.

Lemma trimStart_head (s : jsstring) (c : N) :
  head (trimStart s) = Some c -> isWhiteSpace c = false.
Proof.
  induction s as [|x s IH]; [done|]. simpl.
  destruct (isWhiteSpace x) eqn:Ex; [done|]. simpl. by intros [= <-].
Qed.

Lemma trimStart_fixed (s : jsstring) :
  (forall c, head s = Some c -> isWhiteSpace c = false) -> trimStart s = s.
Proof.
  destruct s as [|x s]; [done|]. intros H. simpl. by rewrite (H x eq_refl).
Qed.

Lemma trim_head (s : jsstring) (c : N) : head (trim s) = Some c -> isWhiteSpace c = false.
Proof.
  unfold trim. destruct (trimEnd_prefix (trimStart s)) as [post Hpost].
  destruct (trimEnd (trimStart s)) as [|x t] eqn:E; [done|]. simpl. intros [= <-].
  apply (trimStart_head s). by rewrite Hpost.
Qed.

Lemma rev_is_reverse {A} (l : list A) : rev l = reverse l.
Proof. unfold reverse. by rewrite rev_append_rev, app_nil_r. Qed.

Lemma trim_last (s : jsstring) (c : N) : last (trim s) = Some c -> isWhiteSpace c = false.
Proof.
  unfold trim, trimEnd. rewrite rev_is_reverse, last_reverse. apply trimStart_head.
Qed.

Lemma trim_fixed (s : jsstring) :
  (forall c, head s = Some c -> isWhiteSpace c = false) ->
  (forall c, last s = Some c -> isWhiteSpace c = false) ->
  trim s = s.
Proof.
  intros Hh Hl. unfold trim, trimEnd. rewrite (trimStart_fixed s Hh).
  rewrite trimStart_fixed; [apply rev_involutive|].
  intros c Hc. apply Hl. by rewrite <- head_reverse, <- rev_is_reverse.
Qed.

Lemma trim_idempotent (s : jsstring) : trim (trim s) = trim s.
Proof. apply trim_fixed; [apply trim_head|apply trim_last]. Qed.

Lemma trim_elem (s : jsstring) (c : N) : c ∈ trim s -> c ∈ s.
Proof.
  destruct (trim_infix s) as (pre & post & Heq). intros Hc. rewrite Heq.
  apply elem_of_app. right. apply elem_of_app. by left.
Qed.

Lemma trim_runsNormal (inClass : N -> bool) (r : N) (prev : bool) (s : jsstring) :
  runsNormal inClass r prev s = true -> runsNormal inClass r false (trim s) = true.
Proof.
  destruct (trim_infix s) as (pre & post & Heq). intros Hs. rewrite Heq in Hs.
  apply runsNormal_suffix in Hs. by apply runsNormal_prefix in Hs.
Qed.

(* ================================================================== *)
(** ** Clean text and search text *)

Lemma replaceUnderscores_clean (s : jsstring) : chr_underscore ∉ replaceUnderscores s.
Proof.
  unfold replaceUnderscores. intros (c & Hc & _)%list_elem_of_fmap.
  destruct (c =? chr_underscore)%N eqn:E; [discriminate|].
  apply N.eqb_neq in E. congruence.
Qed.

Lemma map_fixed {A} (f : A -> A) (l : list A) :
  (forall a, a ∈ l -> f a = a) -> map f l = l.
Proof.
  induction l as [|a l IH]; [done|]. intros H. simpl.
  rewrite (H a) by left. rewrite IH; [done|]. intros b Hb. apply H. by right.
Qed.

Lemma filter_fixed {A} (P : A -> Prop) `{forall a, Decision (P a)} (l : list A) :
  (forall a, a ∈ l -> P a) -> filter P l = l.
Proof.
  induction l as [|a l IH]; [done|]. intros Hl.
  rewrite filter_cons_True by (apply Hl; left).
  rewrite IH; [done|]. intros b Hb. apply Hl. by right.
Qed.

Lemma forallb_fixed {A} (P : A -> bool) (l : list A) :
  (forall a, a ∈ l -> P a = true) -> forallb P l = true.
Proof.
  induction l as [|a l IH]; [done|]. intros Hl. simpl.
  rewrite (Hl a) by left. apply IH. intros b Hb. apply Hl. by right.
Qed.

Lemma replaceUnderscores_fixed (s : jsstring) :
  chr_underscore ∉ s -> replaceUnderscores s = s.
Proof.
  intros Hs. apply map_fixed. intros c Hc.
  destruct (c =? chr_underscore)%N eqn:E; [|done].
  apply N.eqb_eq in E. congruence.
Qed.

(** The shape of a cleaned text. *)
Lemma cleanMusicText_shape (value : jsstring) :
  (chr_underscore ∉ cleanMusicText value) /\
  runsNormal isWhiteSpace chr_space false (cleanMusicText value) = true /\
  trim (cleanMusicText value) = cleanMusicText value.
Proof.
  unfold cleanMusicText. destruct (nonEmpty value); simpl negb; cbv iota.
  - split; [|split].
    + intros [Heq|[Hc _]]%trim_elem%collapseRuns_chars; [by compute in Heq|].
      by apply replaceUnderscores_clean in Hc.
    + eapply trim_runsNormal. by apply collapseRuns_normal.
    + apply trim_idempotent.
  - split; [apply not_elem_of_nil|done].
Qed.

Lemma cleanMusicText_fixed (s : jsstring) :
  (chr_underscore ∉ s) ->
  runsNormal isWhiteSpace chr_space false s = true ->
  trim s = s ->
  cleanMusicText s = s.
Proof.
  intros Hu Hr Ht. unfold cleanMusicText. destruct s as [|c s]; [done|].
  simpl negb. cbv iota.
  rewrite replaceUnderscores_fixed by done. rewrite collapseRuns_fixed by done. done.
Qed.

(** X12.  Cleaning a text twice is cleaning it once; a cleaned text holds no
    underscore, no white space at its ends, and no white space other than
    single spaces. *)
Theorem cleanMusicText_idempotent (value : jsstring) :
  cleanMusicText (cleanMusicText value) = cleanMusicText value /\
  (chr_underscore ∉ cleanMusicText value) /\
  runsNormal isWhiteSpace chr_space false (cleanMusicText value) = true /\
  trim (cleanMusicText value) = cleanMusicText value.
Proof.
  destruct (cleanMusicText_shape value) as (Hu & Hr & Ht).
  split; [by apply cleanMusicText_fixed|done].
Qed.

Lemma searchChar_facts (c : N) :
  c = chr_space \/ isAlnumLower c = true ->
  isAscii c = true /\ isUpperAZ c = false /\ isCombiningMark c = false /\
  (isWhiteSpace c = true -> c = chr_space).
Proof.
  intros [->|H]; [done|].
  unfold isAlnumLower, isLowerAZ, isDigit in H.
  unfold isAscii, isUpperAZ, isCombiningMark, isWhiteSpace, chr_space.
  repeat match goal with
  | |- context [(?a <=? ?b)%N] => destruct (N.leb_spec a b); try lia
  | |- context [(?a <? ?b)%N] => destruct (N.ltb_spec a b); try lia
  | |- context [(?a =? ?b)%N] => destruct (N.eqb_spec a b); try lia
  | H : context [(?a <=? ?b)%N] |- _ => destruct (N.leb_spec a b); try lia
  end; simpl in *; try done.
Qed.

Section SearchText.
Context {rt : JsRuntime}.

Lemma normalizeSearchText_chars (value : jsstring) (c : N) :
  c ∈ normalizeSearchText value -> c = chr_space \/ isAlnumLower c = true.
Proof.
  unfold normalizeSearchText.
  intros [->|[_ Hc]]%trim_elem%collapseRuns_chars; [by left|].
  right. by apply negb_false_iff.
Qed.

Lemma normalizeSearchText_fixed (s : jsstring) :
  (forall c, c ∈ s -> c = chr_space \/ isAlnumLower c = true) ->
  runsNormal (fun c => negb (isAlnumLower c)) chr_space false s = true ->
  trim s = s ->
  normalizeSearchText s = s.
Proof.
  intros Hc Hr Ht. unfold normalizeSearchText, normalizeNFD, toLowerCase.
  assert (Hascii : forallb isAscii s = true).
  { apply forallb_fixed. intros c Hin. by apply searchChar_facts, Hc. }
  rewrite Hascii.
  assert (map (fun c => if isUpperAZ c then (c + 32)%N else c) s = s) as ->.
  { apply map_fixed. intros c Hin.
    destruct (searchChar_facts c (Hc c Hin)) as (_ & -> & _). done. }
  rewrite Hascii. rewrite filter_fixed.
  - rewrite collapseRuns_fixed by done. done.
  - intros c Hin. destruct (searchChar_facts c (Hc c Hin)) as (_ & _ & -> & _). done.
Qed.

Lemma normalizeSearchText_normal (value : jsstring) :
  runsNormal (fun c => negb (isAlnumLower c)) chr_space false (normalizeSearchText value)
  = true.
Proof. unfold normalizeSearchText. eapply trim_runsNormal. by apply collapseRuns_normal. Qed.

Lemma normalizeSearchText_trimmed (value : jsstring) :
  trim (normalizeSearchText value) = normalizeSearchText value.
Proof. unfold normalizeSearchText. apply trim_idempotent. Qed.

(** X13.  Normalising a search text twice is normalising it once; the result
    holds lower-case letters, digits and single spaces only, none at an
    end. *)
Theorem normalizeSearchText_idempotent (value : jsstring) :
  normalizeSearchText (normalizeSearchText value) = normalizeSearchText value /\
  Forall (fun c => c = chr_space \/ isAlnumLower c = true) (normalizeSearchText value) /\
  runsNormal (fun c => negb (isAlnumLower c)) chr_space false (normalizeSearchText value)
    = true /\
  trim (normalizeSearchText value) = normalizeSearchText value.
Proof.
  split; [|split; [|split]].
  - apply normalizeSearchText_fixed;
      [apply normalizeSearchText_chars|apply normalizeSearchText_normal
      |apply normalizeSearchText_trimmed].
  - apply Forall_forall. apply normalizeSearchText_chars.
  - apply normalizeSearchText_normal.
  - apply normalizeSearchText_trimmed.
Qed.

Lemma tokenize_shape (value : jsstring) :
  Forall (fun word => word <> [] /\ forallb isAlnumLower word = true) (tokenize value).
Proof.
  unfold tokenize. cbv zeta.
  destruct (nonEmpty (normalizeSearchText value)) eqn:Ene; [|constructor].
  apply Forall_forall. intros word Hword. split.
  - intros ->. revert Hword. apply splitAtRuns_nonEmpty.
    + intros Hnil. by rewrite Hnil in Ene.
    + intros c Hc. apply (trim_last (normalizeSearchText value)).
      by rewrite normalizeSearchText_trimmed.
    + intros _ _ c Hc. apply (trim_head (normalizeSearchText value)).
      by rewrite normalizeSearchText_trimmed.
  - apply forallb_fixed. intros c Hc.
    destruct (splitAtRuns_chars _ _ _ _ _ c Hword Hc) as [Hnil|[Hin Hws]].
    + by apply elem_of_nil in Hnil.
    + destruct (normalizeSearchText_chars _ _ Hin) as [->|Halnum]; [done|done].
Qed.

(** X14.  Every word of a tokenised text is a non-empty string of lower-case
    letters and digits, whatever the runtime does outside ASCII; so is
    every text token of a parsed query. *)
Theorem tokenize_words (value : jsstring) :
  Forall (fun word => word <> [] /\ forallb isAlnumLower word = true) (tokenize value) /\
  Forall (fun word => word <> [] /\ forallb isAlnumLower word = true)
         (textTokens (parseSearch value)).
Proof.
  split; [apply tokenize_shape|]. unfold parseSearch.
  destruct (parseLoop _ _ _ _) as [[textParts yearValues] yearRanges].
  apply tokenize_shape.
Qed.

End SearchText.

(* ================================================================== *)
(** ** Records of a pass *)

Section RecordFacts.
Context {rt : JsRuntime}.

Lemma parseRow_fields (ids : gmap jsstring nat) (idx : nat) (item : JsObject)
  (row : VideoRecord) (ids' : gmap jsstring nat) :
  parseRow ids idx item = (Some row, ids') ->
  exists rawPath t a al g v,
    normalizeVideoPath rawPath
      = {| relativePath := Some (VideoRecord.filePath row);
           absolutePath := VideoRecord.absolutePath row |} /\
    nonEmpty (VideoRecord.filePath row) = true /\
    VideoRecord.title row
      = orElse (cleanMusicText t) (deriveTitle (VideoRecord.filePath row)) /\
    VideoRecord.artist row
      = orElse (cleanMusicText a) (deriveArtist (VideoRecord.filePath row)) /\
    VideoRecord.album row = orElse (cleanMusicText al) EM_DASH /\
    VideoRecord.genre row = orElse (cleanMusicText g) EM_DASH /\
    VideoRecord.videoId row = (if nonEmpty v then Some v else None) /\
    VideoRecord.id row = mkId (orElse v (VideoRecord.filePath row))
                           (default 0%nat (ids !! orElse v (VideoRecord.filePath row))).
Proof.
  unfold parseRow.
  destruct (negb (nonEmpty (asString _))); [discriminate|].
  destruct (normalizeVideoPath _) as [[rel|] abs] eqn:En; cbn [relativePath absolutePath];
    [|discriminate].
  destruct (nonEmpty rel) eqn:Ene; simpl negb; cbv iota; [|discriminate].
  intros [= <- <-]. cbn.
  rewrite (orElse_nonEmpty rel _ Ene).
  eexists _, _, _, _, _, _. repeat (split; [done|]). done.
Qed.

Lemma orElse_cleanText (value fallback : jsstring) :
  cleanText fallback -> cleanText (orElse (cleanMusicText value) fallback).
Proof.
  intros Hf. unfold orElse. destruct (nonEmpty (cleanMusicText value)) eqn:E; [|done].
  split; [done|]. destruct (cleanMusicText_shape value) as (Hu & Hr & Ht).
  by apply cleanMusicText_fixed.
Qed.

Lemma deriveTitle_cleanText (filePath : jsstring) : cleanText (deriveTitle filePath).
Proof.
  unfold deriveTitle. cbv zeta.
  assert (H : forall v, cleanText (orElse (cleanMusicText v) (js "Untitled"))).
  { intros v. apply orElse_cleanText. by split. }
  destruct (1 <? length _)%nat; [|apply H]. apply orElse_cleanText, H.
Qed.

Lemma deriveArtist_cleanText (filePath : jsstring) : cleanText (deriveArtist filePath).
Proof.
  unfold deriveArtist. cbv zeta.
  destruct (includes _ _); [|by split]. apply orElse_cleanText. by split.
Qed.

(** X3.  The descriptive fields of a record are never empty and are in
    cleaned form; its id and file path are never empty, and its video id
    is absent rather than empty. *)
Theorem record_fields_never_empty (items : list JsObject) (row : VideoRecord) :
  row ∈ parseVideoIndexRows items ->
  cleanText (VideoRecord.title row) /\ cleanText (VideoRecord.artist row) /\
  cleanText (VideoRecord.album row) /\ cleanText (VideoRecord.genre row) /\
  nonEmpty (VideoRecord.id row) = true /\
  nonEmpty (VideoRecord.filePath row) = true /\
  VideoRecord.videoId row <> Some [].
Proof.
  intros (ids0 & idx0 & item & ids1 & _ & Hp)%parseVideoIndexRows_elem.
  destruct (parseRow_fields _ _ _ _ _ Hp)
    as (rawPath & t & a & al & g & v & _ & Hne & -> & -> & -> & -> & -> & ->).
  split; [apply orElse_cleanText, deriveTitle_cleanText|].
  split; [apply orElse_cleanText, deriveArtist_cleanText|].
  split; [by apply orElse_cleanText|].
  split; [by apply orElse_cleanText|].
  split; [|split; [done|]].
  - unfold mkId, orElse. destruct v as [|c v]; simpl.
    + destruct (VideoRecord.filePath row); [done|]. by destruct (_ =? _)%nat.
    + by destruct (_ =? _)%nat.
  - by destruct v.
Qed.




(** X9.  The list key of a record of a pass is its video id when it has one
    and its id otherwise; the hash of the path is never reached. *)
Theorem stableVideoHash_of_record (items : list JsObject) (row : VideoRecord) :
  row ∈ parseVideoIndexRows items ->
  stableVideoHash row = default (VideoRecord.id row) (VideoRecord.videoId row) /\
  nonEmpty (stableVideoHash row) = true.
Proof.
  intros (ids0 & idx0 & item & ids1 & _ & Hp)%parseVideoIndexRows_elem.
  destruct (parseRow_fields _ _ _ _ _ Hp)
    as (rawPath & t & a & al & g & v & _ & Hne & _ & _ & _ & _ & Hvid & Hid).
  unfold stableVideoHash, orElse. rewrite Hvid, Hid.
  destruct v as [|c v]; simpl.
  - unfold mkId, orElse. simpl. destruct (nonEmpty (VideoRecord.filePath row)) eqn:E;
      [|done]. destruct (_ =? _)%nat.
    + by rewrite E.
    + by destruct (VideoRecord.filePath row).
  - done.
Qed.

(** X8.  The path shown for a record of a pass is its file path behind a
    slash. *)
Theorem modalRelativePath_of_record (items : list JsObject) (row : VideoRecord) :
  row ∈ parseVideoIndexRows items ->
  modalRelativePath row = js "/" ++ VideoRecord.filePath row.
Proof.
  intros (ids0 & idx0 & item & ids1 & _ & Hp)%parseVideoIndexRows_elem.
  destruct (parseRow_fields _ _ _ _ _ Hp) as (rawPath & _ & _ & _ & _ & _ & Hn & _).
  assert (Hocc : occursIn "/VIDEO/" rawPath).
  { apply (normalizeVideoPath_relative rawPath (VideoRecord.filePath row)). by rewrite Hn. }
  destruct (normalizeVideoPath_found _ Hocc) as (i & post & _ & _ & Hn').
  rewrite Hn in Hn'.
  assert (Hrel : VideoRecord.filePath row = js "VIDEO/" ++ replaceBackslashes post)
    by congruence.
  assert (Habs : VideoRecord.absolutePath row
                 = Some (CANONICAL_VIDEO_ROOT ++ js "/" ++ replaceBackslashes post))
    by congruence.
  unfold modalRelativePath. rewrite Habs, Hrel.
  change (getRelativeVideoPath (CANONICAL_VIDEO_ROOT ++ js "/" ++ replaceBackslashes post)
          = js "/" ++ js "VIDEO/" ++ replaceBackslashes post).
  by rewrite getRelativeVideoPath_root.
Qed.

End RecordFacts.

Section PassFacts.
Context {rt : JsRuntime} {fp : Float64}.
Variable maxStringLength : Z.
Variable MEDIA_BASE : jsstring.
Variable percentEncode : jsstring -> jsstring.




End PassFacts.


Lemma record_fields_never_empty_witness :
  exists row,
    parseVideoIndexRows (rt := exampleRuntime) [tierExampleItem] = [row] /\
    VideoRecord.title row = js "Radio Ga Ga" /\
    VideoRecord.artist row = js "Queen" /\
    cleanText (VideoRecord.title row) /\ cleanText (VideoRecord.artist row) /\
    cleanText (VideoRecord.album row) /\ cleanText (VideoRecord.genre row) /\
    nonEmpty (VideoRecord.id row) = true /\
    nonEmpty (VideoRecord.filePath row) = true /\
    VideoRecord.videoId row <> Some [].
Proof.
  eexists. split; [vm_compute; reflexivity|].
  split; [reflexivity|]. split; [reflexivity|].
  apply (record_fields_never_empty (rt := exampleRuntime) [tierExampleItem]).
  vm_compute. left.
Defined.

Lemma record_tier_never_null_witness :
  exists row,
    parseVideoIndexRows (rt := exampleRuntime) [tierExampleItem] = [row] /\
    is_Some (VideoRecord.tier row) /\
    VideoRecord.tier row = tierFromPlaycount (ofZ (VideoRecord.playcount row)).
Proof.
  eexists. split; [vm_compute; reflexivity|].
  apply (record_tier_never_null (rt := exampleRuntime) [tierExampleItem]).
  vm_compute. left.
Defined.

Lemma ids_distinct_without_hash_witness :
  (forall row, row ∈ parseVideoIndexRows (rt := exampleRuntime) [slashItem; slashItem] ->
               chr_hash ∉ rowIdBase row) /\
  VideoRecord.id <$> parseVideoIndexRows (rt := exampleRuntime) [slashItem; slashItem]
    = [js "VIDEO/80s/clip.mp4"; js "VIDEO/80s/clip.mp4#1"] /\
  NoDup (VideoRecord.id <$> parseVideoIndexRows (rt := exampleRuntime) [slashItem; slashItem]).
Proof.
  assert (H : forall row,
            row ∈ parseVideoIndexRows (rt := exampleRuntime) [slashItem; slashItem] ->
            chr_hash ∉ rowIdBase row).
  { apply Forall_forall. compute_done. }
  split; [exact H|]. split; [vm_compute; reflexivity|].
  exact (ids_distinct_without_hash (rt := exampleRuntime) _ H).
Defined.

Lemma stableVideoHash_of_record_witness :
  exists row,
    parseVideoIndexRows (rt := exampleRuntime) [tierExampleItem] = [row] /\
    stableVideoHash row = default (VideoRecord.id row) (VideoRecord.videoId row) /\
    nonEmpty (stableVideoHash row) = true.
Proof.
  eexists. split; [vm_compute; reflexivity|].
  apply (stableVideoHash_of_record (rt := exampleRuntime) [tierExampleItem]).
  vm_compute. left.
Defined.

Lemma modalRelativePath_of_record_witness :
  exists row,
    parseVideoIndexRows (rt := exampleRuntime) [slashItem] = [row] /\
    modalRelativePath row = js "/" ++ VideoRecord.filePath row.
Proof.
  eexists. split; [vm_compute; reflexivity|].
  apply (modalRelativePath_of_record (rt := exampleRuntime) [slashItem]).
  vm_compute. left.
Defined.

(* ================================================================== *)
(** ** Decade pills and chip stages *)

Ltac decade_bounds :=
  repeat match goal with
  | H : (_ && _) = true |- _ => apply andb_true_iff in H as [? ?]
  | H : (_ <=? _) = true |- _ => apply Z.leb_le in H
  | |- (_ && _) = true => apply andb_true_iff; split
  | |- (_ <=? _) = true => apply Z.leb_le
  | |- (_ && _) = false => apply not_true_is_false; intros ?
  | |- (_ <=? _) = false => apply Z.leb_gt
  end.

(** X15.  The pills cut the years from 1960 on into disjoint bands: such a
    year passes exactly one pill, an earlier year passes none, and neither
    does a null year. *)
Theorem decade_pills_partition (year : Z) :
  (1960 <= year ->
   exists pill, forall p, matchesDecade (Some year) p = true <-> p = pill) /\
  (year < 1960 -> forall p, matchesDecade (Some year) p = false) /\
  (forall p, matchesDecade None p = false).
Proof.
  split; [|split].
  - intros Hlo.
    assert (Hcase : year <= 1969 \/ 1970 <= year <= 1979 \/ 1980 <= year <= 1989 \/
                    1990 <= year <= 1999 \/ 2000 <= year <= 2009 \/ 2010 <= year) by lia.
    destruct Hcase as [H|[H|[H|[H|[H|H]]]]];
      [exists P60s|exists P70s|exists P80s|exists P90s|exists P00s|exists P10s];
      intros p; (split; [destruct p; simpl; intros Hp; decade_bounds; first [done|lia]
                        |intros ->; simpl; decade_bounds; lia]).
  - intros Hlo p. destruct p; simpl; decade_bounds; lia.
  - done.
Qed.

Section ChipFacts.
Context {rt : JsRuntime}.

(** X16.  With no pill active the decade stage passes every record; with all
    six active it passes exactly the records with a year from 1960 on. *)
Theorem decadeStage_all_pills (row : VideoRecord) :
  decadeStage [] row = true /\
  (decadeStage DECADE_PILLS row = true <->
   exists y, VideoRecord.year row = Some y /\ 1960 <= y).
Proof.
  split; [done|]. unfold decadeStage, DECADE_PILLS. simpl.
  destruct (VideoRecord.year row) as [y|]; simpl.
  - rewrite !orb_true_iff, !andb_true_iff, !Z.leb_le. split.
    + intros H. exists y. split; [done|]. lia.
    + intros (y' & [= <-] & Hy). lia.
  - split; [done|]. by intros (y & ? & _).
Qed.

Lemma normalizeTierFilter_Some (t : CanonicalTier) :
  normalizeTierFilter (Some t) = Some (toLowerCase (tierName t)).
Proof. unfold normalizeTierFilter. rewrite toLowerCase_tierName. by destruct t. Qed.

Lemma toLowerCase_tierName_inj (t1 t2 : CanonicalTier) :
  toLowerCase (tierName t1) = toLowerCase (tierName t2) -> t1 = t2.
Proof. rewrite !toLowerCase_tierName. by destruct t1, t2. Qed.

(** The lower-cased name of each of the five tiers is a tier filter, so a
    record passes the tier stage exactly when no tier is active or its own
    is. *)
Lemma tierStage_true (s : ChipState) (row : VideoRecord) :
  tierStage s row = true <->
  activeTiers s = [] \/
  exists t, VideoRecord.tier row = Some t /\ toLowerCase (tierName t) ∈ activeTiers s.
Proof.
  unfold tierStage. destruct (activeTiers s) as [|a l] eqn:E; simpl.
  - split; [by left|done].
  - destruct (VideoRecord.tier row) as [t|].
    + rewrite normalizeTierFilter_Some, bool_decide_eq_true. split.
      * intros H. right. by exists t.
      * intros [?|(t' & [= <-] & H)]; done.
    + simpl. split; [done|]. intros [?|(t' & ? & _)]; done.
Qed.

End ChipFacts.

(* ================================================================== *)
(** ** A spin of the randomizer *)

Lemma spinResult_year (decade : DecadePill) (anchorDigit : nat) (tier : CanonicalTier) :
  (anchorDigit < 10)%nat ->
  spin_year (Randomizer.spinResult decade anchorDigit tier)
  = Some (spec_bandStart decade + Z.of_nat anchorDigit).
Proof.
  intros Hd. do 10 (destruct anchorDigit as [|anchorDigit]; [by destruct decade|]). lia.
Qed.

Lemma matchesDecade_band (decade : DecadePill) (digit : Z) :
  0 <= digit <= 9 -> matchesDecade (Some (spec_bandStart decade + digit)) decade = true.
Proof. intros Hd. destruct decade; simpl; decade_bounds; lia. Qed.

Section SpinFacts.
Context {rt : JsRuntime}.

(** X17.  After a spin the chip stages keep exactly the records of the year
    and the tier the spin stopped on (the retention filter stays as it
    was): the year the randomizer builds lies in the band of its decade,
    so the decade stage drops nothing the year stage kept. *)
Theorem spin_keeps_year_and_tier (decade : DecadePill) (anchorDigit : nat)
  (tier : CanonicalTier) (s : ChipState) (rows : list VideoRecord) :
  (anchorDigit < 10)%nat ->
  chipFiltered (onRandomizerSpinComplete (Randomizer.spinResult decade anchorDigit tier) s)
    rows
  = filter (fun row =>
      VideoRecord.year row = Some (spec_bandStart decade + Z.of_nat anchorDigit) /\
      VideoRecord.tier row = Some tier /\
      retentionStage s row) rows.
Proof.
  intros Hd. unfold chipFiltered. rewrite !list_filter_filter.
  apply list_filter_iff. intros row.
  set (s' := onRandomizerSpinComplete _ s).
  assert (Hspin : spinYearStage s' row
                  <-> VideoRecord.year row = Some (spec_bandStart decade + Z.of_nat anchorDigit)).
  { unfold spinYearStage, s', onRandomizerSpinComplete. cbn [activeSpinYear].
    rewrite (spinResult_year _ _ _ Hd). apply bool_decide_spec. }
  assert (Hdec : VideoRecord.year row = Some (spec_bandStart decade + Z.of_nat anchorDigit)
                 -> decadeStage (activeDecades s') row).
  { intros Hy. unfold decadeStage, s', onRandomizerSpinComplete.
    cbn [activeDecades Randomizer.spinResult spin_decade length Nat.eqb existsb].
    rewrite Hy, matchesDecade_band by lia. done. }
  assert (Hdig : yearDigitStage s' row) by done.
  assert (Hret : retentionStage s' row <-> retentionStage s row) by done.
  assert (Htier : tierStage s' row <-> VideoRecord.tier row = Some tier).
  { rewrite Is_true_true, tierStage_true.
    unfold s', onRandomizerSpinComplete.
    cbn [activeTiers Randomizer.spinResult spin_tier]. split.
    - intros [Hnil|Hex]; [discriminate|]. destruct Hex as (t & Ht & Hin).
      apply list_elem_of_singleton, toLowerCase_tierName_inj in Hin. by subst.
    - intros Ht. right. exists tier. split; [done|]. left. }
  rewrite Hspin, Hret, Htier. split.
  - intros ((((Ht & Hr) & _) & _) & Hy). done.
  - intros (Hy & Ht & Hr). repeat split; try done. by apply Hdec.
Qed.

End SpinFacts.

Lemma spin_keeps_year_and_tier_witness :
  (3 < 10)%nat /\
  chipFiltered (rt := exampleRuntime)
    (onRandomizerSpinComplete (rt := exampleRuntime) (Randomizer.spinResult P80s 3 Power)
       {| activeSpinYear := None; activeDecades := [P60s]; activeYearDigits := [1];
          activeTiers := []; retentionFilter := None; spinFallbackDecade := None |})
    examplePool
  = [exampleRow "c" "Gamma" "Three" 1983 40].
Proof.
  assert (H : (3 < 10)%nat) by lia. split; [exact H|].
  rewrite (spin_keeps_year_and_tier (rt := exampleRuntime) P80s 3 Power _ examplePool H).
  vm_compute. reflexivity.
Defined.

(* ================================================================== *)
(** ** The shuffle and the fallback rows *)

Section ShuffleFacts.
Context {A : Type}.
Variable randomIndex : nat -> forall i : nat, fin (S i).

Lemma swap_Permutation (copy : list A) (i j : nat) : swap copy i j ≡ₚ copy.
Proof.
  unfold swap. destruct (copy !! i) as [x|] eqn:Ei; [|done].
  destruct (copy !! j) as [y|] eqn:Ej; [|done].
  pose proof (lookup_lt_Some _ _ _ Ei) as Hi.
  pose proof (lookup_lt_Some _ _ _ Ej) as Hj.
  symmetry. apply Permutation_inj. split; [by rewrite !length_insert|].
  exists (fun k => if decide (k = i) then j else if decide (k = j) then i else k).
  split.
  - intros a b. repeat case_decide; intros; subst; congruence.
  - intros k. repeat case_decide; subst.
    + rewrite list_lookup_insert_eq; [done|]. by rewrite length_insert.
    + rewrite list_lookup_insert_ne by done. by rewrite list_lookup_insert_eq.
    + by rewrite !list_lookup_insert_ne by done.
Qed.

Lemma shuffleLoop_Permutation (i k : nat) (copy : list A) :
  shuffleLoop randomIndex i k copy ≡ₚ copy.
Proof.
  revert k copy. induction i as [|i IH]; intros k copy; [done|].
  simpl. rewrite IH. apply swap_Permutation.
Qed.

Lemma sliceFirst_take (a : list A) (count : Z) :
  exists n, sliceFirst a count = take n a /\ (0 <= count -> n = Z.to_nat count).
Proof.
  unfold sliceFirst. destruct (count <? 0) eqn:E.
  - eexists. split; [done|]. apply Z.ltb_lt in E. lia.
  - eexists. split; [done|]. done.
Qed.

Lemma sampleRandom_spec (items : list A) (count : Z) :
  (exists rest, sampleRandom randomIndex items count ++ rest ≡ₚ items) /\
  (0 <= count ->
   length (sampleRandom randomIndex items count)
   = Nat.min (Z.to_nat count) (length items)).
Proof.
  unfold sampleRandom. cbv zeta.
  set (shuffled := shuffleLoop randomIndex (length items - 1) 0 items).
  assert (Hperm : shuffled ≡ₚ items) by apply shuffleLoop_Permutation.
  destruct (sliceFirst_take shuffled count) as (n & -> & Hn).
  split.
  - exists (drop n shuffled). by rewrite take_drop.
  - intros Hc. rewrite length_take, (Hn Hc), Hperm. done.
Qed.

(** X18.  A sample is a part of a rearrangement of the items: with what is
    left over it makes up the items again, each as often as it was there,
    so it repeats no item that the items do not repeat; for a count that
    is not negative it holds the count, or every item when there are
    fewer. *)
Theorem sampleRandom_is_part_of_items (items : list A) (count : Z) :
  (exists rest, sampleRandom randomIndex items count ++ rest ≡ₚ items) /\
  (NoDup items -> NoDup (sampleRandom randomIndex items count)) /\
  (0 <= count ->
   length (sampleRandom randomIndex items count)
   = Nat.min (Z.to_nat count) (length items)).
Proof.
  destruct (sampleRandom_spec items count) as ((rest & Hrest) & Hlen).
  split; [by exists rest|]. split; [|done].
  intros Hnd. rewrite <- Hrest in Hnd. by apply NoDup_app in Hnd as [? _].
Qed.

End ShuffleFacts.

Section FallbackFacts.
Context {rt : JsRuntime}.
Variable randomIndex : nat -> forall i : nat, fin (S i).

(** X19.  Fallback rows are only set when the filter left nothing; they are
    at most five rows of the library, none taken twice, and each is of the
    spin year when there is one, and otherwise of the fallback decade. *)
Theorem fallbackRows_are_candidates (s : ChipState)
  (filteredVideos rows fallback : list VideoRecord) :
  fallbackRowsOf randomIndex s filteredVideos rows = Some fallback ->
  filteredVideos = [] /\
  (length fallback <= 5)%nat /\
  (exists rest, fallback ++ rest ⊆+ rows) /\
  (forall row, row ∈ fallback ->
     match activeSpinYear s, spinFallbackDecade s with
     | Some y, _ => VideoRecord.year row = Some y
     | None, Some (FallbackPill pill) => matchesDecade (VideoRecord.year row) pill = true
     | None, _ => True
     end).
Proof.
  unfold fallbackRowsOf. destruct (spinFallbackDecade s) as [decade|]; [|discriminate].
  destruct filteredVideos as [|v vs]; simpl; [|discriminate].
  intros [= <-]. split; [done|].
  destruct (sampleRandom_spec randomIndex (fallbackCandidates s decade rows) 5)
    as ((rest & Hrest) & Hlen).
  split; [rewrite Hlen by lia; lia|].
  assert (Hsub : fallbackCandidates s decade rows ⊆+ rows).
  { unfold fallbackCandidates.
    destruct (activeSpinYear s); [apply sublist_submseteq, sublist_filter|].
    destruct decade; [done|apply sublist_submseteq, sublist_filter]. }
  split.
  - exists rest. by rewrite Hrest.
  - intros row Hrow.
    assert (Hin : row ∈ fallbackCandidates s decade rows).
    { rewrite <- Hrest. apply elem_of_app. by left. }
    unfold fallbackCandidates in Hin. destruct (activeSpinYear s) as [y|].
    + by apply list_elem_of_filter in Hin as [? _].
    + destruct decade as [|pill]; [done|].
      apply list_elem_of_filter in Hin as [Hp _]. by apply Is_true_true.
Qed.

End FallbackFacts.

Lemma fallbackRows_are_candidates_witness :
  fallbackRowsOf zeroIndex
    {| activeSpinYear := Some 1982; activeDecades := [P80s]; activeYearDigits := [];
       activeTiers := [js "power"]; retentionFilter := None;
       spinFallbackDecade := Some (FallbackPill P80s) |}
    [] examplePool
  = Some [exampleRow "b" "Beta" "Two" 1982 5] /\
  (length [exampleRow "b" "Beta" "Two" 1982 5] <= 5)%nat /\
  VideoRecord.year (exampleRow "b" "Beta" "Two" 1982 5) = Some 1982.
Proof.
  assert (H : fallbackRowsOf zeroIndex
    {| activeSpinYear := Some 1982; activeDecades := [P80s]; activeYearDigits := [];
       activeTiers := [js "power"]; retentionFilter := None;
       spinFallbackDecade := Some (FallbackPill P80s) |}
    [] examplePool
  = Some [exampleRow "b" "Beta" "Two" 1982 5]) by (vm_compute; reflexivity).
  split; [exact H|].
  destruct (fallbackRows_are_candidates zeroIndex _ _ _ _ H) as (_ & Hlen & _ & Hrow).
  split; [exact Hlen|]. apply (Hrow _ ltac:(left)).
Defined.

(* ================================================================== *)
(** ** The history weights *)

Lemma num_le_total (a b : number) :
  a <> NaN -> b <> NaN -> num_le a b = false -> num_le b a = true.
Proof.
  destruct a as [p| | |], b as [q| | |]; simpl; try done.
  intros _ _ H. apply num_le_Fin_false in H. apply Qle_bool_iff. by apply Qlt_le_weak.
Qed.

Lemma num_le_refl (a : number) : a <> NaN -> num_le a a = true.
Proof. destruct a as [p| | |]; simpl; try done. intros _. apply Qle_bool_iff, Qle_refl. Qed.

Lemma num_le_trans (a b c : number) :
  num_le a b = true -> num_le b c = true -> num_le a c = true.
Proof.
  destruct a as [p| | |], b as [q| | |], c as [r| | |]; simpl; try done.
  rewrite !Qle_bool_iff. apply Qle_trans.
Qed.

Lemma Math_max_is_NaN (a b : number) : Math_max a b = NaN <-> a = NaN \/ b = NaN.
Proof.
  destruct a, b; simpl; try destruct (Qle_bool _ _).
  all: split; [intros H; try discriminate H; auto|intros [H|H]; try discriminate H; auto].
Qed.

Lemma Math_max_bounds (a b : number) :
  Math_max a b <> NaN ->
  num_le a (Math_max a b) = true /\ num_le b (Math_max a b) = true /\
  (Math_max a b = a \/ Math_max a b = b).
Proof.
  intros Hn.
  assert (Ha : a <> NaN) by (intros ->; apply Hn; by destruct b).
  assert (Hb : b <> NaN) by (intros ->; apply Hn; by destruct a).
  assert (Hm : Math_max a b = if num_le a b then b else a) by (by destruct a, b).
  rewrite Hm. destruct (num_le a b) eqn:E.
  - split; [done|]. split; [by apply num_le_refl|by right].
  - split; [by apply num_le_refl|]. split; [by apply num_le_total|by left].
Qed.

Lemma Math_max_again (a b : number) : Math_max (Math_max a b) b = Math_max a b.
Proof.
  destruct a as [p| | |], b as [q| | |]; simpl; try done.
  all: try (destruct (Qle_bool p q) eqn:E; simpl; [by destruct (Qle_bool q q)|by rewrite E]).
  all: by destruct (Qle_bool _ _).
Qed.

Lemma fold_max_NaN (plays : list number) (w : number) :
  fold_left Math_max plays w = NaN <-> w = NaN \/ NaN ∈ plays.
Proof.
  revert w. induction plays as [|p plays IH]; intros w; simpl.
  - split; [auto|]. intros [H|H]; [done|by apply elem_of_nil in H].
  - rewrite IH, Math_max_is_NaN, elem_of_cons. split.
    + intros [[H|H]|H]; [by left|right; by left|right; by right].
    + intros [H|[H|H]]; [left; by left|left; by right|by right].
Qed.

Lemma fold_max_bounds (plays : list number) (w0 w : number) :
  fold_left Math_max plays w0 = w -> w <> NaN ->
  num_le w0 w = true /\ (forall p, p ∈ plays -> num_le p w = true) /\
  (w = w0 \/ w ∈ plays).
Proof.
  revert w0. induction plays as [|p plays IH]; intros w0; simpl.
  - intros <- Hn. split; [by apply num_le_refl|]. split; [|by left].
    intros p Hp. by apply elem_of_nil in Hp.
  - intros Hw Hn. destruct (IH _ Hw Hn) as (H0 & Hall & Hmem).
    assert (Hm : Math_max w0 p <> NaN).
    { intros Hm. apply Hn. rewrite <- Hw. apply fold_max_NaN. by left. }
    destruct (Math_max_bounds w0 p Hm) as (Hw0 & Hp & Hor).
    split; [by eapply num_le_trans|]. split.
    + intros p' [->|Hp']%elem_of_cons; [by eapply num_le_trans|by apply Hall].
    + destruct Hmem as [->|Hmem]; [|right; by right].
      destruct Hor as [->| ->]; [by left|right; left].
Qed.

Lemma derived_key_not_inherited (k : jsstring) :
  js "/VIDEO/" `prefix_of` k -> isInherited k = false /\ k <> js "__proto__".
Proof.
  intros [rest ->]. split; [|discriminate].
  apply bool_decide_eq_false. unfold OBJECT_PROTOTYPE_NAMES. intros Hin.
  repeat (apply elem_of_cons in Hin as [Hin|Hin]; [discriminate|]).
  by apply elem_of_nil in Hin.
Qed.

Lemma lookup_writeWeight_eq (weights : gmap jsstring number) (k : jsstring) (w : number) :
  k <> js "__proto__" -> writeWeight weights k w !! k = Some w.
Proof.
  intros Hk. unfold writeWeight. rewrite bool_decide_eq_false_2 by done.
  apply lookup_insert_eq.
Qed.

Lemma lookup_writeWeight_ne (weights : gmap jsstring number) (k' k : jsstring)
  (w : number) :
  k <> k' -> writeWeight weights k' w !! k = weights !! k.
Proof.
  intros Hk. unfold writeWeight. case_bool_decide; [done|]. by apply lookup_insert_ne.
Qed.

Lemma readWeight_writeWeight_eq (weights : gmap jsstring number) (k : jsstring)
  (w : number) :
  k <> js "__proto__" -> readWeight (writeWeight weights k w) k = w.
Proof. intros Hk. unfold readWeight. by rewrite lookup_writeWeight_eq. Qed.

Lemma readWeight_writeWeight_ne (weights : gmap jsstring number) (k' k : jsstring)
  (w : number) :
  k <> k' -> readWeight (writeWeight weights k' w) k = readWeight weights k.
Proof. intros Hk. unfold readWeight. by rewrite lookup_writeWeight_ne. Qed.

Lemma lookup_writeWeight_proto (weights : gmap jsstring number) (k' : jsstring)
  (w : number) :
  writeWeight weights k' w !! js "__proto__" = weights !! js "__proto__".
Proof.
  unfold writeWeight. case_bool_decide as Hp; [done|].
  by rewrite lookup_insert_ne.
Qed.

Section WeightFacts.
Context {rt : JsRuntime}.

(** What one iteration leaves under a key other than [__proto__]. *)
Lemma weightsStep_lookup (weights : gmap jsstring number) (songKey : jsstring)
  (stats : JsValue) (k : jsstring) :
  k <> js "__proto__" ->
  let hit := bool_decide (songKey = k) || bool_decide (markerRelativeKey songKey = Some k) in
  weightsStep weights (songKey, stats) !! k
    = (if hit then Some (Math_max (readWeight weights k) (totalPlaysOf stats))
       else weights !! k) /\
  readWeight (weightsStep weights (songKey, stats)) k
    = (if hit then Math_max (readWeight weights k) (totalPlaysOf stats)
       else readWeight weights k).
Proof.
  intros Hk. cbv zeta. unfold weightsStep.
  set (plays := totalPlaysOf stats).
  set (weights1 := match markerRelativeKey songKey with
                   | Some rel => writeWeight weights rel (Math_max (readWeight weights rel) plays)
                   | None => weights
                   end).
  assert (H1 : weights1 !! k
               = (if bool_decide (markerRelativeKey songKey = Some k)
                  then Some (Math_max (readWeight weights k) plays) else weights !! k) /\
               readWeight weights1 k
               = (if bool_decide (markerRelativeKey songKey = Some k)
                  then Math_max (readWeight weights k) plays else readWeight weights k)).
  { subst weights1. destruct (markerRelativeKey songKey) as [rel|]; [|done].
    destruct (decide (rel = k)) as [->|Hr].
    - rewrite bool_decide_eq_true_2 by done.
      by rewrite lookup_writeWeight_eq, readWeight_writeWeight_eq.
    - rewrite bool_decide_eq_false_2 by congruence.
      by rewrite lookup_writeWeight_ne, readWeight_writeWeight_ne. }
  destruct H1 as [H1 H2]. clearbody weights1.
  destruct (decide (songKey = k)) as [->|Hs].
  - rewrite bool_decide_eq_true_2 by done. cbn [orb].
    rewrite lookup_writeWeight_eq, readWeight_writeWeight_eq by done. rewrite H2.
    destruct (bool_decide (markerRelativeKey k = Some k)); [|done].
    by rewrite Math_max_again.
  - rewrite (bool_decide_eq_false_2 (songKey = k)) by done. cbn [orb].
    by rewrite lookup_writeWeight_ne, readWeight_writeWeight_ne.
Qed.

Lemma weightsStep_proto (weights : gmap jsstring number) (entry : jsstring * JsValue) :
  weightsStep weights entry !! js "__proto__" = weights !! js "__proto__".
Proof.
  destruct entry as [songKey stats]. unfold weightsStep.
  rewrite lookup_writeWeight_proto.
  destruct (markerRelativeKey songKey); [apply lookup_writeWeight_proto|done].
Qed.

Lemma playsUnder_cons (songKey : jsstring) (stats : JsValue) (entries : JsObject)
  (k : jsstring) :
  playsUnder ((songKey, stats) :: entries) k
    = if bool_decide (songKey = k) || bool_decide (markerRelativeKey songKey = Some k)
      then totalPlaysOf stats :: playsUnder entries k
      else playsUnder entries k.
Proof.
  unfold playsUnder. cbn [omap list_omap fst snd].
  by destruct (bool_decide (songKey = k) || bool_decide (markerRelativeKey songKey = Some k)).
Qed.

(** What the loop leaves under a key other than [__proto__]: the maximum of
    what was read there before and of the play counts written there. *)
Lemma weightsFold_lookup (entries : JsObject) (weights : gmap jsstring number)
  (k : jsstring) :
  k <> js "__proto__" ->
  fold_left weightsStep entries weights !! k
    = match playsUnder entries k with
      | [] => weights !! k
      | plays => Some (fold_left Math_max plays (readWeight weights k))
      end /\
  readWeight (fold_left weightsStep entries weights) k
    = fold_left Math_max (playsUnder entries k) (readWeight weights k).
Proof.
  intros Hk. revert weights.
  induction entries as [|[songKey stats] entries IH]; intros weights; [done|].
  cbn [fold_left]. rewrite playsUnder_cons.
  destruct (IH (weightsStep weights (songKey, stats))) as [IH1 IH2].
  destruct (weightsStep_lookup weights songKey stats k Hk) as [H1 H2].
  rewrite IH1, IH2, H1, H2.
  destruct (bool_decide (songKey = k) || bool_decide (markerRelativeKey songKey = Some k)).
  - cbn [fold_left]. split; [|done]. by destruct (playsUnder entries k).
  - done.
Qed.

Lemma weightsFold_proto (entries : JsObject) (weights : gmap jsstring number) :
  fold_left weightsStep entries weights !! js "__proto__" = weights !! js "__proto__".
Proof.
  revert weights. induction entries as [|entry entries IH]; intros weights; [done|].
  cbn [fold_left]. by rewrite IH, weightsStep_proto.
Qed.

Lemma playsUnder_nonempty (entries : JsObject) (k : jsstring) :
  playsUnder entries k <> [] <->
  (exists stats, (k, stats) ∈ entries) \/
  (exists songKey stats, (songKey, stats) ∈ entries /\ markerRelativeKey songKey = Some k).
Proof.
  induction entries as [|[songKey stats] entries IH].
  - split; [done|]. intros [(? & H)|(? & ? & H & _)]; by apply elem_of_nil in H.
  - rewrite playsUnder_cons.
    destruct (bool_decide (songKey = k) || bool_decide (markerRelativeKey songKey = Some k))
      eqn:Eh.
    + split; [intros _|done].
      apply orb_true_iff in Eh as [->%bool_decide_eq_true|Hd%bool_decide_eq_true].
      * left. exists stats. left.
      * right. exists songKey, stats. split; [left|done].
    + apply orb_false_iff in Eh as [Hs%bool_decide_eq_false Hd%bool_decide_eq_false].
      rewrite IH. split.
      * intros [(st & Hin)|(sk & st & Hin & Hm)].
        -- left. exists st. by right.
        -- right. exists sk, st. split; [by right|done].
      * intros [(st & Hin)|(sk & st & Hin & Hm)].
        -- apply elem_of_cons in Hin as [[= <- <-]|Hin]; [done|]. left. by exists st.
        -- apply elem_of_cons in Hin as [[= -> ->]|Hin]; [done|].
           right. by exists sk, st.
Qed.

(** Where no raw key names an inherited property, the own properties are
    the dictionary of [historyStep]. *)
Lemma weightsFold_dictionary (entries : JsObject) (weights : gmap jsstring number) :
  (forall songKey stats, (songKey, stats) ∈ entries -> isInherited songKey = false) ->
  fold_left weightsStep entries weights = fold_left historyStep entries weights.
Proof.
  revert weights. induction entries as [|[songKey stats] entries IH]; intros weights Hraw;
    [done|].
  cbn [fold_left].
  assert (Hstep : weightsStep weights (songKey, stats) = historyStep weights (songKey, stats)).
  { assert (Hplain : forall (m : gmap jsstring number) k w,
               isInherited k = false ->
               writeWeight m k (Math_max (readWeight m k) w)
               = <[k := Math_max (default (ofZ 0) (m !! k)) w]> m).
    { intros m k w Hi. unfold writeWeight, readWeight.
      case_bool_decide as Hp; [by subst k|]. rewrite Hi. by destruct (m !! k). }
    unfold weightsStep, historyStep.
    destruct (markerRelativeKey songKey) as [rel|] eqn:Er.
    - destruct (derived_key_not_inherited rel) as [Hi _];
        [by eapply markerRelativeKey_prefix|].
      rewrite (Hplain weights rel _ Hi). apply Hplain, (Hraw songKey stats). left.
    - apply Hplain, (Hraw songKey stats). left. }
  rewrite Hstep. apply IH. intros sk st Hin. apply (Hraw sk st). by right.
Qed.

Lemma playsUnder_elem (entries : JsObject) (k : jsstring) (plays : number) :
  plays ∈ playsUnder entries k <->
  exists songKey stats,
    (songKey, stats) ∈ entries /\
    (songKey = k \/ markerRelativeKey songKey = Some k) /\
    plays = totalPlaysOf stats.
Proof.
  unfold playsUnder. rewrite list_elem_of_omap. split.
  - intros ([songKey stats] & Hin & Hf). cbn [fst snd] in Hf.
    destruct (bool_decide (songKey = k) || bool_decide (markerRelativeKey songKey = Some k))
      eqn:Eh; [|discriminate].
    injection Hf as <-. exists songKey, stats. split; [done|]. split; [|done].
    apply orb_true_iff in Eh as [Hs%bool_decide_eq_true|Hd%bool_decide_eq_true]; auto.
  - intros (songKey & stats & Hin & Hk & ->). exists (songKey, stats). split; [done|].
    cbn [fst snd].
    replace (bool_decide (songKey = k) || bool_decide (markerRelativeKey songKey = Some k))
      with true; [done|].
    symmetry. apply orb_true_iff.
    destruct Hk as [Hk|Hk]; [left|right]; by apply bool_decide_eq_true.
Qed.

(** X20.  The own properties of the weights object are the raw keys of the
    history document other than [__proto__] and the keys derived from them.
    Where no raw key names a property a plain object inherits, the object
    is the dictionary of [historyWeightsOf]. *)
Theorem historyWeights_keys (h entries : JsObject) (k : jsstring) :
  entriesOf (getField h "perSong") = Some entries ->
  (is_Some (weightsObjectOf (JObj h) !! k) <->
   k <> js "__proto__" /\
   ((exists stats, (k, stats) ∈ entries) \/
    (exists songKey stats,
       (songKey, stats) ∈ entries /\ markerRelativeKey songKey = Some k))) /\
  ((forall songKey stats, (songKey, stats) ∈ entries -> isInherited songKey = false) ->
   weightsObjectOf (JObj h) = historyWeightsOf (JObj h)).
Proof.
  intros He. unfold weightsObjectOf, historyWeightsOf. rewrite He. split.
  - rewrite <- playsUnder_nonempty.
    destruct (decide (k = js "__proto__")) as [->|Hk].
    + rewrite weightsFold_proto, lookup_empty. split; [by intros [? ?]|by intros [? _]].
    + destruct (weightsFold_lookup entries ∅ k Hk) as [-> _].
      destruct (playsUnder entries k).
      * rewrite lookup_empty. split; [by intros [? ?]|by intros [_ ?]].
      * split; [done|]. intros _. by eexists.
  - apply weightsFold_dictionary.
Qed.

(** X21.  The weight stored under a key is the maximum of the play counts
    of the entries that write under it, raw or derived, starting from 0, or
    from NaN when the key names an inherited property: it is NaN exactly
    when the key names an inherited property or one of these play counts is
    NaN, and otherwise it is 0 or one of these play counts, not negative
    and not below any of them. *)
Theorem historyWeights_bounds (h entries : JsObject) (k : jsstring) (w : number) :
  entriesOf (getField h "perSong") = Some entries ->
  weightsObjectOf (JObj h) !! k = Some w ->
  w = fold_left Math_max (playsUnder entries k) (if isInherited k then NaN else ofZ 0) /\
  (forall plays,
     plays ∈ playsUnder entries k <->
     exists songKey stats,
       (songKey, stats) ∈ entries /\
       (songKey = k \/ markerRelativeKey songKey = Some k) /\
       plays = totalPlaysOf stats) /\
  (w = NaN <-> isInherited k = true \/ NaN ∈ playsUnder entries k) /\
  (w <> NaN ->
   num_le (ofZ 0) w = true /\
   (forall plays, plays ∈ playsUnder entries k -> num_le plays w = true) /\
   (w = ofZ 0 \/ w ∈ playsUnder entries k)).
Proof.
  intros He. unfold weightsObjectOf. rewrite He. intros Hw.
  assert (Hk : k <> js "__proto__").
  { intros ->. by rewrite weightsFold_proto, lookup_empty in Hw. }
  assert (Hval : w = fold_left Math_max (playsUnder entries k)
                       (if isInherited k then NaN else ofZ 0)).
  { destruct (weightsFold_lookup entries ∅ k Hk) as [H1 _]. rewrite H1 in Hw.
    unfold readWeight in Hw. rewrite lookup_empty in Hw.
    destruct (playsUnder entries k); [done|]. by injection Hw as <-. }
  split; [exact Hval|]. split; [apply playsUnder_elem|]. split.
  - rewrite Hval at 1. rewrite fold_max_NaN.
    destruct (isInherited k); split; intros [H|H]; auto; discriminate.
  - intros Hn. symmetry in Hval.
    destruct (fold_max_bounds _ _ _ Hval Hn) as (H0 & Hall & Hmem).
    destruct (isInherited k) eqn:Ei.
    + exfalso. apply Hn. rewrite <- Hval. apply fold_max_NaN. by left.
    + split; [done|]. split; [done|]. destruct Hmem; [by left|by right].
Qed.


End WeightFacts.

Lemma historyWeights_keys_witness :
  entriesOf (getField [ (js "perSong",
          JObj [ (js "__proto__", JObj [ (js "totalPlays", JNum (ofZ 4)) ]);
                 (js "D:\Music/VIDEO/80s\clip.mp4",
                  JObj [ (js "totalPlays", JNum (ofZ 4)) ]) ]) ] "perSong")
    = Some [ (js "__proto__", JObj [ (js "totalPlays", JNum (ofZ 4)) ]);
             (js "D:\Music/VIDEO/80s\clip.mp4", JObj [ (js "totalPlays", JNum (ofZ 4)) ]) ] /\
  is_Some (weightsObjectOf (rt := exampleRuntime)
             (JObj [ (js "perSong",
                JObj [ (js "__proto__", JObj [ (js "totalPlays", JNum (ofZ 4)) ]);
                       (js "D:\Music/VIDEO/80s\clip.mp4",
                        JObj [ (js "totalPlays", JNum (ofZ 4)) ]) ]) ])
           !! js "/VIDEO/80s/clip.mp4") /\
  ~ is_Some (weightsObjectOf (rt := exampleRuntime)
               (JObj [ (js "perSong",
                  JObj [ (js "__proto__", JObj [ (js "totalPlays", JNum (ofZ 4)) ]);
                         (js "D:\Music/VIDEO/80s\clip.mp4",
                          JObj [ (js "totalPlays", JNum (ofZ 4)) ]) ]) ])
             !! js "__proto__").
Proof.
  assert (H : entriesOf (getField [ (js "perSong",
          JObj [ (js "__proto__", JObj [ (js "totalPlays", JNum (ofZ 4)) ]);
                 (js "D:\Music/VIDEO/80s\clip.mp4",
                  JObj [ (js "totalPlays", JNum (ofZ 4)) ]) ]) ] "perSong")
    = Some [ (js "__proto__", JObj [ (js "totalPlays", JNum (ofZ 4)) ]);
             (js "D:\Music/VIDEO/80s\clip.mp4", JObj [ (js "totalPlays", JNum (ofZ 4)) ]) ])
    by reflexivity.
  split; [exact H|]. split.
  - apply (proj2 (proj1 (historyWeights_keys (rt := exampleRuntime) _ _ _ H))).
    split; [discriminate|]. right. eexists _, _. split; [right; left|].
    vm_compute. reflexivity.
  - intros [Hne _]%(proj1 (proj1 (historyWeights_keys (rt := exampleRuntime) _ _ _ H))).
    by apply Hne.
Defined.

Lemma historyWeights_bounds_witness :
  entriesOf (getField [ (js "perSong",
          JObj [ (js "constructor", JObj [ (js "totalPlays", JNum (ofZ 4)) ]);
                 (js "__proto__", JObj [ (js "totalPlays", JNum (ofZ 4)) ]);
                 (js "D:\Music/VIDEO/80s\clip.mp4",
                  JObj [ (js "totalPlays", JNum (ofZ 4)) ]);
                 (js "/VIDEO/80s/clip.mp4",
                  JObj [ (js "totalPlays", JNum (ofZ 7)) ]) ]) ] "perSong")
    = Some [ (js "constructor", JObj [ (js "totalPlays", JNum (ofZ 4)) ]);
             (js "__proto__", JObj [ (js "totalPlays", JNum (ofZ 4)) ]);
             (js "D:\Music/VIDEO/80s\clip.mp4", JObj [ (js "totalPlays", JNum (ofZ 4)) ]);
             (js "/VIDEO/80s/clip.mp4", JObj [ (js "totalPlays", JNum (ofZ 7)) ]) ] /\
  weightsObjectOf (rt := exampleRuntime) inheritedKeysHistory !! js "/VIDEO/80s/clip.mp4"
    = Some (ofZ 7) /\
  weightsObjectOf (rt := exampleRuntime) inheritedKeysHistory !! js "constructor"
    = Some NaN /\
  weightsObjectOf (rt := exampleRuntime) inheritedKeysHistory !! js "__proto__" = None /\
  (ofZ 7 = NaN <->
   isInherited "/VIDEO/80s/clip.mp4" = true \/
   NaN ∈ playsUnder (rt := exampleRuntime)
           [ (js "constructor", JObj [ (js "totalPlays", JNum (ofZ 4)) ]);
             (js "__proto__", JObj [ (js "totalPlays", JNum (ofZ 4)) ]);
             (js "D:\Music/VIDEO/80s\clip.mp4", JObj [ (js "totalPlays", JNum (ofZ 4)) ]);
             (js "/VIDEO/80s/clip.mp4", JObj [ (js "totalPlays", JNum (ofZ 7)) ]) ]
           "/VIDEO/80s/clip.mp4").
Proof.
  assert (H : entriesOf (getField [ (js "perSong",
          JObj [ (js "constructor", JObj [ (js "totalPlays", JNum (ofZ 4)) ]);
                 (js "__proto__", JObj [ (js "totalPlays", JNum (ofZ 4)) ]);
                 (js "D:\Music/VIDEO/80s\clip.mp4",
                  JObj [ (js "totalPlays", JNum (ofZ 4)) ]);
                 (js "/VIDEO/80s/clip.mp4",
                  JObj [ (js "totalPlays", JNum (ofZ 7)) ]) ]) ] "perSong")
    = Some [ (js "constructor", JObj [ (js "totalPlays", JNum (ofZ 4)) ]);
             (js "__proto__", JObj [ (js "totalPlays", JNum (ofZ 4)) ]);
             (js "D:\Music/VIDEO/80s\clip.mp4", JObj [ (js "totalPlays", JNum (ofZ 4)) ]);
             (js "/VIDEO/80s/clip.mp4", JObj [ (js "totalPlays", JNum (ofZ 7)) ]) ])
    by reflexivity.
  assert (Hw : weightsObjectOf (rt := exampleRuntime) inheritedKeysHistory
                 !! js "/VIDEO/80s/clip.mp4" = Some (ofZ 7))
    by (vm_compute; reflexivity).
  split; [exact H|]. split; [exact Hw|].
  split; [vm_compute; reflexivity|]. split; [vm_compute; reflexivity|].
  exact (proj1 (proj2 (proj2 (historyWeights_bounds (rt := exampleRuntime) _ _ _ _ H Hw)))).
Defined.

(* ================================================================== *)
(** ** Year windows of the set builder *)

Lemma clampYear_bounds (year : Z) : YEAR_DOMAIN_MIN <= clampYear year <= YEAR_DOMAIN_MAX.
Proof. unfold clampYear, clampZ, YEAR_DOMAIN_MIN, YEAR_DOMAIN_MAX. lia. Qed.

Lemma computeSpanWindow_bounds (year : Z) (span : SpanValue) :
  YEAR_DOMAIN_MIN <= range_start (computeSpanWindow year span) /\
  range_start (computeSpanWindow year span) <= range_end (computeSpanWindow year span) /\
  range_end (computeSpanWindow year span) <= YEAR_DOMAIN_MAX.
Proof.
  destruct span as [n|]; simpl.
  - pose proof (clampYear_bounds (year - n)). pose proof (clampYear_bounds (year + n)). lia.
  - unfold YEAR_DOMAIN_MIN, YEAR_DOMAIN_MAX. lia.
Qed.

(** X22.  The span window of a year of the dial and a span that is not
    negative holds exactly the years of the domain 1950 to 2025 that are no
    further than the span from the year; the full span is the domain. *)
Theorem computeSpanWindow_years (year span y : Z) :
  YEAR_DOMAIN_MIN <= year <= YEAR_DOMAIN_MAX ->
  0 <= span ->
  (inRange y (computeSpanWindow year (Span span))
   <-> YEAR_DOMAIN_MIN <= y <= YEAR_DOMAIN_MAX /\ year - span <= y <= year + span) /\
  (inRange y (computeSpanWindow year SpanFull) <-> YEAR_DOMAIN_MIN <= y <= YEAR_DOMAIN_MAX).
Proof.
  intros Hyear Hspan.
  unfold inRange, computeSpanWindow, clampYear, clampZ, YEAR_DOMAIN_MIN, YEAR_DOMAIN_MAX in *.
  cbn [range_start range_end]. lia.
Qed.

Lemma computeSpanWindow_years_witness :
  (YEAR_DOMAIN_MIN <= 1952 <= YEAR_DOMAIN_MAX) /\ 0 <= 5 /\
  computeSpanWindow 1952 (Span 5) = {| range_start := 1950; range_end := 1957 |} /\
  (inRange 1950 (computeSpanWindow 1952 (Span 5))
   <-> YEAR_DOMAIN_MIN <= 1950 <= YEAR_DOMAIN_MAX /\ 1952 - 5 <= 1950 <= 1952 + 5).
Proof.
  assert (H1 : YEAR_DOMAIN_MIN <= 1952 <= YEAR_DOMAIN_MAX) by (vm_compute; intuition discriminate).
  assert (H2 : 0 <= 5) by lia.
  split; [exact H1|]. split; [exact H2|]. split; [reflexivity|].
  exact (proj1 (computeSpanWindow_years 1952 5 1950 H1 H2)).
Defined.

Lemma intersectYearRanges_inRange (left_ right_ : YearRange) (y : Z) :
  inRange y left_ /\ inRange y right_ <->
  exists range, intersectYearRanges left_ right_ = Some range /\ inRange y range.
Proof.
  unfold intersectYearRanges, inRange. cbv zeta.
  destruct (Z.ltb_spec (Z.min (range_end left_) (range_end right_))
              (Z.max (range_start left_) (range_start right_))) as [H|H].
  - split; [lia|]. by intros (range & ? & _).
  - split.
    + intros Hy. eexists. split; [done|]. simpl. lia.
    + intros (range & [= <-] & Hy). simpl in Hy. lia.
Qed.

(** X23.  The intersection of two year ranges holds exactly the years of
    both, and is null exactly when no year lies in both; the order of the
    two ranges does not matter. *)
Theorem intersectYearRanges_years (left_ right_ : YearRange) :
  (forall y, inRange y left_ /\ inRange y right_ <->
             exists range, intersectYearRanges left_ right_ = Some range /\ inRange y range) /\
  (intersectYearRanges left_ right_ = None <->
   forall y, ~ (inRange y left_ /\ inRange y right_)) /\
  intersectYearRanges left_ right_ = intersectYearRanges right_ left_.
Proof.
  split; [apply intersectYearRanges_inRange|]. split.
  - split.
    + intros Hnone y [range [Heq _]]%intersectYearRanges_inRange. congruence.
    + intros Hno. unfold intersectYearRanges, inRange in *. cbv zeta.
      destruct (Z.ltb_spec (Z.min (range_end left_) (range_end right_))
                  (Z.max (range_start left_) (range_start right_))) as [H|H]; [done|].
      exfalso. apply (Hno (Z.max (range_start left_) (range_start right_))). lia.
  - unfold intersectYearRanges. cbv zeta.
    by rewrite (Z.max_comm (range_start left_)), (Z.min_comm (range_end left_)).
Qed.

Lemma getEraDefinition_id (eraId : EraId) : era_id (getEraDefinition eraId) = eraId.
Proof. by destruct eraId. Qed.

Lemma effectiveRange_none (selectedYear : Z) (selectedSpan : SpanValue) :
  effectiveRange selectedYear selectedSpan EraNone
  = Some (computeSpanWindow selectedYear selectedSpan).
Proof. done. Qed.

Lemma effectiveRange_inRange (selectedYear : Z) (selectedSpan : SpanValue)
  (selectedEraId : EraId) (y : Z) :
  (exists range,
     effectiveRange selectedYear selectedSpan selectedEraId = Some range /\
     inRange y range)
  <-> inRange y (computeSpanWindow selectedYear selectedSpan) /\
      era_start (getEraDefinition selectedEraId) <= y
        <= era_end (getEraDefinition selectedEraId).
Proof.
  pose proof (computeSpanWindow_bounds selectedYear selectedSpan) as Hb.
  destruct (decide (selectedEraId = EraNone)) as [->|Hne].
  - rewrite effectiveRange_none.
    change (era_start (getEraDefinition EraNone)) with 1950.
    change (era_end (getEraDefinition EraNone)) with 2025.
    unfold inRange, YEAR_DOMAIN_MIN, YEAR_DOMAIN_MAX in *. split.
    + intros (range & [= <-] & Hy). lia.
    + intros [Hy _]. by eexists.
  - unfold effectiveRange. cbv zeta.
    rewrite (bool_decide_eq_false_2 _ Hne). cbn [orb].
    set (eraRange := {| range_start := era_start (getEraDefinition selectedEraId);
                        range_end := era_end (getEraDefinition selectedEraId) |}).
    change (era_start (getEraDefinition selectedEraId) <= y
              <= era_end (getEraDefinition selectedEraId)) with (inRange y eraRange).
    rewrite (intersectYearRanges_inRange _ eraRange y).
    destruct (intersectYearRanges _ eraRange) as [range|]; simpl; [done|].
    split; by intros (range & ? & _).
Qed.

(** X24.  Every era has its entry in the table, and the effective range of
    the rings holds exactly the years of the span window that are years of
    the selected era; it is null exactly when there is no such year, which
    only an era other than 'none' can bring about. *)
Theorem effectiveRange_years (selectedYear : Z) (selectedSpan : SpanValue)
  (selectedEraId : EraId) :
  era_id (getEraDefinition selectedEraId) = selectedEraId /\
  (forall y,
     (exists range,
        effectiveRange selectedYear selectedSpan selectedEraId = Some range /\
        inRange y range)
     <-> inRange y (computeSpanWindow selectedYear selectedSpan) /\
         era_start (getEraDefinition selectedEraId) <= y
           <= era_end (getEraDefinition selectedEraId)) /\
  (effectiveRange selectedYear selectedSpan selectedEraId = None <->
   forall y, ~ (inRange y (computeSpanWindow selectedYear selectedSpan) /\
                era_start (getEraDefinition selectedEraId) <= y
                  <= era_end (getEraDefinition selectedEraId))) /\
  effectiveRange selectedYear selectedSpan EraNone
    = Some (computeSpanWindow selectedYear selectedSpan).
Proof.
  split; [apply getEraDefinition_id|].
  split; [apply effectiveRange_inRange|]. split; [|apply effectiveRange_none].
  split.
  - intros Heff y [range [Heq _]]%effectiveRange_inRange. congruence.
  - intros Hno.
    destruct (effectiveRange selectedYear selectedSpan selectedEraId) as [range|] eqn:E;
      [|done].
    exfalso.
    assert (Hne : range_start range <= range_end range).
    { revert E. unfold effectiveRange. cbv zeta.
      destruct (bool_decide (selectedEraId = EraNone)); cbn [orb andb].
      - intros [= <-]. apply computeSpanWindow_bounds.
      - unfold intersectYearRanges. cbv zeta. cbn [range_start range_end].
        destruct (Z.ltb_spec
          (Z.min (range_end (computeSpanWindow selectedYear selectedSpan))
                 (era_end (getEraDefinition selectedEraId)))
          (Z.max (range_start (computeSpanWindow selectedYear selectedSpan))
                 (era_start (getEraDefinition selectedEraId)))); cbn [orb andb]; [done|].
        intros [= <-]. cbn [range_start range_end]. lia. }
    apply (Hno (range_start range)). apply effectiveRange_inRange.
    exists range. split; [done|]. unfold inRange. lia.
Qed.

(* ================================================================== *)
(** ** The pool and the preview of the set builder *)

Section PoolFacts.
Context {rt : JsRuntime} {fp : Float64}.
Variable recencyOk : VideoRecord -> bool.

Lemma poolRow_true (range : YearRange) (ids : list jsstring) (genre : jsstring)
  (row : VideoRecord) :
  poolRow recencyOk range ids genre row = true <->
  match VideoRecord.tier row with
  | Some t => toLowerCase (tierName t)
  | None => []
  end ∈ ids /\
  (exists y, VideoRecord.year row = Some y /\ inRange y range) /\
  recencyOk row = true /\
  (genre = js "all" \/ VideoRecord.genre row = genre).
Proof.
  unfold poolRow, inRange. cbv zeta.
  case_bool_decide as Htier; simpl.
  - destruct (VideoRecord.year row) as [y|]; simpl.
    + destruct (Z.ltb_spec y (range_start range)); simpl.
      { split; [done|]. intros (_ & (y' & [= <-] & ?) & _). lia. }
      destruct (Z.ltb_spec (range_end range) y); simpl.
      { split; [done|]. intros (_ & (y' & [= <-] & ?) & _). lia. }
      destruct (recencyOk row); simpl; [|split; [done|by intros (_ & _ & ? & _)]].
      repeat case_bool_decide; simpl.
      * split; [|done]. intros _. repeat split; eauto with lia.
      * split; [|done]. intros _. repeat split; eauto with lia.
      * split; [|done]. intros _. repeat split; eauto with lia.
      * split; [done|]. intros (_ & _ & _ & [?|?]); done.
    + split; [done|]. by intros (_ & (y & ? & _) & _).
  - split; [done|]. by intros (? & _).
Qed.

(** X25.  Every row of the preview is a row of the library of an active
    tier whose year lies in the span window and in the selected era and
    which passes the recency and genre checks; the preview holds the count
    clamped to 1..50, or the whole pool when that is smaller, so it is
    empty only when the pool is; an era without a year in the span window
    empties it. *)
Theorem previewOf_rows (draws : nat -> number) (historyWeights : gmap jsstring number)
  (selectedYear : Z) (selectedSpan : SpanValue) (selectedEraId : EraId)
  (selectedTier : TierSelection) (selectedCount : Z) (selectedGenre : jsstring)
  (rows : list VideoRecord) :
  let pool :=
    filteredPool recencyOk (effectiveRange selectedYear selectedSpan selectedEraId)
      (tierSelectionToIds selectedTier) selectedGenre rows in
  let preview :=
    previewOf recencyOk draws historyWeights selectedYear selectedSpan selectedEraId
      selectedTier selectedCount selectedGenre rows in
  (forall row, row ∈ preview ->
     row ∈ rows /\
     match VideoRecord.tier row with
     | Some t => toLowerCase (tierName t)
     | None => []
     end ∈ tierSelectionToIds selectedTier /\
     (exists y, VideoRecord.year row = Some y /\
                inRange y (computeSpanWindow selectedYear selectedSpan) /\
                era_start (getEraDefinition selectedEraId) <= y
                  <= era_end (getEraDefinition selectedEraId)) /\
     recencyOk row = true /\
     (selectedGenre = js "all" \/ VideoRecord.genre row = selectedGenre)) /\
  (exists rest, preview ++ rest ≡ₚ pool) /\
  Z.of_nat (length preview) = Z.min (clampZ selectedCount 1 50) (Z.of_nat (length pool)) /\
  (length preview <= 50)%nat /\
  (preview = [] <-> pool = []) /\
  (effectiveRange selectedYear selectedSpan selectedEraId = None -> preview = []).
Proof.
  intros pool preview. subst preview. unfold previewOf. cbv zeta. fold pool.
  unfold weightedPick.
  destruct (pickLoop_spec draws (clampZ selectedCount 1 50) (ofZ 5) historyWeights
              (length pool) pool [] 0) as (taken & rest & -> & Hperm & Hlen); [done|].
  simpl app. simpl length in Hlen. rewrite Z.sub_0_r in Hlen.
  assert (Hclamp : 1 <= clampZ selectedCount 1 50 <= 50) by (unfold clampZ; lia).
  split; [|split; [by exists rest|split; [lia|split; [lia|split]]]].
  - intros row Hrow.
    assert (Hin : row ∈ pool).
    { rewrite <- Hperm. apply elem_of_app. by left. }
    unfold pool, filteredPool in Hin.
    destruct (effectiveRange selectedYear selectedSpan selectedEraId) as [range|] eqn:Eeff;
      [|by apply elem_of_nil in Hin].
    apply list_elem_of_filter in Hin as [Hp Hrows]. apply Is_true_true in Hp.
    apply poolRow_true in Hp as (Htier & (y & Hy & Hrange) & Hrec & Hgenre).
    split; [done|]. split; [done|]. split; [|done].
    exists y. split; [done|].
    apply (effectiveRange_inRange selectedYear selectedSpan selectedEraId y).
    exists range. by rewrite Eeff.
  - split.
    + intros ->. simpl in Hlen. apply length_zero_iff_nil. lia.
    + intros Hpool. rewrite Hpool in Hlen. simpl in Hlen. apply length_zero_iff_nil. lia.
  - intros Heff. apply length_zero_iff_nil.
    assert (pool = []) as Hpool by (unfold pool; by rewrite Heff).
    rewrite Hpool in Hlen. simpl in Hlen. lia.
Qed.

End PoolFacts.

(* ================================================================== *)
(** ** Searching for a word of a record *)

Lemma splitAtRuns_whole (inClass : N -> bool) (cur : jsstring) (inRun : bool)
  (s : jsstring) :
  (forall c, c ∈ s -> inClass c = false) ->
  splitAtRuns inClass cur inRun s = [cur ++ s].
Proof.
  revert cur inRun. induction s as [|c s IH]; intros cur inRun Hs; simpl.
  - by rewrite app_nil_r.
  - rewrite (Hs c) by left. rewrite IH by (intros x Hx; apply Hs; by right).
    by rewrite <- app_assoc.
Qed.

Lemma alnumLower_facts (c : N) :
  isAlnumLower c = true ->
  isWhiteSpace c = false /\ (c =? 8211)%N || (c =? 8212)%N = false /\
  isDigit c || isLowerAZ c || (c =? chr_hyphen)%N = true /\ c <> chr_hyphen.
Proof.
  intros H. destruct (searchChar_facts c (or_intror H)) as (Hascii & _ & _ & Hws).
  unfold isAlnumLower in H. unfold isAscii in Hascii. apply N.ltb_lt in Hascii.
  split; [|split; [|split]].
  - destruct (isWhiteSpace c) eqn:E; [|done]. rewrite (Hws eq_refl) in H. done.
  - apply orb_false_iff. split; apply N.eqb_neq; lia.
  - apply orb_true_iff in H as [->| ->]; [by rewrite orb_true_r|done].
  - intros ->. done.
Qed.

Section WordSearch.
Context {rt : JsRuntime}.

(** A word of lower-case letters and digits that is not a four-digit number
    parses to the query of that one text token. *)
Lemma parseSearch_word (word : jsstring) :
  word <> [] -> forallb isAlnumLower word = true -> isFourDigits word = false ->
  parseSearch word = {| textTokens := [word]; yearValues := []; yearRanges := [] |}.
Proof.
  intros Hne Hall Hfour. rewrite forallb_elem in Hall.
  assert (Hlower : toLowerCase word = word).
  { unfold toLowerCase.
    rewrite forallb_fixed by (intros c Hc; by apply searchChar_facts; right; apply Hall).
    apply map_fixed. intros c Hc.
    destruct (searchChar_facts c (or_intror (Hall c Hc))) as (_ & -> & _). done. }
  assert (Hdash : normalizeDashes word = word).
  { apply map_fixed. intros c Hc.
    destruct (alnumLower_facts c (Hall c Hc)) as (_ & -> & _). done. }
  assert (Hsplit : splitAtRuns isWhiteSpace [] false word = [word]).
  { apply splitAtRuns_whole. intros c Hc. by apply alnumLower_facts, Hall. }
  assert (Htrim : trim word = word).
  { apply trim_fixed; intros c Hc; apply alnumLower_facts, Hall.
    - by apply head_Some_elem_of.
    - by apply last_Some_elem_of. }
  assert (Hraw : rawTokensOf word = [word]).
  { unfold rawTokensOf. cbv zeta. rewrite Hdash, Hlower, Hsplit. cbn [map].
    rewrite Htrim. rewrite filter_cons_True; [done|]. by destruct word. }
  assert (Hclean : cleanToken word = word).
  { apply filter_fixed. intros c Hc.
    destruct (alnumLower_facts c (Hall c Hc)) as (_ & _ & -> & _). done. }
  assert (Hkind : spec_classify word = KText word).
  { unfold spec_classify. rewrite Hfour.
    assert (parseYearRangeToken word = None) as ->; [|done].
    apply parseYearRangeToken_None. intros (m1 & m2 & -> & _).
    assert (Hh : chr_hyphen ∈ m1 ++ chr_hyphen :: m2).
    { apply elem_of_app. right. left. }
    by destruct (alnumLower_facts _ (Hall _ Hh)) as (_ & _ & _ & ?). }
  assert (Htok : tokenize word = [word]).
  { unfold tokenize. cbv zeta.
    assert (normalizeSearchText word = word) as ->.
    { apply normalizeSearchText_fixed.
      - intros c Hc. right. by apply Hall.
      - clear -Hall. induction word as [|c w IH]; [done|]. simpl.
        rewrite (Hall c) by left. simpl. apply IH. intros x Hx. apply Hall. by right.
      - done. }
    destruct word; [done|]. by rewrite Hsplit. }
  unfold parseSearch. rewrite parseLoop_spec, Hraw, kindsOf_cons, Hclean.
  assert (nonEmpty word = true) as -> by (by destruct word).
  rewrite Hkind. simpl. by rewrite Htok.
Qed.

(** X26.  Typing a beginning of any word of a record's search text keeps the
    record, unless what is typed is a four-digit number (which is read as
    a year): the query is then that one text token, and the text and year
    stage passes the record. *)
Theorem search_by_word_keeps_row (row : VideoRecord) (word typed : jsstring) :
  word ∈ tokenize (rowSearchText row) ->
  typed <> [] -> typed `prefix_of` word -> isFourDigits typed = false ->
  parseSearch typed = {| textTokens := [typed]; yearValues := []; yearRanges := [] |} /\
  textYearStage (parseSearch typed) row = true.
Proof.
  intros Hword Hne [rest ->] Hfour.
  pose proof (tokenize_shape (rowSearchText row)) as Hshape.
  rewrite Forall_forall in Hshape. destruct (Hshape _ Hword) as [_ Hall].
  rewrite forallb_app in Hall. apply andb_true_iff in Hall as [Hall _].
  rewrite (parseSearch_word typed Hne Hall Hfour). split; [done|].
  unfold textYearStage. cbv zeta. cbn [textTokens yearValues yearRanges length].
  assert (existsb (fun w => startsWith w typed) (tokenize (rowSearchText row)) = true) as Hex.
  { apply existsb_elem. exists (typed ++ rest). split; [done|].
    apply startsWith_prefix. by exists rest. }
  cbn [forallb]. rewrite Hex. done.
Qed.

End WordSearch.

Lemma search_by_word_keeps_row_witness :
  js "bohemian" ∈ tokenize (rt := exampleRuntime) (rowSearchText (rt := exampleRuntime) asciiRow) /\
  js "boh" <> [] /\ js "boh" `prefix_of` js "bohemian" /\ isFourDigits "boh" = false /\
  textYearStage (rt := exampleRuntime) (parseSearch (rt := exampleRuntime) "boh") asciiRow = true.
Proof.
  assert (H1 : js "bohemian" ∈ tokenize (rt := exampleRuntime)
                 (rowSearchText (rt := exampleRuntime) asciiRow)) by compute_done.
  assert (H2 : js "boh" <> []) by done.
  assert (H3 : js "boh" `prefix_of` js "bohemian") by (by exists (js "emian")).
  assert (H4 : isFourDigits "boh" = false) by reflexivity.
  split; [exact H1|]. split; [exact H2|]. split; [exact H3|]. split; [exact H4|].
  exact (proj2 (search_by_word_keeps_row (rt := exampleRuntime) asciiRow _ _ H1 H2 H3 H4)).
Defined.

(* ================================================================== *)
(** ** The years of a query *)

Lemma decimalValue_bounds (s : jsstring) :
  (forall c, c ∈ s -> isDigit c = true) ->
  0 <= decimalValue s < 10 ^ Z.of_nat (length s).
Proof.
  unfold decimalValue. intros Hs.
  assert (H : forall acc, 0 <= acc ->
    0 <= fold_left (fun acc c => 10 * acc + (Z.of_N c - 48)) s acc
      < (acc + 1) * 10 ^ Z.of_nat (length s));
    [|specialize (H 0 ltac:(lia)); lia].
  induction s as [|c s IH]; intros acc Hacc.
  - simpl. lia.
  - assert (Hc : 0 <= Z.of_N c - 48 <= 9).
    { specialize (Hs c ltac:(left)). unfold isDigit in Hs.
      apply andb_true_iff in Hs as [?%N.leb_le ?%N.leb_le]. lia. }
    cbn [fold_left length]. rewrite Nat2Z.inj_succ, Z.pow_succ_r by lia.
    destruct (IH (fun x Hx => Hs x ltac:(by right)) (10 * acc + (Z.of_N c - 48)) ltac:(lia))
      as [Hlo Hhi].
    split; [done|]. nia.
Qed.

Lemma spec_year_bounds (digits : jsstring) :
  YearDigits digits -> 0 <= spec_year digits <= 9999.
Proof.
  intros [Hd Hlen]. pose proof (decimalValue_bounds digits Hd) as Hb.
  unfold spec_year.
  assert (Hpow : 10 ^ Z.of_nat (length digits) <= 10000).
  { change 10000 with (10 ^ 4). apply Z.pow_le_mono_r; lia. }
  destruct (length digits =? 2)%nat eqn:E; [|lia].
  apply Nat.eqb_eq in E. rewrite E in Hb. change (10 ^ Z.of_nat 2) with 100 in Hb. lia.
Qed.

Lemma spec_rangeEnd_bounds (first second : jsstring) :
  YearDigits first -> YearDigits second -> 0 <= spec_rangeEnd first second <= 9999.
Proof.
  intros H1 H2. unfold spec_rangeEnd.
  destruct ((length first =? 4)%nat && (length second =? 2)%nat) eqn:E;
    [|by apply spec_year_bounds].
  apply andb_true_iff in E as [_ E2%Nat.eqb_eq].
  pose proof (spec_year_bounds first H1) as Hy.
  pose proof (decimalValue_bounds second (proj1 H2)) as Hd.
  rewrite E2 in Hd. change (10 ^ Z.of_nat 2) with 100 in Hd.
  assert (0 <= spec_year first / 100 <= 99).
  { split; [apply Z.div_pos; lia|]. apply Z.lt_succ_r, Z.div_lt_upper_bound; lia. }
  lia.
Qed.

Section QueryYears.
Context {rt : JsRuntime}.

(** X27.  Every exact year of a parsed query lies between 0 and 9999, and so
    do the two ends of every year range, the start not after the end. *)
Theorem parseSearch_year_bounds (query : jsstring) :
  Forall (fun y => 0 <= y <= 9999) (yearValues (parseSearch query)) /\
  Forall (fun range => 0 <= range_start range /\
                       range_start range <= range_end range /\
                       range_end range <= 9999)
         (yearRanges (parseSearch query)).
Proof.
  unfold parseSearch. rewrite parseLoop_spec. cbn [yearValues yearRanges app].
  unfold kindsOf. split; apply Forall_forall.
  - intros y (kind & (token & -> & _)%list_elem_of_fmap & Hy)%list_elem_of_omap.
    unfold spec_classify in Hy.
    destruct (parseYearRangeToken token); [discriminate|].
    destruct (isFourDigits token) eqn:E; [|discriminate].
    injection Hy as <-. apply andb_true_iff in E as [Hd Hlen%Nat.eqb_eq].
    rewrite forallb_elem in Hd. pose proof (decimalValue_bounds token Hd) as Hb.
    rewrite Hlen in Hb. change (10 ^ Z.of_nat 4) with 10000 in Hb. lia.
  - intros range (kind & (token & -> & _)%list_elem_of_fmap & Hr)%list_elem_of_omap.
    unfold spec_classify in Hr.
    destruct (parseYearRangeToken token) as [r|] eqn:E;
      [|destruct (isFourDigits token); discriminate].
    injection Hr as <-.
    apply parseYearRangeToken_spec in E as (m1 & m2 & _ & H1 & H2 & ->).
    pose proof (spec_year_bounds m1 H1). pose proof (spec_rangeEnd_bounds m1 m2 H1 H2).
    cbn [range_start range_end]. lia.
Qed.

End QueryYears.

(* ================================================================== *)
(** ** Title and artist from a file name *)

Lemma splitAtClass_whole (inClass : N -> bool) (cur s : jsstring) :
  (forall c, c ∈ s -> inClass c = false) -> splitAtClass inClass cur s = [cur ++ s].
Proof.
  revert cur. induction s as [|c s IH]; intros cur Hs; simpl.
  - by rewrite app_nil_r.
  - rewrite (Hs c) by left. rewrite IH by (intros x Hx; apply Hs; by right).
    by rewrite <- app_assoc.
Qed.

Lemma splitAtClass_nonnil (inClass : N -> bool) (cur s : jsstring) :
  splitAtClass inClass cur s <> [].
Proof.
  revert cur. induction s as [|c s IH]; intros cur; simpl; [done|].
  destruct (inClass c); [done|apply IH].
Qed.

Lemma pop_cons (piece : jsstring) (parts : list jsstring) :
  parts <> [] -> pop (piece :: parts) = pop parts.
Proof. by destruct parts. Qed.

(** The last piece of a path is what follows its last separator. *)
Lemma pop_splitAtClass (inClass : N -> bool) (dir name cur : jsstring) :
  (dir = [] -> cur = []) ->
  (forall c, last dir = Some c -> inClass c = true) ->
  (forall c, c ∈ name -> inClass c = false) ->
  pop (splitAtClass inClass cur (dir ++ name)) = name.
Proof.
  revert cur. induction dir as [|c dir IH]; intros cur Hcur Hlast Hname.
  - rewrite (Hcur eq_refl). simpl. by rewrite splitAtClass_whole.
  - simpl. destruct (inClass c) eqn:Ec.
    + rewrite pop_cons by apply splitAtClass_nonnil. apply IH; [done| |done].
      intros x Hx. apply Hlast. by destruct dir.
    + destruct dir as [|d dir].
      * specialize (Hlast c eq_refl). congruence.
      * apply IH; [done| |done]. intros x Hx. by apply Hlast.
Qed.

Lemma stripExtension_ext (base ext : jsstring) :
  ext <> [] -> forallb isAlnumI ext = true ->
  stripExtension (base ++ chr_dot :: ext) = base.
Proof.
  intros Hne Hext. induction base as [|c base IH]; simpl.
  - rewrite Hext. by destruct ext.
  - rewrite IH.
    assert (forallb isAlnumI (base ++ chr_dot :: ext) = false) as ->.
    { apply not_true_is_false. rewrite forallb_elem. intros Hall.
      specialize (Hall chr_dot). rewrite elem_of_app in Hall.
      assert (isAlnumI chr_dot = true) by (apply Hall; right; left). done. }
    by rewrite andb_false_r.
Qed.

Lemma splitOnGo_nonnil (sep cur : jsstring) (skip : nat) (s : jsstring) :
  splitOnGo sep cur skip s <> [].
Proof.
  revert cur skip. induction s as [|c s IH]; intros cur skip; simpl; [done|].
  destruct skip; [|apply IH]. destruct (startsWith _ _); [done|apply IH].
Qed.

Lemma join_cons (sep piece : jsstring) (parts : list jsstring) :
  parts <> [] -> join sep (piece :: parts) = piece ++ sep ++ join sep parts.
Proof. by destruct parts. Qed.

(** Up to the first separator [" - "]. *)
Lemma splitOnGo_first (cur a t : jsstring) :
  chr_hyphen ∉ a ->
  splitOnGo " - " cur 0 (a ++ js " - " ++ t) = (cur ++ a) :: splitOnGo " - " [] 0 t.
Proof.
  revert cur. induction a as [|c a IH]; intros cur Ha.
  - rewrite app_nil_r. reflexivity.
  - apply not_elem_of_cons in Ha as [Hc Ha].
    change ((c :: a) ++ js " - " ++ t) with (c :: (a ++ js " - " ++ t)).
    cbn [splitOnGo].
    assert (startsWith (c :: a ++ js " - " ++ t) " - " = false) as ->.
    { apply startsWith_false. intros [k Hk].
      destruct a as [|d a]; [by injection Hk|].
      apply not_elem_of_cons in Ha as [Hd _]. injection Hk as _ Hd'. by subst. }
    rewrite IH by done. by rewrite <- app_assoc.
Qed.

(** Joining the pieces of a split gives the string back. *)
Lemma join_splitOnGo (n : nat) (cur t : jsstring) :
  (length t <= n)%nat -> join " - " (splitOnGo " - " cur 0 t) = cur ++ t.
Proof.
  revert cur t. induction n as [|n IH]; intros cur t Hn.
  - destruct t; [|simpl in Hn; lia]. simpl. by rewrite app_nil_r.
  - destruct t as [|c t]; [simpl; by rewrite app_nil_r|].
    cbn [splitOnGo]. destruct (startsWith (c :: t) " - ") eqn:E.
    + apply startsWith_prefix in E as [t' Ht'].
      assert (c = chr_space /\ t = chr_hyphen :: chr_space :: t') as [-> ->]
        by (by injection Ht').
      change (splitOnGo " - " [] (length (js " - ") - 1) (chr_hyphen :: chr_space :: t'))
        with (splitOnGo " - " [] 0 t').
      rewrite join_cons by apply splitOnGo_nonnil.
      rewrite (IH [] t') by (simpl in Hn; lia). reflexivity.
    + rewrite (IH (cur ++ [c]) t) by (simpl in Hn; lia). by rewrite <- app_assoc.
Qed.

Lemma splitOnGo_whole (cur s : jsstring) :
  ~ occursIn " - " s -> splitOnGo " - " cur 0 s = [cur ++ s].
Proof.
  revert cur. induction s as [|c s IH]; intros cur Hs.
  - simpl. by rewrite app_nil_r.
  - cbn [splitOnGo].
    assert (startsWith (c :: s) " - " = false) as ->.
    { apply startsWith_false. intros [k Hk]. apply Hs. exists [], k. by rewrite Hk. }
    rewrite IH; [by rewrite <- app_assoc|].
    intros (pre & post & ->). apply Hs. by exists (c :: pre), post.
Qed.

Lemma includes_occursIn (hay needle : jsstring) :
  includes hay needle = true <-> occursIn needle hay.
Proof.
  unfold includes. rewrite negb_true_iff, Z.eqb_neq, indexOf_absent.
  destruct (occursIn_dec needle hay); tauto.
Qed.

(** X28.  For a path whose last segment is [artist - title.ext], with no
    hyphen in the artist part and an extension of letters and digits, the
    derived artist is the cleaned artist part and the derived title the
    cleaned title part (further [" - "] kept); a last segment without
    [" - "] gives the artist "Unknown" and its cleaned name as the title.
    Empty cleaned parts fall back to "Unknown" and "Untitled". *)
Theorem derived_title_and_artist (dir artist title base ext : jsstring) :
  (forall c, last dir = Some c -> isPathSep c = true) ->
  ext <> [] -> forallb isAlnumI ext = true ->
  (forall c, c ∈ artist ++ title ++ base -> isPathSep c = false) ->
  chr_hyphen ∉ artist ->
  ~ occursIn " - " base ->
  deriveArtist (dir ++ artist ++ js " - " ++ title ++ chr_dot :: ext)
    = orElse (cleanMusicText artist) "Unknown" /\
  deriveTitle (dir ++ artist ++ js " - " ++ title ++ chr_dot :: ext)
    = orElse (cleanMusicText title)
        (orElse (cleanMusicText (artist ++ js " - " ++ title)) "Untitled") /\
  deriveArtist (dir ++ base ++ chr_dot :: ext) = js "Unknown" /\
  deriveTitle (dir ++ base ++ chr_dot :: ext) = orElse (cleanMusicText base) "Untitled".
Proof.
  intros Hdir Hne Hext Hsep Hhyphen Hbase.
  assert (Hextsep : forall c, c ∈ chr_dot :: ext -> isPathSep c = false).
  { intros c [->|Hc]%elem_of_cons; [done|]. rewrite forallb_elem in Hext.
    specialize (Hext c Hc). unfold isAlnumI, isDigit, isLowerAZ, isUpperAZ in Hext.
    unfold isPathSep, chr_slash, chr_backslash.
    repeat match goal with
    | H : context [(?a <=? ?b)%N] |- _ => destruct (N.leb_spec a b); try lia
    | |- context [(?a =? ?b)%N] => destruct (N.eqb_spec a b); try lia
    end; simpl in *; done. }
  assert (Hname1 : pop (splitAtClass isPathSep []
                         (dir ++ artist ++ js " - " ++ title ++ chr_dot :: ext))
                   = (artist ++ js " - " ++ title) ++ chr_dot :: ext).
  { replace (dir ++ artist ++ js " - " ++ title ++ chr_dot :: ext)
      with (dir ++ ((artist ++ js " - " ++ title) ++ chr_dot :: ext))
      by (by rewrite <- !app_assoc).
    apply pop_splitAtClass; [done|done|].
    intros c [[Hc|[Hc|Hc]%elem_of_app]%elem_of_app|Hc]%elem_of_app.
    - apply Hsep. rewrite !elem_of_app. auto.
    - revert Hc. generalize c. by apply Forall_forall; repeat constructor.
    - apply Hsep. rewrite !elem_of_app. auto.
    - by apply Hextsep. }
  assert (Hname2 : pop (splitAtClass isPathSep [] (dir ++ base ++ chr_dot :: ext))
                   = base ++ chr_dot :: ext).
  { apply pop_splitAtClass; [done|done|].
    intros c [Hc|Hc]%elem_of_app; [|by apply Hextsep].
    apply Hsep. rewrite !elem_of_app. auto. }
  assert (Hsplit1 : splitOn " - " (artist ++ js " - " ++ title)
                    = artist :: splitOn " - " title).
  { unfold splitOn. by rewrite splitOnGo_first. }
  assert (Hocc : occursIn " - " (artist ++ js " - " ++ title)) by (by exists artist, title).
  unfold deriveArtist, deriveTitle. cbv zeta.
  rewrite Hname1, Hname2, !stripExtension_ext by done.
  rewrite (proj2 (includes_occursIn _ _) Hocc).
  assert (includes base " - " = false) as ->.
  { apply not_true_is_false. by rewrite includes_occursIn. }
  rewrite Hsplit1. cbn [List.hd length drop].
  assert (Hlen : (1 <? S (length (splitOn " - " title)))%nat = true).
  { apply Nat.ltb_lt. pose proof (splitOnGo_nonnil " - " [] 0 title) as Hnn.
    unfold splitOn. destruct (splitOnGo " - " [] 0 title); [done|simpl; lia]. }
  rewrite Hlen, drop_0. unfold splitOn.
  rewrite (join_splitOnGo (length title)) by done.
  rewrite (splitOnGo_whole [] base) by done. done.
Qed.

Lemma derived_title_and_artist_witness :
  deriveArtist (js "VIDEO/80s/" ++ js "Queen" ++ js " - " ++ js "Radio_Ga_Ga - Live"
                  ++ chr_dot :: js "mp4") = js "Queen" /\
  deriveTitle (js "VIDEO/80s/" ++ js "Queen" ++ js " - " ++ js "Radio_Ga_Ga - Live"
                 ++ chr_dot :: js "mp4") = js "Radio Ga Ga - Live" /\
  deriveArtist (js "VIDEO/80s/" ++ js "clip" ++ chr_dot :: js "mp4") = js "Unknown" /\
  deriveTitle (js "VIDEO/80s/" ++ js "clip" ++ chr_dot :: js "mp4") = js "clip".
Proof.
  assert (H1 : forall c, last (js "VIDEO/80s/") = Some c -> isPathSep c = true)
    by (by intros c [= <-]).
  assert (H2 : js "mp4" <> []) by done.
  assert (H3 : forallb isAlnumI (js "mp4") = true) by reflexivity.
  assert (H4 : forall c, c ∈ js "Queen" ++ js "Radio_Ga_Ga - Live" ++ js "clip" ->
                         isPathSep c = false).
  { apply Forall_forall. by repeat constructor. }
  assert (H5 : chr_hyphen ∉ js "Queen") by compute_done.
  assert (H6 : ~ occursIn " - " (js "clip")).
  { apply findSub_None. reflexivity. }
  pose proof (derived_title_and_artist "VIDEO/80s/" "Queen" "Radio_Ga_Ga - Live" "clip"
                "mp4" H1 H2 H3 H4 H5 H6) as (Ha & Ht & Hb1 & Hb2).
  split; [exact Ha|]. split; [exact Ht|]. split; [exact Hb1|exact Hb2].
Defined.

(* ================================================================== *)
(** ** Durations *)

Lemma decimalValue_app (front back : jsstring) :
  decimalValue (front ++ back)
  = fold_left (fun acc c => 10 * acc + (Z.of_N c - 48)) back (decimalValue front).
Proof. unfold decimalValue. by rewrite fold_left_app. Qed.

Lemma pretty_N_char_value (d : N) :
  (d < 10)%N -> Z.of_N (N_of_ascii (pretty_N_char d)) - 48 = Z.of_N d.
Proof.
  intros Hd.
  assert (d = 0 \/ d = 1 \/ d = 2 \/ d = 3 \/ d = 4 \/ d = 5 \/ d = 6 \/ d = 7
          \/ d = 8 \/ d = 9)%N as H by lia.
  repeat (destruct H as [->|H]; [done|]). by subst.
Qed.

(** Printing a number in decimal in front of [s] and reading the digits
    back continues from the number. *)
Lemma decimalValue_pretty_N_go (x : N) (s : string) :
  decimalValue (js (pretty_N_go x s))
  = fold_left (fun acc c => 10 * acc + (Z.of_N c - 48)) (js s) (Z.of_N x).
Proof.
  revert s. induction (N.lt_wf_0 x) as [x _ IH]; intros s.
  destruct (decide (x = 0)%N) as [->|Hx]; [done|].
  rewrite pretty_N_go_step by lia. rewrite IH by (apply N.div_lt; lia).
  change (js (String (pretty_N_char (x `mod` 10)) s))
    with (N_of_ascii (pretty_N_char (x `mod` 10)) :: js s).
  cbn [fold_left]. rewrite pretty_N_char_value by (apply N.mod_lt; lia).
  f_equal. rewrite (N.div_mod x 10) at 3 by lia. lia.
Qed.

Lemma decimalValue_pretty (z : Z) : 0 <= z -> decimalValue (js (pretty z)) = z.
Proof.
  intros Hz. destruct z as [|p|p]; [done| |lia].
  change (pretty (Z.pos p)) with (pretty_N_go (N.pos p) "").
  by rewrite decimalValue_pretty_N_go.
Qed.

Lemma pretty_N_go_digits (x : N) (s : string) :
  forallb isDigit (js s) = true -> forallb isDigit (js (pretty_N_go x s)) = true.
Proof.
  revert s. induction (N.lt_wf_0 x) as [x _ IH]; intros s Hs.
  destruct (decide (x = 0)%N) as [->|Hx]; [done|].
  rewrite pretty_N_go_step by lia. apply IH; [apply N.div_lt; lia|].
  pose proof (pretty_N_char_value (x `mod` 10) ltac:(apply N.mod_lt; lia)) as Hv.
  assert (Hd : (x `mod` 10 < 10)%N) by (apply N.mod_lt; lia).
  change (js (String (pretty_N_char (x `mod` 10)) s))
    with (N_of_ascii (pretty_N_char (x `mod` 10)) :: js s).
  revert Hv. generalize (N_of_ascii (pretty_N_char (x `mod` 10))). intros ch Hv.
  revert Hd Hv. generalize (x `mod` 10)%N. intros d Hd Hv.
  cbn [forallb]. rewrite Hs, andb_true_r.
  unfold isDigit. apply andb_true_iff. split; apply N.leb_le; lia.
Qed.

Lemma pretty_digits (z : Z) : 0 <= z -> forallb isDigit (js (pretty z)) = true.
Proof.
  intros Hz. destruct z as [|p|p]; [done| |lia].
  change (pretty (Z.pos p)) with (pretty_N_go (N.pos p) "").
  by apply pretty_N_go_digits.
Qed.

Lemma padStart2_value (s : jsstring) : decimalValue (padStart2 s) = decimalValue s.
Proof.
  unfold padStart2. rewrite decimalValue_app.
  assert (decimalValue (repeat 48%N (2 - length s)) = 0) as ->; [|done].
  unfold decimalValue. by induction (2 - length s)%nat.
Qed.

Lemma padStart2_digits (s : jsstring) :
  forallb isDigit s = true -> forallb isDigit (padStart2 s) = true.
Proof.
  intros Hs. unfold padStart2. rewrite forallb_app, Hs, andb_true_r.
  by induction (2 - length s)%nat.
Qed.

Lemma padStart2_length (s : jsstring) : (2 <= length (padStart2 s))%nat.
Proof. unfold padStart2. rewrite length_app, repeat_length. lia. Qed.

Lemma seconds_length (ss : Z) :
  0 <= ss < 60 -> length (padStart2 (js (pretty ss))) = 2%nat.
Proof.
  intros Hss.
  assert (Hall : forallb (fun n => (length (padStart2 (js (pretty (Z.of_nat n)))) =? 2)%nat)
                   (seq 0 60) = true) by (vm_compute; reflexivity).
  rewrite forallb_elem in Hall. specialize (Hall (Z.to_nat ss)).
  rewrite Z2Nat.id in Hall by lia. apply Nat.eqb_eq, Hall, elem_of_seq. lia.
Qed.

(** X29.  A missing or NaN duration prints as a dash.  A finite duration
    below 2^53 seconds prints as minutes, a colon and seconds, all decimal
    digits, the seconds on exactly two places and below 60, the minutes on
    two places or more; read back, sixty times the minutes plus the seconds
    is the duration rounded to the nearest second, or 0 when that is
    negative. *)
Theorem formatDuration_reads_back (bigMinutes : Z -> jsstring) (q : Q) :
  Math_round q < 2 ^ 53 ->
  formatDuration bigMinutes None = EM_DASH /\
  formatDuration bigMinutes (Some NaN) = EM_DASH /\
  exists mm ss : jsstring,
    formatDuration bigMinutes (Some (Fin q)) = mm ++ js ":" ++ ss /\
    forallb isDigit mm = true /\ forallb isDigit ss = true /\
    (2 <= length mm)%nat /\ length ss = 2%nat /\
    decimalValue ss < 60 /\
    60 * decimalValue mm + decimalValue ss = Z.max 0 (Math_round q).
Proof.
  intros Hq. split; [done|]. split; [done|].
  unfold formatDuration. cbv zeta.
  set (total := Z.max 0 (Math_round q)).
  assert (Htotal : 0 <= total < 2 ^ 53) by (unfold total; lia).
  destruct (Z.ltb_spec total (2 ^ 53)) as [_|]; [|lia].
  assert (Hmm : 0 <= total / 60) by (apply Z.div_pos; lia).
  assert (Hss : 0 <= total mod 60 < 60) by (apply Z.mod_pos_bound; lia).
  eexists _, _. split; [done|].
  split; [by apply padStart2_digits, pretty_digits|].
  split; [apply padStart2_digits, pretty_digits; lia|].
  split; [apply padStart2_length|]. split; [by apply seconds_length|].
  rewrite !padStart2_value, !decimalValue_pretty by lia.
  split; [lia|]. rewrite (Z.div_mod total 60) at 3 by lia. lia.
Qed.

Lemma formatDuration_reads_back_witness :
  Math_round (4513 # 20) < 2 ^ 53 /\
  formatDuration (fun _ => []) (Some (Fin (4513 # 20))) = js "03:46" /\
  exists mm ss : jsstring,
    formatDuration (fun _ => []) (Some (Fin (4513 # 20))) = mm ++ js ":" ++ ss /\
    forallb isDigit mm = true /\ forallb isDigit ss = true /\
    (2 <= length mm)%nat /\ length ss = 2%nat /\
    decimalValue ss < 60 /\
    60 * decimalValue mm + decimalValue ss = Z.max 0 (Math_round (4513 # 20)).
Proof.
  assert (H : Math_round (4513 # 20) < 2 ^ 53) by (vm_compute; reflexivity).
  split; [exact H|]. split; [vm_compute; reflexivity|].
  exact (proj2 (proj2 (formatDuration_reads_back (fun _ => []) (4513 # 20) H))).
Defined.

(* ================================================================== *)
(** ** The persisted filter state *)

Lemma integerOf_ofZ (z : Z) : integerOf (JNum (ofZ z)) = Some z.
Proof.
  unfold integerOf, ofZ, Math_trunc, inject_Z. cbn [Qnum Qden].
  rewrite Z.quot_1_r. by rewrite (proj2 (Qeq_bool_iff _ _) (Qeq_refl _)).
Qed.

Lemma namedBy_tier (tier : jsstring) :
  tier ∈ TIER_FILTERS ->
  namedBy (fun tier : jsstring => tier) TIER_FILTERS (JStr tier) = Some tier.
Proof.
  unfold TIER_FILTERS. rewrite !elem_of_cons, elem_of_nil.
  intros [->|[->|[->|[->|[->|[]]]]]]; reflexivity.
Qed.

Lemma namedBy_member {A} (name : A -> jsstring) (constants : list A) (v : JsValue) (c : A) :
  namedBy name constants v = Some c -> c ∈ constants /\ v = JStr (name c).
Proof.
  destruct v; try discriminate. simpl. intros H.
  destruct (find_some _ _ H) as [Hin Hname].
  apply bool_decide_eq_true in Hname. split; [by apply list_elem_of_In|by subst].
Qed.

Lemma restored_digits (l : list JsValue) :
  Forall (fun d => 0 <= d <= 9)
    (omap (fun v => match integerOf v with
                    | Some d => if (0 <=? d) && (d <=? 9) then Some d else None
                    | None => None
                    end) l).
Proof.
  apply Forall_forall. intros d (v & _ & Hd)%list_elem_of_omap.
  destruct (integerOf v) as [d'|]; [|discriminate].
  destruct ((0 <=? d') && (d' <=? 9)) eqn:E; [|discriminate].
  injection Hd as <-. apply andb_true_iff in E as [?%Z.leb_le ?%Z.leb_le]. lia.
Qed.

Lemma restored_tiers (l : list JsValue) :
  Forall (fun tier => tier ∈ TIER_FILTERS)
    (omap (namedBy (fun tier : jsstring => tier) TIER_FILTERS) l).
Proof.
  apply Forall_forall. intros tier (v & _ & Ht)%list_elem_of_omap.
  by apply namedBy_member in Ht as [? _].
Qed.

(** X30.  Whatever the storage holds, the restored state holds only known
    tier filters and year digits 0 to 9; and restoring the payload of a
    state of that kind gives the state back. *)
Theorem restoreFilters_round_trip (s : FilterState) (data : JsValue) :
  Forall (fun tier => tier ∈ TIER_FILTERS) (f_activeTiers s) ->
  Forall (fun d => 0 <= d <= 9) (f_activeYearDigits s) ->
  restoreFilters (filterPayload s) initialFilters = s /\
  Forall (fun tier => tier ∈ TIER_FILTERS) (f_activeTiers (restoreFilters data s)) /\
  Forall (fun d => 0 <= d <= 9) (f_activeYearDigits (restoreFilters data s)).
Proof.
  intros Htiers Hdigits. split; [|split].
  - destruct s as [search sortMode newnessMode decades tiers digits spinYear retention].
    cbn [f_activeTiers f_activeYearDigits] in *.
    unfold restoreFilters, filterPayload.
    cbn [f_search f_sortMode f_newnessMode f_activeDecades f_activeTiers
         f_activeYearDigits f_activeSpinYear f_retentionFilter].
    set (o := [ (js "search", _); _; _; _; _; _; _; _ ]).
    change (getField o (js "search")) with (JStr search).
    change (getField o (js "sortMode")) with (JStr (sortModeName sortMode)).
    change (getField o (js "newnessMode")) with (JStr (newnessModeName newnessMode)).
    change (getField o (js "activeDecades"))
      with (JArr (map (fun pill => JStr (decadePillName pill)) decades)).
    change (getField o (js "activeTiers")) with (JArr (map JStr tiers)).
    change (getField o (js "activeYearDigits"))
      with (JArr (map (fun d => JNum (ofZ d)) digits)).
    change (getField o (js "activeSpinYear"))
      with (match spinYear with Some y => JNum (ofZ y) | None => JNull end).
    change (getField o (js "retentionFilter")) with (JStr (retentionFilterName retention)).
    f_equal.
    + by destruct sortMode.
    + by destruct newnessMode.
    + induction decades as [|pill decades IH]; [done|].
      cbn [map omap list_omap]. change (list_omap _ _ ?f ?l) with (omap f l).
      rewrite IH. by destruct pill.
    + induction tiers as [|tier tiers IH]; [done|].
      apply Forall_cons in Htiers as [Ht Htiers].
      cbn [map omap list_omap]. change (list_omap _ _ ?f ?l) with (omap f l).
      by rewrite namedBy_tier, IH.
    + induction digits as [|d digits IH]; [done|].
      apply Forall_cons in Hdigits as [Hd Hdigits].
      cbn [map omap list_omap]. change (list_omap _ _ ?f ?l) with (omap f l).
      rewrite integerOf_ofZ, IH by done.
      by rewrite (proj2 (Z.leb_le 0 d)), (proj2 (Z.leb_le d 9)) by lia.
    + destruct spinYear as [y|]; [by rewrite integerOf_ofZ|done].
    + by destruct retention as [[]|].
  - destruct data; try done; cbn [restoreFilters f_activeTiers]; try done.
    destruct (getField fields "activeTiers"); try done. apply restored_tiers.
  - destruct data; try done; cbn [restoreFilters f_activeYearDigits]; try done.
    destruct (getField fields "activeYearDigits"); try done. apply restored_digits.
Qed.

Lemma restoreFilters_round_trip_witness :
  restoreFilters
    (filterPayload
       {| f_search := js "queen 75-83"; f_sortMode := SortYear; f_newnessMode := Newness90d;
          f_activeDecades := [P80s; P70s]; f_activeTiers := [js "power"];
          f_activeYearDigits := [3; 0]; f_activeSpinYear := Some 1983;
          f_retentionFilter := Some GradeA |})
    initialFilters
  = {| f_search := js "queen 75-83"; f_sortMode := SortYear; f_newnessMode := Newness90d;
       f_activeDecades := [P80s; P70s]; f_activeTiers := [js "power"];
       f_activeYearDigits := [3; 0]; f_activeSpinYear := Some 1983;
       f_retentionFilter := Some GradeA |} /\
  f_activeYearDigits
    (restoreFilters
       (JObj [ (js "activeYearDigits", JArr [JNum (ofZ 3); JNum (ofZ 12); JStr (js "4");
                                            JNum (Fin (5 # 2))]) ])
       initialFilters) = [3].
Proof.
  assert (H1 : Forall (fun tier => tier ∈ TIER_FILTERS) [js "power"]).
  { apply Forall_singleton. compute_done. }
  assert (H2 : Forall (fun d => 0 <= d <= 9) [3; 0]) by (repeat constructor; lia).
  split; [|vm_compute; reflexivity].
  exact (proj1 (restoreFilters_round_trip
                  {| f_search := js "queen 75-83"; f_sortMode := SortYear;
                     f_newnessMode := Newness90d;
                     f_activeDecades := [P80s; P70s]; f_activeTiers := [js "power"];
                     f_activeYearDigits := [3; 0]; f_activeSpinYear := Some 1983;
                     f_retentionFilter := Some GradeA |} JNull H1 H2)).
Defined.

